(** * catgets.c: kitten-like message catalogues

    A shallow embedding of [src/catgets.c] (FreeDOS edlin) and the
    properties of its escape transformer, catalogue reader, path resolver
    and catalogue registry.

    Conventions of the embedding:
    - a C string or a [STRING_T] is the list of its character codes
      ([list Z], codes 0..255), without the terminating NUL;
    - [int] is 32 bits wide and wraps around ([wrap_int]);
    - [size_t] values are kept in [Z]; [NPOS] is the largest of them and
      [NPOS + 1] wraps to 0 ([size_wrap]);
    - a function that can leave the normal control flow returns an
      [outcome]: a value, or a [Fault] standing for a run-time abort or
      an undefined operation of the C program. *)

From Stdlib Require Import ZArith String Ascii Lia Sorted.
From stdpp Require Import base list.

Open Scope Z_scope.

(** ** Characters and literals *)

Definition chr (a : ascii) : Z := Z.of_N (N_of_ascii a).

(** The character codes of a string literal (Rocq literals have no escape
    sequences: a backslash in them is a backslash). *)
Definition lit (s : string) : list Z := map chr (list_ascii_of_string s).

Definition NUL : Z := 0.
Definition NL : Z := 10.

(** ** Machine integers *)

Definition INT_BITS : Z := 32.
Definition wrap_int (z : Z) : Z :=
  (z + 2 ^ (INT_BITS - 1)) mod 2 ^ INT_BITS - 2 ^ (INT_BITS - 1).

Definition SIZE_BITS : Z := 64.
Definition size_wrap (z : Z) : Z := z mod 2 ^ SIZE_BITS.
Definition NPOS : Z := 2 ^ SIZE_BITS - 1.

(** Storing an [int] into a [char] keeps its low eight bits. *)
Definition to_char (z : Z) : Z := z mod 256.

(** ** Outcomes *)

Inductive fault : Type :=
| RangeError      (* an index beyond the length of a dynamic string or array *)
| NullDereference (* a member of a null pointer is read *)
| OutOfBounds     (* a read beyond the end of a table or of a C string *)
| OutOfFuel.      (* the bound on the iterations of a loop was too small *)

Inductive outcome (A : Type) : Type :=
| Ret (a : A)
| Fault (f : fault).
Arguments Ret {A} a.
Arguments Fault {A} f.

#[global] Instance outcome_ret : MRet outcome := fun A a => Ret a.
#[global] Instance outcome_bind : MBind outcome := fun A B k m =>
  match m with
  | Ret a => k a
  | Fault f => Fault f
  end.

(** ** <ctype.h> and <string.h> in the C locale *)

Definition isdigit (c : Z) : bool := (chr "0" <=? c) && (c <=? chr "9").

Definition isxdigit (c : Z) : bool :=
  isdigit c
  || ((chr "a" <=? c) && (c <=? chr "f"))
  || ((chr "A" <=? c) && (c <=? chr "F")).

Definition tolower (c : Z) : Z :=
  if (chr "A" <=? c) && (c <=? chr "Z") then c + 32 else c.

(** [strchr s c]: the offset of the first [c] in [s]; the terminating NUL
    is part of the string, so that looking for NUL finds the end. *)
Fixpoint strchr (s : list Z) (c : Z) : option nat :=
  match s with
  | [] => if c =? NUL then Some 0%nat else None
  | x :: s' => if x =? c then Some 0%nat else S <$> strchr s' c
  end.

(** [strrchr s c]: the offset of the last [c] in [s]. *)
Fixpoint strrchr (s : list Z) (c : Z) : option nat :=
  match s with
  | [] => if c =? NUL then Some 0%nat else None
  | x :: s' =>
      match strrchr s' c with
      | Some k => Some (S k)
      | None => if x =? c then Some 0%nat else None
      end
  end.

(** [strpbrk s1 s2]: the offset of the first character of [s1] that occurs
    in [s2]. *)
Fixpoint strpbrk (s1 s2 : list Z) : option nat :=
  match s1 with
  | [] => None
  | x :: s1' =>
      if bool_decide (is_Some (strchr s2 x)) then Some 0%nat
      else S <$> strpbrk s1' s2
  end.

(** ** Dynamic strings (dynstr.h) *)

(** Modelled from the spec: dynstr.h and its implementation are not part
    of the sources at hand; the string-buffer utilities are the external
    collaborators of section 1.  A [STRING_T] is the sequence of its
    characters. *)
Abbreviation STRING_T := (list Z) (only parsing).

Definition DScreate : STRING_T := [].

Definition DSlength (s : STRING_T) : Z := Z.of_nat (length s).

(** Modelled from the spec: [DSget_at] (dynstr.h, absent).  The callers in
    catgets.c guard every read by the length, so a read at or beyond the
    length is taken as a range error. *)
Definition DSget_at (s : STRING_T) (i : Z) : outcome Z :=
  if (0 <=? i) && (i <? DSlength s) then
    match s !! Z.to_nat i with
    | Some c => Ret c
    | None => Fault RangeError
    end
  else Fault RangeError.

(** Modelled from the spec: [DSresize s n c] (dynstr.h, absent) cuts [s]
    to [n] characters or pads it with [c] up to [n]. *)
Definition DSresize (s : STRING_T) (n : Z) (c : Z) : STRING_T :=
  take (Z.to_nat n) s ++ replicate (Z.to_nat n - length s) (to_char c).

(** A count of [NPOS] stands for all the [avail] characters there are;
    any other count is cut down to them. *)
Definition clip (n avail : Z) : Z :=
  if NPOS <=? n then avail else Z.min n avail.

(** Modelled from the spec: [DSremove s p n] (dynstr.h, absent) takes
    [n] characters out of [s] from position [p], or all that are left
    when there are fewer. *)
Definition DSremove (s : STRING_T) (p n : Z) : outcome STRING_T :=
  if DSlength s <? p then Fault RangeError
  else
    let n := clip n (DSlength s - p) in
    Ret (take (Z.to_nat p) s ++ drop (Z.to_nat (p + n)) s).

Definition DSappendchar (s : STRING_T) (c : Z) (n : nat) : STRING_T :=
  s ++ replicate n (to_char c).

(** The characters of a C string stop at its first NUL. *)
Fixpoint c_str (b : list Z) : list Z :=
  match b with
  | [] => []
  | c :: b' => if c =? NUL then [] else c :: c_str b'
  end.

(** Modelled from the spec: [DSappendcstr s p n] (dynstr.h, absent)
    appends at most [n] characters of the C string [p]. *)
Definition DSappendcstr (s : STRING_T) (p : list Z) (n : Z) : STRING_T :=
  s ++ take (Z.to_nat (clip n (Z.of_nat (length (c_str p))))) (c_str p).

(** Modelled from the spec: [DSassign x y p n] (dynstr.h, absent) makes
    [x] the [n] characters of [y] from position [p]. *)
Definition DSassign (y : STRING_T) (p n : Z) : STRING_T :=
  take (Z.to_nat (clip n (DSlength y - p))) (drop (Z.to_nat p) y).

(** [DScstr s]: [s] seen as a C string. *)
Definition DScstr (s : STRING_T) : list Z := c_str s.

Definition in_set (set : list Z) (c : Z) : bool :=
  bool_decide (c ∈ set).

(** Modelled from the spec: [DSfind_first_not_of s set p NPOS] (dynstr.h,
    absent) is the first position from [p] on whose character is not in
    [set], or [NPOS]. *)
Fixpoint find_first_not_of (s : list Z) (set : list Z) (i : nat) : option nat :=
  match s with
  | [] => None
  | c :: s' => if in_set set c then find_first_not_of s' set (S i) else Some i
  end.

Definition DSfind_first_not_of (s : STRING_T) (set : list Z) (p : Z) : Z :=
  match find_first_not_of (drop (Z.to_nat p) s) set (Z.to_nat p) with
  | Some i => Z.of_nat i
  | None => NPOS
  end.

(** Modelled from the spec: [DSfind_last_not_of s set NPOS NPOS] (dynstr.h,
    absent) is the last position whose character is not in [set], or
    [NPOS]. *)
Fixpoint find_last_not_of (s : list Z) (set : list Z) (i : nat) : option nat :=
  match s with
  | [] => None
  | c :: s' =>
      match find_last_not_of s' set (S i) with
      | Some k => Some k
      | None => if in_set set c then None else Some i
      end
  end.

Definition DSfind_last_not_of (s : STRING_T) (set : list Z) : Z :=
  match find_last_not_of s set 0 with
  | Some i => Z.of_nat i
  | None => NPOS
  end.

(** ** The escape transformer *)

Definition FSM_ANY : Z := 256.
Definition FSM_DIGIT : Z := 257.
Definition FSM_ODIGIT : Z := 258.
Definition FSM_XDIGIT : Z := 259.
Definition FSM_OUTPUT : Z := 260.
Definition FSM_SUPPRESS : Z := 261.
Definition FSM_BASE8 : Z := 262.
Definition FSM_BASE8_OUTPUT : Z := 263.
Definition FSM_BASE10 : Z := 264.
Definition FSM_BASE10_OUTPUT : Z := 265.
Definition FSM_BASE16 : Z := 266.
Definition FSM_BASE16_OUTPUT : Z := 267.
Definition FSM_RETAIN : Z := 268.

(** The transition table of [transform_string], four numbers a row:
    state, input, action, next state. *)
Definition fsm : list Z :=
  [ 0; chr "\"; FSM_SUPPRESS; 1;
    0; FSM_ANY; FSM_OUTPUT; 0;
    1; chr "b"; 8; 0;
    1; chr "e"; 27; 0;
    1; chr "f"; 12; 0;
    1; chr "n"; 10; 0;
    1; chr "r"; 13; 0;
    1; chr "t"; 9; 0;
    1; chr "v"; 11; 0;
    1; chr "\"; chr "\"; 0;
    1; chr "d"; FSM_SUPPRESS; 2;
    1; FSM_ODIGIT; FSM_BASE8; 3;
    1; chr "x"; FSM_SUPPRESS; 4;
    1; FSM_ANY; FSM_OUTPUT; 0;
    2; FSM_DIGIT; FSM_BASE10; 21;
    2; FSM_ANY; FSM_RETAIN; 0;
    3; FSM_ODIGIT; FSM_BASE8; 31;
    3; FSM_ANY; FSM_RETAIN; 0;
    4; FSM_XDIGIT; FSM_BASE16; 4;
    4; FSM_ANY; FSM_RETAIN; 0;
    21; FSM_DIGIT; FSM_BASE10; 22;
    21; FSM_ANY; FSM_RETAIN; 0;
    22; FSM_DIGIT; FSM_BASE10_OUTPUT; 0;
    22; FSM_ANY; FSM_RETAIN; 0;
    31; FSM_ODIGIT; FSM_BASE8_OUTPUT; 0;
    31; FSM_ANY; FSM_RETAIN; 0;
    -1; -1; -1; -1 ].

Definition hexits : list Z := lit "0123456789abcdef".

(** The test of the [for] loop that looks for the row of [state] and [c]. *)
Definition fsm_match (st inp state c : Z) : bool :=
  (st =? state)
  && ((inp =? c)
      || (inp =? FSM_ANY)
      || ((inp =? FSM_DIGIT) && isdigit c)
      || ((inp =? FSM_ODIGIT) && bool_decide (is_Some (strchr (lit "01234567") c)))
      || ((inp =? FSM_XDIGIT) && isxdigit c)).

(** The row search: the action and the next state of the first row that
    matches; running off the table reads beyond it. *)
Fixpoint fsm_find (tbl : list Z) (state c : Z) : outcome (Z * Z) :=
  match tbl with
  | st :: inp :: act :: next :: tbl' =>
      if fsm_match st inp state c then Ret (act, next)
      else fsm_find tbl' state c
  | _ => Fault OutOfBounds
  end.

(** The body of the [switch]: the new accumulator, output and position. *)
Definition fsm_action (act c accum : Z) (t : STRING_T) (ip : Z)
  : outcome (Z * STRING_T * Z) :=
  if act =? FSM_OUTPUT then Ret (accum, DSappendchar t c 1, ip + 1)
  else if act =? FSM_SUPPRESS then Ret (0, t, ip + 1)
  else if act =? FSM_BASE10 then
    Ret (wrap_int (accum * 10 + (c - chr "0")), t, ip + 1)
  else if act =? FSM_BASE8 then
    Ret (wrap_int (Z.shiftl accum 3 + (c - chr "0")), t, ip + 1)
  else if act =? FSM_BASE16 then
    match strchr hexits (tolower c) with
    | Some k => Ret (wrap_int (Z.shiftl accum 4 + Z.of_nat k), t, ip + 1)
    | None => Fault OutOfBounds
    end
  else if act =? FSM_BASE10_OUTPUT then
    Ret (0, DSappendchar t (wrap_int (accum * 10 + (c - chr "0"))) 1, ip + 1)
  else if act =? FSM_BASE8_OUTPUT then
    Ret (0, DSappendchar t (wrap_int (Z.shiftl accum 3 + (c - chr "0"))) 1,
         ip + 1)
  else if act =? FSM_RETAIN then Ret (0, DSappendchar t accum 1, ip)
  else Ret (accum, DSappendchar t act 1, ip + 1).

(** One turn of the [while] loop for the character [c] at [ip]: the row
    search, the [switch] and the change of state. *)
Definition fsm_step (state accum c : Z) (t : STRING_T) (ip : Z)
  : outcome (Z * Z * STRING_T * Z) :=
  '(act, next) ← fsm_find fsm state c;
  '(accum, t, ip) ← fsm_action act c accum t ip;
  Ret (next, accum, t, ip).

(** The [while] loop of [transform_string]; [fuel] bounds its iterations.
    It ends with the output [t] and with [ip], [state] and [accum] as the
    loop leaves them. *)
Fixpoint transform_loop (fuel : nat) (s : STRING_T) (ip state accum : Z)
    (t : STRING_T) : outcome (STRING_T * Z * Z * Z) :=
  match fuel with
  | O => Fault OutOfFuel
  | S fuel' =>
      if ip <? DSlength s then
        c ← DSget_at s ip;
        if c =? NUL then Ret (t, ip, state, accum)
        else
          '(state, accum, t, ip) ← fsm_step state accum c t ip;
          transform_loop fuel' s ip state accum t
      else Ret (t, ip, state, accum)
  end.

(** A step either moves on in [s] or goes back to state 0 without moving,
    so twice the length of [s] and one more test bound the iterations. *)
Definition transform_fuel (s : STRING_T) : nat := (2 * length s + 2)%nat.

(** [transform_string t s]: the new contents of [t]. *)
Definition transform_string (s : STRING_T) : outcome STRING_T :=
  '(t, _, _, _) ← transform_loop (transform_fuel s) s 0 0 0 (DSresize [] 0 0);
  Ret t.

(** ** Messages and catalogues *)

Record _CAT_MESSAGE_T : Type := mk_message {
  set_id : Z;
  msg_id : Z;
  msg : STRING_T
}.

(** Modelled from the spec: dynarray.h is not part of the sources at hand;
    a [_CATMSG_ARRAY_T] is the sequence of its elements, each one a copy of
    what was stored ([_CAT_MESSAGE_assign] copies both ids and the text). *)
Abbreviation _CATMSG_ARRAY_T := (list _CAT_MESSAGE_T) (only parsing).

Definition _CATMSG_create : _CATMSG_ARRAY_T := [].

(** Modelled from the spec: [_CATMSG_append a x 1 0] (dynarray.h, absent)
    adds one copy of [x] at the end of [a]. *)
Definition _CATMSG_append (a : _CATMSG_ARRAY_T) (x : _CAT_MESSAGE_T)
  : _CATMSG_ARRAY_T := a ++ [x].

(** Modelled from the spec: [_CATMSG_resize a 0 0] (dynarray.h, absent)
    leaves [a] without elements. *)
Definition _CATMSG_resize (a : _CATMSG_ARRAY_T) (n : nat) : _CATMSG_ARRAY_T :=
  take n a.

Record _CAT_CATALOG_T : Type := mk_catalog {
  is_opened : Z;
  msgs : _CATMSG_ARRAY_T
}.

Abbreviation _CATCAT_ARRAY_T := (list _CAT_CATALOG_T) (only parsing).

(** Modelled from the spec: [_CATCAT_append a x 1 0] (dynarray.h, absent)
    adds one copy of [x] at the end of [a]. *)
Definition _CATCAT_append (a : _CATCAT_ARRAY_T) (x : _CAT_CATALOG_T)
  : _CATCAT_ARRAY_T := a ++ [x].

(** Modelled from the spec: [_CATCAT_put_at a i x] (dynarray.h, absent)
    assigns [x] to the slot [i]; at [i] equal to the length it appends a
    new slot (section 4.4: if no slot is closed, install appends one);
    beyond the length is a range error. *)
Definition _CATCAT_put_at (a : _CATCAT_ARRAY_T) (i : nat) (x : _CAT_CATALOG_T)
  : outcome _CATCAT_ARRAY_T :=
  if (i <? length a)%nat then Ret (<[i := x]> a)
  else if (i =? length a)%nat then Ret (_CATCAT_append a x)
  else Fault RangeError.

Definition catmsg_cmp (pa pb : _CAT_MESSAGE_T) : Z :=
  if negb (set_id pa =? set_id pb) then
    if set_id pa <? set_id pb then -1 else 1
  else if negb (msg_id pa =? msg_id pb) then
    if msg_id pa <? msg_id pb then -1 else 1
  else 0.

(** ** <stdlib.h>: qsort and bsearch *)

(** [qsort] leaves the array sorted by the comparison function; which of
    two elements that compare equal comes first is not specified by C.
    The model sorts by insertion and keeps their order. *)
Fixpoint qsort_insert {T} (cmp : T -> T -> Z) (x : T) (a : list T) : list T :=
  match a with
  | [] => [x]
  | y :: a' => if cmp x y <=? 0 then x :: a else y :: qsort_insert cmp x a'
  end.

Definition qsort {T} (cmp : T -> T -> Z) (a : list T) : list T :=
  foldr (qsort_insert cmp) [] a.

(** [bsearch]: binary search between [l] (included) and [u] (excluded);
    the interval at least halves at every step, so its width bounds the
    number of steps. *)
Fixpoint bsearch_loop {T} (fuel : nat) (cmp : T -> T -> Z) (key : T)
    (base : list T) (l u : nat) : option T :=
  match fuel with
  | O => None
  | S fuel' =>
      if (l <? u)%nat then
        let idx := ((l + u) / 2)%nat in
        match base !! idx with
        | None => None
        | Some p =>
            let c := cmp key p in
            if c <? 0 then bsearch_loop fuel' cmp key base l idx
            else if 0 <? c then bsearch_loop fuel' cmp key base (S idx) u
            else Some p
        end
      else None
  end.

Definition bsearch {T} (cmp : T -> T -> Z) (key : T) (base : list T)
  : option T :=
  bsearch_loop (length base) cmp key base 0 (length base).

(** ** <stdio.h>: reading a text stream *)

(** The characters of an open stream that are still to be read. *)
Abbreviation FILE := (list Z) (only parsing).

(** The size of the line buffer; C requires at least 256. *)
Definition BUFSIZ : nat := 512.

(** [fgets_chars n f]: at most [n] characters of [f], up to and with the
    first newline, and what is left of [f]. *)
Fixpoint fgets_chars (n : nat) (f : FILE) : list Z * FILE :=
  match n, f with
  | S n', c :: f' =>
      if c =? NL then ([c], f')
      else let '(b, r) := fgets_chars n' f' in (c :: b, r)
  | _, _ => ([], f)
  end.

(** [fgets buffer n f]: nothing at the end of the file. *)
Definition fgets (n : nat) (f : FILE) : option (list Z * FILE) :=
  match f with
  | [] => None
  | _ :: _ => Some (fgets_chars (n - 1) f)
  end.

(** ** Reading a catalogue *)

(** [append_from_file f s]: the line read and the stream behind it.  Every
    [fgets] that succeeds takes at least one character, which bounds the
    iterations by the length of [f]. *)
Fixpoint append_from_file_loop (fuel : nat) (f : FILE) (s : STRING_T)
  : outcome (STRING_T * FILE) :=
  match fuel with
  | O => Fault OutOfFuel
  | S fuel' =>
      match fgets BUFSIZ f with
      | None => Ret (s, f)
      | Some (buffer, f') =>
          let s := DSappendcstr s buffer NPOS in
          c ← DSget_at s (size_wrap (DSlength s - 1));
          if c =? NL then Ret (s, f') else append_from_file_loop fuel' f' s
      end
  end.

Definition append_from_file (f : FILE) (s : STRING_T)
  : outcome (STRING_T * FILE) :=
  append_from_file_loop (S (length f)) f s.

Definition blanks : list Z := [chr " "; 9; 12; 11; 13].

(** The two [for] loops of [catread] that read a number at [z]: the
    number and the position of the first character that is no digit. *)
Fixpoint read_id (fuel : nat) (s : STRING_T) (z : Z) (id : Z)
  : outcome (Z * Z) :=
  match fuel with
  | O => Fault OutOfFuel
  | S fuel' =>
      c ← DSget_at s z;
      if isdigit c then
        read_id fuel' s (z + 1) (wrap_int (id * 10 + (c - chr "0")))
      else Ret (id, z)
  end.

(** The local variables of [catread] that live across its loop; [cat] is
    the null pointer until the first message is stored. *)
Record catread_state : Type := mk_catread_state {
  rd_f : FILE;
  rd_s : STRING_T;
  rd_t : STRING_T;
  rd_cat : option _CAT_CATALOG_T;
  rd_catmsg : _CAT_MESSAGE_T
}.

(** One turn of the [while] loop of [catread], after the line was read
    into [s]. *)
Definition catread_line (f : FILE) (s t : STRING_T)
    (cat : option _CAT_CATALOG_T) (catmsg : _CAT_MESSAGE_T)
  : outcome catread_state :=
  let s := DSresize s (size_wrap (DSlength s - 1)) 0 in
  s ← (if 0 <? DSlength s then
         let z := DSfind_first_not_of s blanks 0 in
         s ← DSremove s 0 z;
         let z := DSfind_last_not_of s blanks in
         Ret (DSresize s (size_wrap (z + 1)) 0)
       else Ret s);
  last ← (if 0 <? DSlength s then DSget_at s (size_wrap (DSlength s - 1))
          else Ret NUL);
  if (0 <? DSlength s) && (last =? chr "\") then
    Ret (mk_catread_state f (DSresize s (size_wrap (DSlength s - 1)) 0)
           t cat catmsg)
  else
    first ← (if 0 <? DSlength s then DSget_at s 0 else Ret NUL);
    if (0 <? DSlength s) && isdigit first then
      '(sid, z) ← read_id (S (length s)) s 0 0;
      let z := z + 1 in
      '(mid, z) ← read_id (S (length s)) s z 0;
      let z := z + 1 in
      s ← DSremove s 0 z;
      t ← transform_string s;
      let catmsg := mk_message sid mid (DSassign t 0 NPOS) in
      let cat := match cat with
                 | None => mk_catalog 0 _CATMSG_create
                 | Some cat => cat
                 end in
      let cat := mk_catalog (is_opened cat) (_CATMSG_append (msgs cat) catmsg) in
      Ret (mk_catread_state f (DSresize s 0 0) t (Some cat) catmsg)
    else
      Ret (mk_catread_state f (DSresize s 0 0) t cat catmsg).

(** The [while] loop of [catread].  Every turn cuts at least one character
    from what is left of the file and of the pending line together. *)
Fixpoint catread_loop (fuel : nat) (st : catread_state)
  : outcome catread_state :=
  match fuel with
  | O => Fault OutOfFuel
  | S fuel' =>
      '(s, f) ← append_from_file (rd_f st) (rd_s st);
      if 0 <? DSlength s then
        st ← catread_line f s (rd_t st) (rd_cat st) (rd_catmsg st);
        catread_loop fuel' st
      else Ret (mk_catread_state f s (rd_t st) (rd_cat st) (rd_catmsg st))
  end.

(** [catread] from the [fopen] that succeeded on: the catalogue read from
    the contents of the file.  [cat] is still null when no line held a
    message, and [cat->msgs] is read for [qsort] all the same. *)
Definition catread_file (contents : FILE) : outcome _CAT_CATALOG_T :=
  st ← catread_loop (S (length contents))
         (mk_catread_state contents DScreate DScreate None (mk_message 0 0 []));
  match rd_cat st with
  | None => Fault NullDereference
  | Some cat => Ret (mk_catalog (is_opened cat) (qsort catmsg_cmp (msgs cat)))
  end.

(** ** The process: registry, errno, files and environment *)

(** The state of the process that the catalogue functions read and write:
    the registry [theCatalogues] (null until the first catalogue is
    installed), [errno], the static [keymsg] of [catgets], and the names
    given to [fopen] so far, oldest first. *)
Record World : Type := mk_world {
  theCatalogues : option _CATCAT_ARRAY_T;
  errno : Z;
  keymsg : Z * Z;
  fopen_trace : list (list Z)
}.

Definition set_catalogues (cats : _CATCAT_ARRAY_T) (w : World) : World :=
  mk_world (Some cats) (errno w) (keymsg w) (fopen_trace w).
Definition set_errno (e : Z) (w : World) : World :=
  mk_world (theCatalogues w) e (keymsg w) (fopen_trace w).
Definition set_keymsg (k : Z * Z) (w : World) : World :=
  mk_world (theCatalogues w) (errno w) k (fopen_trace w).
Definition log_fopen (name : list Z) (w : World) : World :=
  mk_world (theCatalogues w) (errno w) (keymsg w) (fopen_trace w ++ [name]).

(** What [fopen (name, "r")] finds: no stream and a value for [errno], or
    the contents of the file. *)
Inductive fopen_result : Type :=
| NoFile (e : Z)
| File (contents : list Z).

(** The two character arrays the locale is read from in [catopen]: the
    one [lang] points to once the environment was looked up, and the
    literal [NLS_DEFAULT_LANG] it is set to when no codeset is given. *)
Inductive char_array : Type := LocaleName | DefaultLang.

#[global] Instance char_array_eq_dec : EqDecision char_array.
Proof. solve_decision. Defined.

Record pointer : Type := mk_pointer {
  base : char_array;
  offset : nat
}.

Section Process.

(** [NL_CAT_LOCALE] of nl_types.h (absent) and the error numbers of
    <errno.h>; [ENOMSG] is [None] where <errno.h> does not define it. *)
Variable NL_CAT_LOCALE : Z.
Variable EBADF : Z.
Variable ENOMSG : option Z.

(** The environment and the file system of the process. *)
Variable getenv : list Z -> option (list Z).
Variable fopen : list Z -> fopen_result.

(** What [u >= sep] yields for two pointers into different arrays, which
    C leaves open. *)
Variable cross_array_ge : bool.

Definition ptr_ge (p q : pointer) : bool :=
  if bool_decide (base p = base q) then (offset q <=? offset p)%nat
  else cross_array_ge.

(** [catread name]: null (here [None]) when the file cannot be opened. *)
Definition catread (name : list Z) (w : World)
  : outcome (option _CAT_CATALOG_T * World) :=
  let w := log_fopen name w in
  match fopen name with
  | NoFile e => Ret (None, set_errno e w)
  | File contents => cat ← catread_file contents; Ret (Some cat, w)
  end.

(** The [for] loop of [install_catalog] over the slots from [i] on: the
    first index that is the length or whose slot is not opened. *)
Fixpoint first_closed (slots : _CATCAT_ARRAY_T) (i : nat) : nat :=
  match slots with
  | [] => i
  | cat :: slots' =>
      if is_opened cat =? 0 then i else first_closed slots' (S i)
  end.

Definition install_catalog (cat : _CAT_CATALOG_T) (w : World)
  : outcome (Z * World) :=
  let cat := mk_catalog 1 (msgs cat) in
  match theCatalogues w with
  | None => Ret (0, set_catalogues (_CATCAT_append [] cat) w)
  | Some cats =>
      let i := first_closed cats 0 in
      cats ← _CATCAT_put_at cats i cat;
      Ret (Z.of_nat i, set_catalogues cats w)
  end.

Definition NLS_DEFAULT_PATH : list Z :=
  lit "/usr/share/nls/%L/%N.cat;/usr/share/nls/%l.%c/%N.cat;/usr/share/nls/%l/%N.cat".
Definition NLS_DEFAULT_LANG : list Z := lit "C".

(** The locale [catopen] starts from: what [lang] points to once [LC_ALL],
    [LC_MESSAGES] and [LANG] were looked up. *)
Definition catopen_lang (oflag : Z) : list Z :=
  let lang : option (list Z) := None in
  let lang :=
    if negb (Z.land oflag NL_CAT_LOCALE =? 0) then
      match getenv (lit "LC_ALL") with
      | None => getenv (lit "LC_MESSAGES")
      | Some l => Some l
      end
    else lang in
  let lang :=
    match lang with
    | None => getenv (lit "LANG")
    | Some l => Some l
    end in
  match lang with
  | None => NLS_DEFAULT_LANG
  | Some l => if bool_decide (l = lit "POSIX") then NLS_DEFAULT_LANG else l
  end.

(** The locale as [catopen] splits it: the array [lang] pointed to first
    ([lc_name], which [sep] and [dot] point into), the string [lang] ends
    up at, and the offsets of [sep] and [dot], if not null. *)
Record locale : Type := mk_locale {
  lc_name : list Z;
  lc_lang : pointer;
  lc_sep : option nat;
  lc_dot : option nat
}.

Definition split_locale (lang : list Z) : locale :=
  let sep := strchr lang (chr "_") in
  let dot := strrchr lang (chr ".") in
  let dot :=
    match dot, sep with
    | Some d, Some p => if (d <? p)%nat then None else dot
    | _, _ => dot
    end in
  match dot with
  | None => mk_locale lang (mk_pointer DefaultLang 0) sep dot
  | Some _ => mk_locale lang (mk_pointer LocaleName 0) sep dot
  end.

(** The characters of the array a pointer points into, from it on. *)
Definition chars_at (lc : locale) (p : pointer) : list Z :=
  match base p with
  | LocaleName => drop (offset p) (lc_name lc)
  | DefaultLang => drop (offset p) NLS_DEFAULT_LANG
  end.

Definition below (o : option nat) (u : pointer) : bool :=
  match o with
  | Some k => ptr_ge u (mk_pointer LocaleName k)
  | None => false
  end.

(** The loop of [%l]: [chars] are the characters from [u] on. *)
Fixpoint language_part (lc : locale) (chars : list Z) (u : pointer)
    (tmppath : STRING_T) : STRING_T :=
  match chars with
  | [] => tmppath
  | c :: chars' =>
      let tmppath := DSappendchar tmppath c 1 in
      let u := mk_pointer (base u) (S (offset u)) in
      if below (lc_sep lc) u then tmppath
      else if below (lc_dot lc) u then tmppath
      else language_part lc chars' u tmppath
  end.

(** The loop of [%t]. *)
Fixpoint territory_part (lc : locale) (chars : list Z) (u : pointer)
    (tmppath : STRING_T) : STRING_T :=
  match chars with
  | [] => tmppath
  | c :: chars' =>
      let tmppath := DSappendchar tmppath c 1 in
      let u := mk_pointer (base u) (S (offset u)) in
      if below (lc_dot lc) u then tmppath
      else territory_part lc chars' u tmppath
  end.

(** The [switch] on the character behind a [%]. *)
Definition conversion (lc : locale) (name : list Z) (c : Z)
    (tmppath : STRING_T) : STRING_T :=
  if c =? chr "L" then
    DSappendcstr tmppath (chars_at lc (lc_lang lc)) NPOS
  else if c =? chr "N" then DSappendcstr tmppath name NPOS
  else if c =? chr "l" then
    language_part lc (chars_at lc (lc_lang lc)) (lc_lang lc) tmppath
  else if c =? chr "t" then
    match lc_sep lc with
    | None => tmppath
    | Some k =>
        let u := mk_pointer LocaleName (S k) in
        territory_part lc (chars_at lc u) u tmppath
    end
  else if c =? chr "c" then
    match lc_dot lc with
    | None => tmppath
    | Some k =>
        DSappendcstr tmppath (chars_at lc (mk_pointer LocaleName (S k))) NPOS
    end
  else DSappendchar tmppath c 1.

(** The inner [while] loop of [catopen]: one segment of the template is
    expanded into [tmppath]; [s] is left at the [;] or at the end.  A [%]
    at the very end of the template takes [s] beyond the terminating NUL. *)
Fixpoint expand_segment (lc : locale) (name : list Z) (s : list Z)
    (tmppath : STRING_T) : outcome (STRING_T * list Z) :=
  match s with
  | [] => Ret (tmppath, s)
  | c :: s' =>
      if c =? chr ";" then Ret (tmppath, s)
      else if c =? chr "%" then
        match s' with
        | [] => Fault OutOfBounds
        | d :: s'' => expand_segment lc name s'' (conversion lc name d tmppath)
        end
      else expand_segment lc name s' (DSappendchar tmppath c 1)
  end.

(** The [do ... while] loop of [catopen].  Every turn that does not
    return takes the [;] it stopped at, so the length of the template
    bounds the turns. *)
Fixpoint catopen_loop (fuel : nat) (lc : locale) (name : list Z)
    (s : list Z) (tmppath : STRING_T) (w : World) : outcome (Z * World) :=
  match fuel with
  | O => Fault OutOfFuel
  | S fuel' =>
      '(tmppath, s) ← expand_segment lc name s tmppath;
      '(cat, w) ← catread (DScstr tmppath) w;
      match cat with
      | Some cat => install_catalog cat w
      | None =>
          let s := match s with [] => s | _ :: s' => s' end in
          tmppath ← DSremove tmppath 0 NPOS;
          match s with
          | [] => Ret (-1, w)
          | _ :: _ => catopen_loop fuel' lc name s tmppath w
          end
      end
  end.

(** [catopen] from the template and the locale on. *)
Definition catopen_search (nlspath lang name : list Z) (w : World)
  : outcome (Z * World) :=
  catopen_loop (S (length nlspath)) (split_locale lang) name nlspath
    DScreate w.

(** [catopen name oflag]; a null [name] is [None]. *)
Definition catopen (name : option (list Z)) (oflag : Z) (w : World)
  : outcome (Z * World) :=
  match name with
  | None => Ret (-1, w)
  | Some [] => Ret (-1, w)
  | Some name =>
      if bool_decide (is_Some (strpbrk name (lit "\/:"))) then
        '(cat, w) ← catread name w;
        match cat with
        | Some cat => install_catalog cat w
        | None => Ret (-1, w)
        end
      else
        let nlspath :=
          match getenv (lit "NLSPATH") with
          | None => NLS_DEFAULT_PATH
          | Some p => p
          end in
        catopen_search nlspath (catopen_lang oflag) name w
  end.

(** The test [catgets] and [catclose] start with: the slot of [catd], if
    the registry exists, [catd] is below its length and the slot is
    opened.  The comparison is unsigned, so that a negative [catd] is
    above every length. *)
Definition open_slot (catd : Z) (w : World) : option (nat * _CAT_CATALOG_T) :=
  match theCatalogues w with
  | None => None
  | Some cats =>
      if (catd <? 0) || (Z.of_nat (length cats) <=? catd) then None
      else
        match cats !! Z.to_nat catd with
        | Some cat =>
            if is_opened cat =? 0 then None else Some (Z.to_nat catd, cat)
        | None => None
        end
  end.

(** [catgets catd set_id msg_id s]: the string returned and the process
    after the call. *)
Definition catgets (catd : Z) (set_id msg_id : Z) (s : list Z) (w : World)
  : list Z * World :=
  match open_slot catd w with
  | None => (s, set_errno EBADF w)
  | Some (_, cat) =>
      let w := set_keymsg (set_id, msg_id) w in
      match bsearch catmsg_cmp (mk_message set_id msg_id []) (msgs cat) with
      | None =>
          (s, match ENOMSG with Some e => set_errno e w | None => w end)
      | Some m => (DScstr (msg m), w)
      end
  end.

(** [catclose catd]: 0 or -1, and the process after the call. *)
Definition catclose (catd : Z) (w : World) : Z * World :=
  match open_slot catd w with
  | None => (-1, set_errno EBADF w)
  | Some (i, cat) =>
      let cat := mk_catalog 0 (_CATMSG_resize (msgs cat) 0) in
      match theCatalogues w with
      | Some cats => (0, set_catalogues (<[i := cat]> cats) w)
      | None => (0, w)
      end
  end.

End Process.

(** ** Definitions the properties are stated with *)

(** A byte string: every character code is in 0..255. *)
Definition bytes (s : list Z) : Prop := Forall (fun c => 0 <= c < 256) s.

Definition isodigit (c : Z) : bool := (chr "0" <=? c) && (c <=? chr "7").

(** The states of the table. *)
Definition fsm_states : list Z := [0; 1; 2; 3; 4; 21; 22; 31].

(** The table read as a transition function: the action and the next
    state by state and class of the character.  [fsm_find_row] shows that
    the row search finds exactly this. *)
Definition fsm_row (state c : Z) : Z * Z :=
  if state =? 0 then
    if c =? chr "\" then (FSM_SUPPRESS, 1) else (FSM_OUTPUT, 0)
  else if state =? 1 then
    if c =? chr "b" then (8, 0)
    else if c =? chr "e" then (27, 0)
    else if c =? chr "f" then (12, 0)
    else if c =? chr "n" then (10, 0)
    else if c =? chr "r" then (13, 0)
    else if c =? chr "t" then (9, 0)
    else if c =? chr "v" then (11, 0)
    else if c =? chr "\" then (chr "\", 0)
    else if c =? chr "d" then (FSM_SUPPRESS, 2)
    else if isodigit c then (FSM_BASE8, 3)
    else if c =? chr "x" then (FSM_SUPPRESS, 4)
    else (FSM_OUTPUT, 0)
  else if state =? 2 then
    if isdigit c then (FSM_BASE10, 21) else (FSM_RETAIN, 0)
  else if state =? 3 then
    if isodigit c then (FSM_BASE8, 31) else (FSM_RETAIN, 0)
  else if state =? 4 then
    if isxdigit c then (FSM_BASE16, 4) else (FSM_RETAIN, 0)
  else if state =? 21 then
    if isdigit c then (FSM_BASE10, 22) else (FSM_RETAIN, 0)
  else if state =? 22 then
    if isdigit c then (FSM_BASE10_OUTPUT, 0) else (FSM_RETAIN, 0)
  else
    if isodigit c then (FSM_BASE8_OUTPUT, 0) else (FSM_RETAIN, 0).

Definition fsm_row_found (state c : Z) : bool :=
  match fsm_find fsm state c with
  | Ret (act, next) =>
      (act =? fst (fsm_row state c)) && (next =? snd (fsm_row state c))
  | Fault _ => false
  end.

(** The character codes 1..255. *)
Definition all_bytes : list Z := Z.of_nat <$> seq 1 255.

(** A step and a run of the loop seen from behind a prefix: the output
    gets [t0] in front and the position moves by [k]. *)
Definition shift_step (t0 : STRING_T) (k : Z)
    (r : outcome (Z * Z * STRING_T * Z)) : outcome (Z * Z * STRING_T * Z) :=
  '(next, accum, t, ip) ← r; Ret (next, accum, t0 ++ t, k + ip).

Definition shift_exit (t0 : STRING_T) (k : Z)
    (r : outcome (STRING_T * Z * Z * Z)) : outcome (STRING_T * Z * Z * Z) :=
  '(t, ip, state, accum) ← r; Ret (t0 ++ t, k + ip, state, accum).

(** The output of a run of the loop. *)
Definition exit_output (r : outcome (STRING_T * Z * Z * Z))
  : outcome STRING_T :=
  '(t, _, _, _) ← r; Ret t.

(** The byte [b] followed by the output [r]. *)
Definition emit (b : Z) (r : outcome STRING_T) : outcome STRING_T :=
  t ← r; Ret (b :: t).


(** The slots of the registry; there is none before the first install. *)
Definition slots (w : World) : list _CAT_CATALOG_T :=
  default [] (theCatalogues w).

Definition opened (cat : _CAT_CATALOG_T) : Prop := is_opened cat <> 0.

(** What [install_catalog] makes of the slots: the catalogue, marked
    opened, in the first closed slot, or in a new one behind the last. *)
Definition installed (cat : _CAT_CATALOG_T) (sl : list _CAT_CATALOG_T)
  : list _CAT_CATALOG_T :=
  let i := first_closed sl 0 in
  if (i <? length sl)%nat then <[i := mk_catalog 1 (msgs cat)]> sl
  else sl ++ [mk_catalog 1 (msgs cat)].

(** The outcome [o] is not the bound of a loop of the model run out. *)
Definition in_time {A} (o : outcome A) : Prop := o <> Fault OutOfFuel.

(** A catalogue that [catread] has allocated holds a message. *)
Definition holds_message (cat : option _CAT_CATALOG_T) : Prop :=
  match cat with
  | Some cat => msgs cat <> []
  | None => True
  end.

(** The catalogue file of the end-to-end example and its messages. *)
Definition hello_world : list Z :=
  lit "1 1 Hello" ++ [NL] ++ lit "2 3 World" ++ [NL].

Definition hello_world_msgs : list _CAT_MESSAGE_T :=
  [mk_message 1 1 (lit "Hello"); mk_message 2 3 (lit "World")].

(** The locale of section 4.5 in the words of the specification: with the
    flag, [LC_ALL], then [LC_MESSAGES], then [LANG]; without it, [LANG];
    unset or "POSIX" is "C". *)
Definition spec_locale (flag_set : bool)
    (lc_all lc_messages lang : option (list Z)) : list Z :=
  let chosen :=
    if flag_set then
      match lc_all, lc_messages with
      | Some l, _ => Some l
      | None, Some l => Some l
      | None, None => lang
      end
    else lang in
  match chosen with
  | None => lit "C"
  | Some l => if bool_decide (l = lit "POSIX") then lit "C" else l
  end.

(** A locale has a codeset when it has a [.] and its last [.] is not
    before its first [_]. *)
Definition has_codeset (lang : list Z) : bool :=
  match strrchr lang (chr "."), strchr lang (chr "_") with
  | Some d, Some p => negb (d <? p)%nat
  | Some _, None => true
  | None, _ => false
  end.

(** The template of the path expansion example. *)
Definition example_template : list Z := lit "/x/%L/%N.cat;/y/%l/%N.cat".

(** Processes to run the examples in: no catalogue installed yet; a file
    system without files, and one with two catalogues; an environment
    whose locale has no codeset. *)
Definition empty_world : World := mk_world None 0 (0, 0) [].

Definition no_files (name : list Z) : fopen_result := NoFile 2.

Definition two_catalogues (name : list Z) : fopen_result :=
  if bool_decide (name = lit "./a.cat") then File hello_world
  else if bool_decide (name = lit "./b.cat") then File hello_world
  else NoFile 2.

Definition no_environment (name : list Z) : option (list Z) := None.

Definition env_fr_FR (name : list Z) : option (list Z) :=
  if bool_decide (name = lit "LANG") then Some (lit "fr_FR")
  else if bool_decide (name = lit "NLSPATH") then Some (lit "/x/%L/%N.cat")
  else None.

(** The processes the examples end in: after a search that found no
    file, and after the first catalogue was opened, closed, and the second
    one opened. *)
Definition world_after_failure : World :=
  mk_world None 2 (0, 0)
    [lit "/usr/share/nls/C/prog.cat"; lit "/usr/share/nls/C./prog.cat";
     lit "/usr/share/nls/C/prog.cat"].

Definition world_a_open : World :=
  mk_world (Some [mk_catalog 1 hello_world_msgs]) 0 (0, 0) [lit "./a.cat"].
Definition world_a_closed : World :=
  mk_world (Some [mk_catalog 0 []]) 0 (0, 0) [lit "./a.cat"].
Definition world_b_open : World :=
  mk_world (Some [mk_catalog 1 hello_world_msgs]) 0 (0, 0)
    [lit "./a.cat"; lit "./b.cat"].

(** The order of the keys: by [set_id], then by [msg_id]. *)
Definition key_lt (a b : _CAT_MESSAGE_T) : Prop :=
  set_id a < set_id b \/ (set_id a = set_id b /\ msg_id a < msg_id b).

Definition same_key (a b : _CAT_MESSAGE_T) : Prop :=
  set_id a = set_id b /\ msg_id a = msg_id b.

(** [a] may stand before [b] in a sorted table. *)
Definition key_le (a b : _CAT_MESSAGE_T) : Prop := catmsg_cmp a b <= 0.

Definition has_key (sid mid : Z) (m : _CAT_MESSAGE_T) : Prop :=
  set_id m = sid /\ msg_id m = mid.

(** The descriptor [catd] is valid: it is the index of an opened slot. *)
Definition valid (catd : Z) (w : World) : Prop :=
  0 <= catd
  /\ exists cat, slots w !! Z.to_nat catd = Some cat /\ is_opened cat <> 0.

(** Every slot of the registry holds its messages in the order of the
    keys. *)
Definition registry_sorted (w : World) : Prop :=
  forall cat, cat ∈ slots w -> StronglySorted key_le (msgs cat).

(** A catalogue that [catread] has allocated is not marked opened. *)
Definition not_opened (cat : option _CAT_CATALOG_T) : Prop :=
  match cat with
  | Some cat => is_opened cat = 0
  | None => True
  end.

(** The character a backslash and [c] stand for, when [c] starts no
    numeric escape: the rows of state 1 of the table. *)
Definition escape_char (c : Z) : Z :=
  if c =? chr "b" then 8
  else if c =? chr "e" then 27
  else if c =? chr "f" then 12
  else if c =? chr "n" then 10
  else if c =? chr "r" then 13
  else if c =? chr "t" then 9
  else if c =? chr "v" then 11
  else if c =? chr "\" then chr "\"
  else c.

(** The value of a hexadecimal digit and of a run of them. *)
Definition hex_digit (c : Z) : Z :=
  if isdigit c then c - chr "0"
  else if (chr "a" <=? c) && (c <=? chr "f") then c - chr "a" + 10
  else c - chr "A" + 10.

Definition hex_value (hs : list Z) : Z :=
  fold_left (fun a h => 16 * a + hex_digit h) hs 0.

(** [accum] after the hexadecimal digits [hs] were read into it. *)
Definition hex_accum (accum : Z) (hs : list Z) : Z :=
  fold_left (fun a h => wrap_int (Z.shiftl a 4 + hex_digit h)) hs accum.


(** The number the decimal digits [ds] write. *)
Definition decimal (ds : list Z) : Z :=
  fold_left (fun a d => 10 * a + (d - chr "0")) ds 0.

(** A line without the blanks at its start, at its end, and at both. *)
Fixpoint ltrim (s : list Z) : list Z :=
  match s with
  | [] => []
  | c :: s' => if in_set blanks c then ltrim s' else s
  end.

Fixpoint rtrim (s : list Z) : list Z :=
  match s with
  | [] => []
  | c :: s' =>
      match rtrim s' with
      | [] => if in_set blanks c then [] else [c]
      | r => c :: r
      end
  end.

Definition trimmed (s : list Z) : list Z := rtrim (ltrim s).

(** The catalogue [catread] goes on with when it has stored the message
    [m]: allocated at the first message, not marked opened. *)
Definition with_message (cat : option _CAT_CATALOG_T) (m : _CAT_MESSAGE_T)
  : _CAT_CATALOG_T :=
  match cat with
  | None => mk_catalog 0 [m]
  | Some cat => mk_catalog (is_opened cat) (msgs cat ++ [m])
  end.

(** The state of the loop of [catread] with the stream [f]. *)
Definition with_file (f : list Z) (st : catread_state) : catread_state :=
  mk_catread_state f (rd_s st) (rd_t st) (rd_cat st) (rd_catmsg st).

(** The catalogue the loop of [catread] ends with. *)
Definition loop_cat (r : outcome catread_state)
  : outcome (option _CAT_CATALOG_T) :=
  st ← r; Ret (rd_cat st).

(** How two runs of [append_from_file] compare, on a stream that ends in
    [c] and on the same stream with a newline in the place of [c]: the
    same line and streams that differ as before, or lines that differ in
    the last character at the end of the stream, or no difference. *)
Definition rel_append (c : Z) (r1 r2 : outcome (list Z * list Z)) : Prop :=
  (exists s g, r1 = Ret (s, g ++ [c]) /\ r2 = Ret (s, g ++ [NL]))
  \/ (exists y, r1 = Ret (y ++ [c], []) /\ r2 = Ret (y ++ [NL], []))
  \/ r1 = r2.

(** What [transform_string] returns, as a function. *)
Definition transformed (s : list Z) : list Z :=
  match transform_string s with
  | Ret t => t
  | Fault _ => []
  end.

(** An entry of a catalogue file: the digits of the set, a separator,
    the digits of the message, a separator and the text. *)
Record entry : Type := mk_entry {
  e_set : list Z;
  e_sep1 : Z;
  e_msg : list Z;
  e_sep2 : Z;
  e_text : list Z
}.

Definition entry_line (e : entry) : list Z :=
  e_set e ++ e_sep1 e :: e_msg e ++ e_sep2 e :: e_text e.

Definition entry_message (e : entry) : _CAT_MESSAGE_T :=
  mk_message (decimal (e_set e)) (decimal (e_msg e)) (transformed (e_text e)).

(** An entry that [catread] reads as written: numbers that fit an [int],
    separators that are no digits, a line of bytes without newline and
    NUL that ends in neither a blank nor a backslash. *)
Definition well_formed (e : entry) : Prop :=
  e_set e <> []
  /\ Forall (fun d => isdigit d = true) (e_set e)
  /\ Forall (fun d => isdigit d = true) (e_msg e)
  /\ isdigit (e_sep1 e) = false /\ isdigit (e_sep2 e) = false
  /\ decimal (e_set e) < 2 ^ 31 /\ decimal (e_msg e) < 2 ^ 31
  /\ bytes (entry_line e) /\ (NL ∉ entry_line e) /\ (NUL ∉ entry_line e)
  /\ (forall c, last (entry_line e) = Some c ->
        in_set blanks c = false /\ c <> chr "\")
  /\ Z.of_nat (length (entry_line e)) < NPOS.

(** The file that holds the entries, a line each. *)
Fixpoint catalogue_file (es : list entry) : list Z :=
  match es with
  | [] => []
  | e :: es' => entry_line e ++ NL :: catalogue_file es'
  end.

(** The catalogue after the entries [es] were stored. *)
Definition with_entries (cat : option _CAT_CATALOG_T) (es : list entry)
  : option _CAT_CATALOG_T :=
  fold_left (fun cat e => Some (with_message cat (entry_message e))) es cat.

(** [strrchr] as the source writes it: for NUL the end of the string;
    otherwise [strchr] again and again, each time from behind the match
    before, until it finds nothing more.  [off] is the offset of [s] in
    the string and [last] the match before. *)
Fixpoint strrchr_loop (fuel : nat) (s : list Z) (off : nat) (c : Z)
    (last : option nat) : outcome (option nat) :=
  match fuel with
  | O => Fault OutOfFuel
  | S fuel' =>
      match strchr (drop off s) c with
      | Some k => strrchr_loop fuel' s (off + k + 1) c (Some (off + k)%nat)
      | None => Ret last
      end
  end.

Definition strrchr_source (s : list Z) (c : Z) : outcome (option nat) :=
  if c =? NUL then Ret (strchr s c)
  else strrchr_loop (S (length s)) s 0 c None.

(** A template put together from its segments, with [;] between them. *)
Fixpoint join_path (segs : list (list Z)) : list Z :=
  match segs with
  | [] => []
  | [seg] => seg
  | seg :: segs' => seg ++ chr ";" :: join_path segs'
  end.

(** The search for a catalogue written as a recursion over the list of
    the candidates: they are tried in their order and the first that can
    be read is installed. *)
Fixpoint search_files (fopen : list Z -> fopen_result)
    (candidates : list (list Z)) (w : World) : outcome (Z * World) :=
  match candidates with
  | [] => Ret (-1, w)
  | path :: candidates' =>
      '(cat, w) ← catread fopen path w;
      match cat with
      | Some cat => install_catalog cat w
      | None => search_files fopen candidates' w
      end
  end.

(** ** The word-at-a-time [strchr] *)

(** The memory from the address of the string on is a list of bytes; a
    read beyond it is out of bounds. *)
Definition byte_at (mem : list Z) (o : nat) : outcome Z :=
  match mem !! o with
  | Some b => Ret b
  | None => Fault OutOfBounds
  end.

(** The number that bytes write, the first one lowest. *)
Fixpoint le_combine (bs : list Z) : Z :=
  match bs with
  | [] => 0
  | b :: bs' => b + 256 * le_combine bs'
  end.

(** The words whose bytes are all 1 and all 128, as in [DETECTNULL]. *)
Definition lows (n : nat) : Z := le_combine (replicate n 1).
Definition highs (n : nat) : Z := le_combine (replicate n 128).

Section WordSearch.

(** [sizeof (unsigned long)], 4 or 8 by the [#if] of the source; whether
    [ALIGN] is defined; the byte order of the machine. *)
Variable ULONG_BYTES : nat.
Variable ALIGN : bool.
Variable big_endian : bool.

Definition ULONG_BITS : Z := 8 * Z.of_nat ULONG_BYTES.

(** The arithmetic of [unsigned long] wraps around. *)
Definition ulong (z : Z) : Z := z mod 2 ^ ULONG_BITS.

Definition UNALIGNED (X : Z) : Z :=
  if ALIGN then Z.land X (Z.of_nat ULONG_BYTES - 1) else 0.

Definition DETECTNULL (X : Z) : Z :=
  if (ULONG_BYTES =? 4)%nat then
    Z.land (Z.land (ulong (X - 0x01010101)) (ulong (Z.lnot X))) 0x80808080
  else
    Z.land (Z.land (ulong (X - 0x0101010101010101)) (ulong (Z.lnot X)))
      0x8080808080808080.

Definition DETECTCHAR (X MASK : Z) : Z := DETECTNULL (Z.lxor X MASK).

(** [*ps] for [ps] at the offset [o]. *)
Definition word_at (mem : list Z) (o : nat) : outcome Z :=
  let bs := take ULONG_BYTES (drop o mem) in
  if (length bs =? ULONG_BYTES)%nat then
    Ret (le_combine (if big_endian then reverse bs else bs))
  else Fault OutOfBounds.

(** The [for] loop that fills [mask] with copies of [pc]. *)
Fixpoint mask_loop (i : nat) (mask pc : Z) : Z :=
  match i with
  | O => mask
  | S i' =>
      mask_loop i'
        (ulong (Z.shiftl mask 8
                + Z.land (to_char pc) (Z.lnot (Z.shiftl (Z.lnot 0) 8))))
        pc
  end.

(** The loops of [strchr] for a character other than NUL: up to an
    aligned address (a return from inside the loop is [inl]), then over
    the words, then over the bytes. *)
Fixpoint align_loop (fuel : nat) (mem : list Z) (addr : Z) (o : nat) (pc : Z)
  : outcome (option nat + nat) :=
  match fuel with
  | O => Fault OutOfFuel
  | S fuel' =>
      if UNALIGNED (addr + Z.of_nat o) =? 0 then Ret (inr o)
      else
        b ← byte_at mem o;
        if (b =? NUL) || (b =? pc) then
          Ret (inl (if b =? NUL then None else Some o))
        else align_loop fuel' mem addr (S o) pc
  end.

Fixpoint word_loop (fuel : nat) (mem : list Z) (o : nat) (mask : Z)
  : outcome nat :=
  match fuel with
  | O => Fault OutOfFuel
  | S fuel' =>
      X ← word_at mem o;
      if (DETECTNULL X =? 0) && (DETECTCHAR X mask =? 0) then
        word_loop fuel' mem (o + ULONG_BYTES) mask
      else Ret o
  end.

Fixpoint byte_loop (fuel : nat) (mem : list Z) (o : nat) (pc : Z)
  : outcome nat :=
  match fuel with
  | O => Fault OutOfFuel
  | S fuel' =>
      b ← byte_at mem o;
      if negb (b =? NUL) && negb (b =? pc) then byte_loop fuel' mem (S o) pc
      else Ret o
  end.

(** The loops of the special case for NUL. *)
Fixpoint align_loop_nul (fuel : nat) (mem : list Z) (addr : Z) (o : nat)
  : outcome (option nat + nat) :=
  match fuel with
  | O => Fault OutOfFuel
  | S fuel' =>
      if UNALIGNED (addr + Z.of_nat o) =? 0 then Ret (inr o)
      else
        b ← byte_at mem o;
        if b =? NUL then Ret (inl (Some o))
        else align_loop_nul fuel' mem addr (S o)
  end.

Fixpoint word_loop_nul (fuel : nat) (mem : list Z) (o : nat) : outcome nat :=
  match fuel with
  | O => Fault OutOfFuel
  | S fuel' =>
      X ← word_at mem o;
      if DETECTNULL X =? 0 then word_loop_nul fuel' mem (o + ULONG_BYTES)
      else Ret o
  end.

Fixpoint byte_loop_nul (fuel : nat) (mem : list Z) (o : nat) : outcome nat :=
  match fuel with
  | O => Fault OutOfFuel
  | S fuel' =>
      b ← byte_at mem o;
      if negb (b =? NUL) then byte_loop_nul fuel' mem (S o) else Ret o
  end.

(** [strchr (s, c)] without [OPTIMIZED_FOR_SIZE]: [mem] is the memory
    from [s] on and [addr] the address of [s]; the result is the offset
    of the character found, or null. *)
Definition strchr_words (mem : list Z) (addr : Z) (c : Z)
  : outcome (option nat) :=
  let pc := to_char c in
  let fuel := S (length mem) in
  if c =? NUL then
    r ← align_loop_nul fuel mem addr 0;
    match r with
    | inl found => Ret found
    | inr o =>
        o ← word_loop_nul fuel mem o;
        o ← byte_loop_nul fuel mem o;
        Ret (Some o)
    end
  else
    r ← align_loop fuel mem addr 0 pc;
    match r with
    | inl found => Ret found
    | inr o =>
        let mask := mask_loop ULONG_BYTES 0 pc in
        o ← word_loop fuel mem o mask;
        o ← byte_loop fuel mem o pc;
        b ← byte_at mem o;
        Ret (if b =? pc then Some o else None)
    end.

End WordSearch.

(** The offset [k] is where a byte search for [pc] from the start of
    [mem] stops: at the first byte that is NUL or [pc]. *)
Definition first_stop (mem : list Z) (pc : Z) (k : nat) : Prop :=
  (exists b, mem !! k = Some b /\ (b = NUL \/ b = pc))
  /\ forall j b, (j < k)%nat -> mem !! j = Some b -> b <> NUL /\ b <> pc.

(** The process after both catalogues of the example were opened. *)
Definition world_ab_open : World :=
  mk_world (Some [mk_catalog 1 hello_world_msgs; mk_catalog 1 hello_world_msgs])
    0 (0, 0) [lit "./a.cat"; lit "./b.cat"].

(** The entries of the catalogue file of the end-to-end example. *)
Definition hello_world_entries : list entry :=
  [mk_entry (lit "1") (chr " ") (lit "1") (chr " ") (lit "Hello");
   mk_entry (lit "2") (chr " ") (lit "3") (chr " ") (lit "World")].

(** Environments whose template is a literal path, and a path with a
    [%] at its end. *)
Definition env_literal (name : list Z) : option (list Z) :=
  if bool_decide (name = lit "NLSPATH") then Some (lit "messages.cat")
  else None.

Definition env_percent (name : list Z) : option (list Z) :=
  if bool_decide (name = lit "NLSPATH") then Some (lit "messages.cat%")
  else None.

(** * Properties *)

(** ** The escape transformer *)

Lemma all_bytes_elem c : 0 < c < 256 -> c ∈ all_bytes.
Proof.
  intros Hc. unfold all_bytes. apply list_elem_of_fmap. exists (Z.to_nat c).
  split; [lia|]. apply elem_of_seq. lia.
Qed.

Lemma fsm_table_checked :
  forallb (fun st => forallb (fsm_row_found st) all_bytes) fsm_states = true.
Proof. vm_compute. reflexivity. Qed.

Lemma fsm_find_row st c :
  st ∈ fsm_states -> 0 < c < 256 -> fsm_find fsm st c = Ret (fsm_row st c).
Proof.
  intros Hst Hc.
  pose proof fsm_table_checked as H.
  rewrite forallb_forall in H. 
  apply list_elem_of_In in Hst. specialize (H _ Hst).
  rewrite forallb_forall in H.
  specialize (H c). 
  assert (Hin : In c all_bytes) by (apply list_elem_of_In, all_bytes_elem, Hc).
  specialize (H Hin). unfold fsm_row_found in H.
  destruct (fsm_find fsm st c) as [[act next]|]; [|discriminate].
  apply andb_true_iff in H as [H1 H2].
  apply Z.eqb_eq in H1, H2. destruct (fsm_row st c); simpl in *; congruence.
Qed.

Lemma isxdigit_hexits c :
  isxdigit c = true -> is_Some (strchr hexits (tolower c)).
Proof.
  unfold isxdigit, isdigit. intros H.
  assert (Hr : 48 <= c <= 57 \/ 97 <= c <= 102 \/ 65 <= c <= 70).
  { change (chr "0") with 48 in H. change (chr "9") with 57 in H.
    change (chr "a") with 97 in H. change (chr "f") with 102 in H.
    change (chr "A") with 65 in H. change (chr "F") with 70 in H. lia. }
  assert (Hc : c ∈ [48;49;50;51;52;53;54;55;56;57;97;98;99;100;101;102;65;66;67;68;69;70]).
  { apply list_elem_of_In. simpl. lia. }
  clear -Hc. 
  repeat (apply elem_of_cons in Hc as [->|Hc]; [vm_compute; eauto|]).
  inversion Hc.
Qed.

Ltac solve_in := repeat first [apply list_elem_of_here | apply list_elem_of_further].

Ltac split_states H :=
  repeat (apply elem_of_cons in H as [->|H]); [..|inversion H].

Lemma fsm_action_known act c accum t ip :
  fsm_action act c accum t ip =
    if act =? FSM_OUTPUT then Ret (accum, DSappendchar t c 1, ip + 1)
    else if act =? FSM_SUPPRESS then Ret (0, t, ip + 1)
    else if act =? FSM_BASE10 then
      Ret (wrap_int (accum * 10 + (c - chr "0")), t, ip + 1)
    else if act =? FSM_BASE8 then
      Ret (wrap_int (Z.shiftl accum 3 + (c - chr "0")), t, ip + 1)
    else if act =? FSM_BASE16 then
      match strchr hexits (tolower c) with
      | Some k => Ret (wrap_int (Z.shiftl accum 4 + Z.of_nat k), t, ip + 1)
      | None => Fault OutOfBounds
      end
    else if act =? FSM_BASE10_OUTPUT then
      Ret (0, DSappendchar t (wrap_int (accum * 10 + (c - chr "0"))) 1, ip + 1)
    else if act =? FSM_BASE8_OUTPUT then
      Ret (0, DSappendchar t (wrap_int (Z.shiftl accum 3 + (c - chr "0"))) 1,
           ip + 1)
    else if act =? FSM_RETAIN then Ret (0, DSappendchar t accum 1, ip)
    else Ret (accum, DSappendchar t act 1, ip + 1).
Proof. reflexivity. Qed.

Lemma fsm_step_progress st accum c t ip :
  st ∈ fsm_states -> 0 < c < 256 ->
  exists next accum' t',
    next ∈ fsm_states /\
    (fsm_step st accum c t ip = Ret (next, accum', t', ip + 1)
     \/ (fsm_step st accum c t ip = Ret (next, accum', t', ip)
         /\ next = 0 /\ st <> 0)).
Proof.
  intros Hst Hc. unfold fsm_step. rewrite fsm_find_row by assumption.
    split_states Hst; unfold fsm_row; simpl Z.eqb; cbv iota;
    repeat match goal with
    | |- context [if ?b then _ else _] =>
        lazymatch b with
        | context [if _ then _ else _] => fail
        | _ => destruct b eqn:?
        end
    end.
  all: try (simpl; eexists _, _, _; split; [|left; reflexivity]; solve_in).
  all: try (simpl; eexists _, _, _; split; [|right; split; [reflexivity|split;[reflexivity|lia]]]; solve_in).
  destruct (isxdigit_hexits c) as [k Hk]; [assumption|].
  unfold fsm_action. simpl Z.eqb. cbv iota. rewrite Hk. simpl.
  eexists _, _, _; split; [|left; reflexivity]. solve_in.
Qed.

Lemma fsm_step_shift st accum c t0 t k ip :
  fsm_step st accum c (t0 ++ t) (k + ip)
  = shift_step t0 k (fsm_step st accum c t ip).
Proof.
  unfold fsm_step, shift_step.
  destruct (fsm_find fsm st c) as [[act next]|]; [|reflexivity]. simpl.
  unfold fsm_action, DSappendchar.
  repeat match goal with
  | |- context [if ?b then _ else _] => destruct b
  | |- context [match ?o with Some _ => _ | None => _ end] => destruct o
  end; simpl; rewrite <- ?app_assoc, ?Z.add_assoc; reflexivity.
Qed.

Lemma fsm_step_ip st accum c t ip next accum' t' ip' :
  fsm_step st accum c t ip = Ret (next, accum', t', ip') ->
  ip' = ip \/ ip' = ip + 1.
Proof.
  unfold fsm_step.
  destruct (fsm_find fsm st c) as [[act nx]|]; [|discriminate]. simpl.
  unfold fsm_action.
  repeat match goal with
  | |- context [if ?b then _ else _] => destruct b
  | |- context [match ?o with Some _ => _ | None => _ end] => destruct o
  end; simpl; intros [= <- <- <- <-] || discriminate; auto.
Qed.

Lemma DSget_at_lookup (s : STRING_T) ip :
  0 <= ip ->
  DSget_at s ip = match s !! Z.to_nat ip with
                  | Some c => Ret c
                  | None => Fault RangeError
                  end.
Proof.
  intros Hip. unfold DSget_at, DSlength.
  destruct (s !! Z.to_nat ip) eqn:E.
  - apply lookup_lt_Some in E.
    replace ((0 <=? ip) && (ip <? Z.of_nat (length s))) with true; [done|].
    symmetry. apply andb_true_iff. split; [apply Z.leb_le|apply Z.ltb_lt]; lia.
  - by destruct (_ && _).
Qed.

Lemma transform_loop_shift fuel pre s t0 ip st accum t :
  0 <= ip ->
  transform_loop fuel (pre ++ s) (Z.of_nat (length pre) + ip) st accum (t0 ++ t)
  = shift_exit t0 (Z.of_nat (length pre)) (transform_loop fuel s ip st accum t).
Proof.
  revert ip st accum t. induction fuel as [|fuel IH]; intros ip st accum t Hip.
  { reflexivity. }
  simpl. unfold DSlength. rewrite length_app.
  destruct (ip <? Z.of_nat (length s)) eqn:Hlt.
  - replace (_ <? _) with true by (symmetry; apply Z.ltb_lt; apply Z.ltb_lt in Hlt; lia).
    rewrite !DSget_at_lookup by lia.
    replace (Z.to_nat (Z.of_nat (length pre) + ip)) with (length pre + Z.to_nat ip)%nat by lia.
    rewrite lookup_app_r by lia.
    replace (length pre + Z.to_nat ip - length pre)%nat with (Z.to_nat ip) by lia.
    destruct (s !! Z.to_nat ip) as [c|]; [|reflexivity]. simpl.
    destruct (c =? NUL); [reflexivity|].
    rewrite fsm_step_shift. unfold shift_step.
    destruct (fsm_step st accum c t ip) as [[[[nx ac] t'] ip']|] eqn:Hstep; [|reflexivity].
    simpl. apply IH. apply fsm_step_ip in Hstep. lia.
  - replace (_ <? _) with false by (symmetry; apply Z.ltb_ge; apply Z.ltb_ge in Hlt; lia).
    reflexivity.
Qed.

Lemma transform_loop_more_fuel n m s ip st accum t r :
  transform_loop n s ip st accum t = Ret r -> (n <= m)%nat ->
  transform_loop m s ip st accum t = Ret r.
Proof.
  revert m ip st accum t. induction n as [|n IH]; intros m ip st accum t H Hle.
  { discriminate. }
  destruct m as [|m]; [lia|]. simpl in *.
  destruct (ip <? DSlength s); [|assumption].
  destruct (DSget_at s ip) as [c|]; [|discriminate]. simpl in *.
  destruct (c =? NUL); [assumption|].
  destruct (fsm_step st accum c t ip) as [[[[nx ac] t'] ip']|]; [|discriminate].
  simpl in *. apply IH; [assumption|lia].
Qed.

Lemma bytes_lookup s i c : bytes s -> s !! i = Some c -> 0 <= c < 256.
Proof. intros Hs Hi. exact (proj1 (Forall_lookup _ s) Hs i c Hi). Qed.

Lemma transform_loop_step fuel s ip c st accum t :
  0 <= ip -> s !! Z.to_nat ip = Some c -> c <> NUL ->
  transform_loop (S fuel) s ip st accum t
  = '(st, accum, t, ip) ← fsm_step st accum c t ip;
    transform_loop fuel s ip st accum t.
Proof.
  intros Hip Hc Hnz. simpl.
  pose proof (lookup_lt_Some _ _ _ Hc) as Hlt.
  replace (ip <? DSlength s) with true
    by (symmetry; apply Z.ltb_lt; unfold DSlength; lia).
  rewrite DSget_at_lookup, Hc by assumption. simpl.
  replace (c =? NUL) with false by (symmetry; apply Z.eqb_neq; assumption).
  reflexivity.
Qed.

Lemma transform_loop_total fuel s ip (st accum : Z) t :
  bytes s -> st ∈ fsm_states -> 0 <= ip <= DSlength s ->
  (2 * (length s - Z.to_nat ip) + (if (st =? 0)%Z then 0 else 1) < fuel)%nat ->
  exists t' ip' st' accum',
    transform_loop fuel s ip st accum t = Ret (t', ip', st', accum')
    /\ ip <= ip' <= DSlength s
    /\ (ip' = DSlength s \/ s !! Z.to_nat ip' = Some NUL).
Proof.
  intros Hs. revert ip st accum t.
  induction fuel as [|fuel IH]; intros ip st accum t Hst Hip Hfuel; [lia|].
  simpl. unfold DSlength in *.
  destruct (ip <? Z.of_nat (length s)) eqn:Hlt.
  - apply Z.ltb_lt in Hlt. rewrite DSget_at_lookup by lia.
    destruct (s !! Z.to_nat ip) as [c|] eqn:Hc.
    2:{ apply lookup_ge_None in Hc. lia. }
    simpl. destruct (c =? NUL) eqn:Hnul.
    { apply Z.eqb_eq in Hnul. subst c. eexists _, _, _, _.
      split; [reflexivity|]. split; [lia|]. right. assumption. }
    apply Z.eqb_neq in Hnul. pose proof (bytes_lookup _ _ _ Hs Hc) as Hb.
    destruct (fsm_step_progress st accum c t ip Hst) as (nx & ac & t' & Hnx & Hstep);
      [unfold NUL in *; lia|].
    destruct Hstep as [Hstep|(Hstep & -> & Hne)]; rewrite Hstep; simpl.
    + destruct (IH (ip + 1) nx ac t' Hnx) as (t2 & ip2 & st2 & ac2 & Hr & Hle & Hend);
        [lia| destruct (nx =? 0), (st =? 0); lia |].
      eexists _, _, _, _. split; [exact Hr|]. split; [lia|exact Hend].
    + destruct (IH ip 0 ac t' Hnx) as (t2 & ip2 & st2 & ac2 & Hr & Hle & Hend);
        [lia| |].
      { replace (st =? 0) with false in Hfuel by (symmetry; apply Z.eqb_neq; assumption).
        simpl. lia. }
      eexists _, _, _, _. split; [exact Hr|]. split; [lia|exact Hend].
  - apply Z.ltb_ge in Hlt. eexists _, _, _, _. split; [reflexivity|].
    split; [lia|]. left. lia.
Qed.

Lemma state0_accum n s ip a a' t :
  bytes s -> 0 <= ip ->
  exit_output (transform_loop n s ip 0 a t)
  = exit_output (transform_loop n s ip 0 a' t).
Proof.
  intros Hs. revert ip a a' t. induction n as [|n IH]; intros ip a a' t Hip.
  { reflexivity. }
  simpl. destruct (ip <? DSlength s); [|reflexivity].
  rewrite DSget_at_lookup by lia.
  destruct (s !! Z.to_nat ip) as [c|] eqn:Hc; [|reflexivity]. simpl.
  destruct (c =? NUL) eqn:Hnul; [reflexivity|].
  apply Z.eqb_neq in Hnul. pose proof (bytes_lookup _ _ _ Hs Hc) as Hb.
  unfold fsm_step. rewrite fsm_find_row by (unfold NUL in *; solve_in || lia).
  unfold fsm_row. simpl Z.eqb. cbv iota.
  destruct (c =? chr "\"); simpl; [reflexivity|].
  apply IH. lia.
Qed.

Lemma transform_string_exit s :
  transform_string s
  = exit_output (transform_loop (transform_fuel s) s 0 0 0 []).
Proof. reflexivity. Qed.

Lemma transform_loop_restart n pre s a t0 :
  bytes s -> (transform_fuel s <= n)%nat ->
  exit_output (transform_loop n (pre ++ s) (Z.of_nat (length pre)) 0 a t0)
  = (t ← transform_string s; Ret (t0 ++ t)).
Proof.
  intros Hs Hn.
  pose proof (transform_loop_shift n pre s t0 0 0 a [] (Z.le_refl 0)) as Hsh.
  rewrite Z.add_0_r, app_nil_r in Hsh. rewrite Hsh. clear Hsh.
  destruct (transform_loop_total (transform_fuel s) s 0 0 0 [] Hs)
    as (t' & ip' & st' & ac' & Hr & _); [solve_in|unfold DSlength; lia| |].
  { unfold transform_fuel. simpl. lia. }
  rewrite transform_string_exit, Hr.
  apply transform_loop_more_fuel with (m := n) in Hr; [|assumption].
  pose proof (state0_accum n s 0 a 0 [] Hs (Z.le_refl 0)) as Ha.
  rewrite Hr in Ha.
  destruct (transform_loop n s 0 0 a []) as [[[[t2 ip2] st2] ac2]|]; simpl in *.
  - injection Ha as ->. reflexivity.
  - discriminate.
Qed.

Lemma isdigit_range c : isdigit c = true <-> 48 <= c <= 57.
Proof. unfold isdigit. change (chr "0") with 48. change (chr "9") with 57. lia. Qed.

Lemma isodigit_range c : isodigit c = true <-> 48 <= c <= 55.
Proof. unfold isodigit. change (chr "0") with 48. change (chr "7") with 55. lia. Qed.

Lemma fsm_step_retain st accum c t ip :
  0 < c < 256 ->
  (st ∈ [2; 21; 22] /\ isdigit c = false)
  \/ (st ∈ [3; 31] /\ isodigit c = false)
  \/ (st = 4 /\ isxdigit c = false) ->
  fsm_step st accum c t ip = Ret (0, 0, DSappendchar t accum 1, ip).
Proof.
  intros Hc H. unfold fsm_step.
  destruct H as [[Hst Hd]|[[Hst Hd]|[-> Hd]]]; [split_states Hst|split_states Hst|];
    (rewrite fsm_find_row by (solve_in || lia));
    unfold fsm_row; simpl Z.eqb; cbv iota; rewrite Hd; reflexivity.
Qed.

Lemma fsm_step_base10 st accum c t ip :
  st ∈ [2; 21; 22] -> isdigit c = true ->
  fsm_step st accum c t ip =
    if st =? 22 then
      Ret (0, 0, DSappendchar t (wrap_int (accum * 10 + (c - 48))) 1, ip + 1)
    else
      Ret (if st =? 2 then 21 else 22, wrap_int (accum * 10 + (c - 48)), t,
           ip + 1).
Proof.
  intros Hst Hd. pose proof (proj1 (isdigit_range c) Hd) as Hc. unfold fsm_step.
  split_states Hst; (rewrite fsm_find_row by (solve_in || lia));
    unfold fsm_row; simpl Z.eqb; cbv iota; rewrite Hd; reflexivity.
Qed.

Lemma fsm_step_base8 st accum c t ip :
  st ∈ [1; 3; 31] -> isodigit c = true ->
  fsm_step st accum c t ip =
    if st =? 31 then
      Ret (0, 0, DSappendchar t (wrap_int (Z.shiftl accum 3 + (c - 48))) 1,
           ip + 1)
    else
      Ret (if st =? 1 then 3 else 31, wrap_int (Z.shiftl accum 3 + (c - 48)),
           t, ip + 1).
Proof.
  intros Hst Hd. pose proof (proj1 (isodigit_range c) Hd) as Hc. unfold fsm_step.
  split_states Hst; (rewrite fsm_find_row by (solve_in || lia));
    unfold fsm_row; simpl Z.eqb; cbv iota; rewrite ?Hd;
    repeat match goal with
    | |- context [c =? ?k] =>
        replace (c =? k) with false
          by (symmetry; apply Z.eqb_neq; vm_compute; lia)
    end; reflexivity.
Qed.

Lemma wrap_int_small z : - 2 ^ 31 <= z < 2 ^ 31 -> wrap_int z = z.
Proof.
  intros Hz. unfold wrap_int, INT_BITS. change (32 - 1) with 31.
  rewrite Z.mod_small; lia.
Qed.

Ltac unwrap :=
  repeat match goal with
  | |- context [wrap_int ?z] =>
      lazymatch z with
      | context [wrap_int _] => fail
      | _ => rewrite (wrap_int_small z) by lia
      end
  end.

Ltac loop_step :=
  match goal with
  | |- context [transform_loop (S ?n) ?s ?ip ?st ?a ?t] =>
      rewrite (transform_loop_step n s ip _ st a t)
        by first [ lia | reflexivity | unfold NUL; lia | vm_compute; congruence ]
  end.

Ltac eval_step :=
  match goal with
  | |- context [fsm_step ?st ?a ?c ?t ?ip] =>
      let v := eval vm_compute in (fsm_step st a c t ip) in
      change (fsm_step st a c t ip) with v; cbn [mbind outcome_bind]
  end.

Ltac restart_after pre :=
  match goal with
  | Hs : bytes ?s |- exit_output (transform_loop ?n _ _ _ ?a ?t0) = _ =>
      let Hf := fresh "Hf" in
      assert (Hf : (transform_fuel s <= n)%nat)
        by (unfold transform_fuel; simpl length; lia);
      exact (transform_loop_restart n pre s a t0 Hs Hf)
  end.


Lemma to_char_small z : 0 <= z < 256 -> to_char z = z.
Proof. intros Hz. unfold to_char. apply Z.mod_small. lia. Qed.

Lemma DSappendchar_one t z : DSappendchar t z 1 = t ++ [to_char z].
Proof. reflexivity. Qed.

Ltac sym_step lem :=
  loop_step; rewrite lem by (solve_in || assumption || auto);
  simpl Z.eqb; cbv iota; cbn [mbind outcome_bind].

Ltac retain_step :=
  loop_step; rewrite fsm_step_retain by (try lia; auto 7 using list_elem_of_here, list_elem_of_further);
  cbn [mbind outcome_bind].

Ltac open_fuel k :=
  rewrite transform_string_exit;
  match goal with
  | |- context [transform_fuel ?s] =>
      let n := fresh "n" in
      evar (n : nat);
      replace (transform_fuel s) with (k + n)%nat
        by (unfold transform_fuel; simpl length; subst n; 
            instantiate (1 := (transform_fuel s - k)%nat); unfold transform_fuel; simpl length; lia);
      subst n
  end;
  cbn [Nat.add lit list_ascii_of_string map app].

Lemma decimal_escape_1 d1 c rest :
  isdigit d1 = true -> 0 < c < 256 -> isdigit c = false -> bytes rest ->
  transform_string (lit "\d" ++ d1 :: c :: rest)
  = emit (d1 - 48) (transform_string (c :: rest)).
Proof.
  intros H1 Hc Hd Hrest.
  assert (Hs : bytes (c :: rest)) by (constructor; [lia|assumption]).
  apply isdigit_range in H1 as R1.
  open_fuel 4%nat.
  do 2 (loop_step; eval_step).
  sym_step fsm_step_base10. retain_step.
  rewrite DSappendchar_one, wrap_int_small, to_char_small by lia.
  replace (0 * 10 + (d1 - 48)) with (d1 - 48) by lia.
  restart_after (lit "\d" ++ [d1]).
Qed.

Lemma decimal_escape_2 d1 d2 c rest :
  isdigit d1 = true -> isdigit d2 = true ->
  0 < c < 256 -> isdigit c = false -> bytes rest ->
  transform_string (lit "\d" ++ d1 :: d2 :: c :: rest)
  = emit (10 * (d1 - 48) + (d2 - 48)) (transform_string (c :: rest)).
Proof.
  intros H1 H2 Hc Hd Hrest.
  assert (Hs : bytes (c :: rest)) by (constructor; [lia|assumption]).
  apply isdigit_range in H1 as R1. apply isdigit_range in H2 as R2.
  open_fuel 5%nat.
  do 2 (loop_step; eval_step).
  do 2 sym_step fsm_step_base10. retain_step.
  rewrite DSappendchar_one.
  unwrap.
  rewrite to_char_small by lia.
  replace ((0 * 10 + (d1 - 48)) * 10 + (d2 - 48))
    with (10 * (d1 - 48) + (d2 - 48)) by lia.
  restart_after (lit "\d" ++ [d1; d2]).
Qed.

Lemma decimal_escape_3 d1 d2 d3 rest :
  isdigit d1 = true -> isdigit d2 = true -> isdigit d3 = true -> bytes rest ->
  transform_string (lit "\d" ++ d1 :: d2 :: d3 :: rest)
  = emit (to_char (100 * (d1 - 48) + 10 * (d2 - 48) + (d3 - 48)))
      (transform_string rest).
Proof.
  intros H1 H2 H3 Hrest.
  apply isdigit_range in H1 as R1. apply isdigit_range in H2 as R2.
  apply isdigit_range in H3 as R3.
  open_fuel 5%nat.
  do 2 (loop_step; eval_step).
  do 3 sym_step fsm_step_base10.
  rewrite DSappendchar_one.
  unwrap.
  replace (((0 * 10 + (d1 - 48)) * 10 + (d2 - 48)) * 10 + (d3 - 48))
    with (100 * (d1 - 48) + 10 * (d2 - 48) + (d3 - 48)) by lia.
  restart_after (lit "\d" ++ [d1; d2; d3]).
Qed.

Lemma octal_escape_1 o1 c rest :
  isodigit o1 = true -> 0 < c < 256 -> isodigit c = false -> bytes rest ->
  transform_string (lit "\" ++ o1 :: c :: rest)
  = emit (o1 - 48) (transform_string (c :: rest)).
Proof.
  intros H1 Hc Hd Hrest.
  assert (Hs : bytes (c :: rest)) by (constructor; [lia|assumption]).
  apply isodigit_range in H1 as R1.
  open_fuel 3%nat.
  loop_step; eval_step.
  sym_step fsm_step_base8. retain_step.
  rewrite DSappendchar_one, Z.shiftl_mul_pow2, wrap_int_small, to_char_small by lia.
  replace (0 * 2 ^ 3 + (o1 - 48)) with (o1 - 48) by lia.
  restart_after (lit "\" ++ [o1]).
Qed.

Lemma octal_escape_2 o1 o2 c rest :
  isodigit o1 = true -> isodigit o2 = true ->
  0 < c < 256 -> isodigit c = false -> bytes rest ->
  transform_string (lit "\" ++ o1 :: o2 :: c :: rest)
  = emit (8 * (o1 - 48) + (o2 - 48)) (transform_string (c :: rest)).
Proof.
  intros H1 H2 Hc Hd Hrest.
  assert (Hs : bytes (c :: rest)) by (constructor; [lia|assumption]).
  apply isodigit_range in H1 as R1. apply isodigit_range in H2 as R2.
  open_fuel 4%nat.
  loop_step; eval_step.
  do 2 sym_step fsm_step_base8. retain_step.
  rewrite DSappendchar_one, !Z.shiftl_mul_pow2 by lia.
  unwrap.
  rewrite to_char_small by lia.
  replace ((0 * 2 ^ 3 + (o1 - 48)) * 2 ^ 3 + (o2 - 48))
    with (8 * (o1 - 48) + (o2 - 48)) by lia.
  restart_after (lit "\" ++ [o1; o2]).
Qed.

Lemma octal_escape_3 o1 o2 o3 rest :
  isodigit o1 = true -> isodigit o2 = true -> isodigit o3 = true ->
  bytes rest ->
  transform_string (lit "\" ++ o1 :: o2 :: o3 :: rest)
  = emit (to_char (64 * (o1 - 48) + 8 * (o2 - 48) + (o3 - 48)))
      (transform_string rest).
Proof.
  intros H1 H2 H3 Hrest.
  apply isodigit_range in H1 as R1. apply isodigit_range in H2 as R2.
  apply isodigit_range in H3 as R3.
  open_fuel 4%nat.
  loop_step; eval_step.
  do 3 sym_step fsm_step_base8.
  rewrite DSappendchar_one, !Z.shiftl_mul_pow2 by lia.
  unwrap.
  replace (((0 * 2 ^ 3 + (o1 - 48)) * 2 ^ 3 + (o2 - 48)) * 2 ^ 3 + (o3 - 48))
    with (64 * (o1 - 48) + 8 * (o2 - 48) + (o3 - 48)) by lia.
  restart_after (lit "\" ++ [o1; o2; o3]).
Qed.

(** The offset of a hexadecimal digit in [hexits] is its value. *)
Lemma hexits_digit c :
  isxdigit c = true ->
  exists k, strchr hexits (tolower c) = Some k /\ Z.of_nat k = hex_digit c.
Proof.
  unfold isxdigit, isdigit. intros H.
  assert (Hr : 48 <= c <= 57 \/ 97 <= c <= 102 \/ 65 <= c <= 70).
  { change (chr "0") with 48 in H. change (chr "9") with 57 in H.
    change (chr "a") with 97 in H. change (chr "f") with 102 in H.
    change (chr "A") with 65 in H. change (chr "F") with 70 in H. lia. }
  assert (Hc : c ∈ [48;49;50;51;52;53;54;55;56;57;97;98;99;100;101;102;65;66;67;68;69;70]).
  { apply list_elem_of_In. simpl. lia. }
  clear -Hc.
  repeat (apply elem_of_cons in Hc as [->|Hc];
          [vm_compute; eexists; split; reflexivity|]).
  inversion Hc.
Qed.

Lemma isxdigit_range c : isxdigit c = true -> 0 < c < 256.
Proof.
  unfold isxdigit, isdigit.
  change (chr "0") with 48. change (chr "9") with 57.
  change (chr "a") with 97. change (chr "f") with 102.
  change (chr "A") with 65. change (chr "F") with 70. lia.
Qed.

Lemma fsm_step_base16 accum c t ip :
  isxdigit c = true ->
  fsm_step 4 accum c t ip
  = Ret (4, wrap_int (Z.shiftl accum 4 + hex_digit c), t, ip + 1).
Proof.
  intros Hx. pose proof (isxdigit_range c Hx) as Hc.
  destruct (hexits_digit c Hx) as (k & Hk & Hv).
  unfold fsm_step. rewrite fsm_find_row by (solve_in || lia).
  unfold fsm_row. simpl Z.eqb. cbv iota. rewrite Hx.
  cbn [mbind outcome_bind]. unfold fsm_action. simpl Z.eqb. cbv iota.
  rewrite Hk, Hv. reflexivity.
Qed.

Lemma hex_run n pre hs tail a t :
  Forall (fun h => isxdigit h = true) hs ->
  transform_loop (length hs + n) (pre ++ hs ++ tail)
    (Z.of_nat (length pre)) 4 a t
  = transform_loop n (pre ++ hs ++ tail)
      (Z.of_nat (length pre + length hs)) 4 (hex_accum a hs) t.
Proof.
  intros Hhs. revert pre a.
  induction Hhs as [|h hs Hh Hhs IH]; intros pre a.
  { simpl. rewrite Nat.add_0_r. reflexivity. }
  pose proof (isxdigit_range h Hh) as Hr.
  cbn [length Nat.add].
  rewrite (transform_loop_step _ _ _ h).
  - rewrite fsm_step_base16 by exact Hh. cbn [mbind outcome_bind].
    replace (pre ++ (h :: hs) ++ tail) with ((pre ++ [h]) ++ hs ++ tail)
      by (rewrite <- app_assoc; reflexivity).
    replace (Z.of_nat (length pre) + 1) with (Z.of_nat (length (pre ++ [h])))
      by (rewrite length_app; simpl; lia).
    rewrite IH. rewrite length_app. simpl length.
    replace (length pre + 1 + length hs)%nat with (length pre + S (length hs))%nat
      by lia.
    reflexivity.
  - lia.
  - rewrite Nat2Z.id, lookup_app_r by lia.
    rewrite Nat.sub_diag. reflexivity.
  - unfold NUL. lia.
Qed.

Lemma transform_loop_nul fuel s1 s2 ip st accum t :
  0 <= ip <= DSlength s1 ->
  transform_loop fuel (s1 ++ NUL :: s2) ip st accum t
  = transform_loop fuel s1 ip st accum t.
Proof.
  revert ip st accum t. induction fuel as [|fuel IH]; intros ip st accum t Hip.
  { reflexivity. }
  cbn [transform_loop]. unfold DSlength in *. rewrite length_app. simpl length.
  replace (ip <? Z.of_nat (length s1 + S (length s2))) with true
    by (symmetry; apply Z.ltb_lt; lia).
  rewrite !DSget_at_lookup by lia.
  destruct (ip <? Z.of_nat (length s1)) eqn:Hlt.
  - apply Z.ltb_lt in Hlt. rewrite lookup_app_l by lia.
    destruct (s1 !! Z.to_nat ip) as [c|]; [|reflexivity].
    cbn [mbind outcome_bind]. destruct (c =? NUL); [reflexivity|].
    destruct (fsm_step st accum c t ip) as [[[[nx ac] t'] ip']|] eqn:Hstep;
      [|reflexivity].
    cbn [mbind outcome_bind]. apply IH. apply fsm_step_ip in Hstep. lia.
  - apply Z.ltb_ge in Hlt. rewrite lookup_app_r by lia.
    replace (Z.to_nat ip - length s1)%nat with 0%nat by lia. reflexivity.
Qed.









Lemma transform_string_nul s junk r :
  transform_loop (transform_fuel s) s 0 0 0 [] = Ret r ->
  transform_loop (transform_fuel (s ++ NUL :: junk)) (s ++ NUL :: junk) 0 0 0 []
  = Ret r.
Proof.
  intros Hr. rewrite transform_loop_nul by (unfold DSlength; lia).
  apply (transform_loop_more_fuel _ _ _ _ _ _ _ _ Hr).
  unfold transform_fuel. rewrite length_app. lia.
Qed.



(** C3, as amended.  A backslash and [d] start a decimal escape: up to
    three decimal digits are read in base 10; one or two digits are
    emitted as one byte by the first character that is no digit, which is
    read again in state 0, and three digits are emitted at once.  An octal
    digit right behind a backslash starts an octal escape, read in base 8
    in the same way, ended by a character that is no octal digit or by
    the third digit. *)
Theorem numeric_escape_runs (d1 d2 d3 o1 o2 o3 c k : Z) (rest : list Z) :
  bytes rest ->
  isdigit d1 = true -> isdigit d2 = true -> isdigit d3 = true ->
  isodigit o1 = true -> isodigit o2 = true -> isodigit o3 = true ->
  0 < c < 256 -> isdigit c = false ->
  0 < k < 256 -> isodigit k = false ->
  transform_string (lit "\d" ++ d1 :: c :: rest)
  = emit (d1 - 48) (transform_string (c :: rest))
  /\ transform_string (lit "\d" ++ d1 :: d2 :: c :: rest)
     = emit (10 * (d1 - 48) + (d2 - 48)) (transform_string (c :: rest))
  /\ transform_string (lit "\d" ++ d1 :: d2 :: d3 :: rest)
     = emit (to_char (100 * (d1 - 48) + 10 * (d2 - 48) + (d3 - 48)))
         (transform_string rest)
  /\ transform_string (lit "\" ++ o1 :: k :: rest)
     = emit (o1 - 48) (transform_string (k :: rest))
  /\ transform_string (lit "\" ++ o1 :: o2 :: k :: rest)
     = emit (8 * (o1 - 48) + (o2 - 48)) (transform_string (k :: rest))
  /\ transform_string (lit "\" ++ o1 :: o2 :: o3 :: rest)
     = emit (to_char (64 * (o1 - 48) + 8 * (o2 - 48) + (o3 - 48)))
         (transform_string rest).
Proof.
  intros Hrest D1 D2 D3 O1 O2 O3 Hc Hd Hk Ho.
  split; [apply decimal_escape_1; assumption|].
  split; [apply decimal_escape_2; assumption|].
  split; [apply decimal_escape_3; assumption|].
  split; [apply octal_escape_1; assumption|].
  split; [apply octal_escape_2; assumption|].
  apply octal_escape_3; assumption.
Qed.

(** C3, the claim as stated fails: the digits behind a backslash and [d]
    are read in base 10, so "\d10;" gives the byte 10, not 8, and the digit
    9 is taken. *)
Lemma backslash_d_is_decimal :
  transform_string (lit "\d10;") = Ret [10; chr ";"]
  /\ transform_string (lit "\d10;") <> Ret [8; chr ";"]
  /\ transform_string (lit "\d9;") = Ret [9; chr ";"].
Proof.
  repeat split; try (vm_compute; reflexivity).
  vm_compute. intros H. discriminate H.
Qed.

(** ** The registry *)

Lemma first_closed_bounds sl i :
  (i <= first_closed sl i <= i + length sl)%nat.
Proof.
  revert i. induction sl as [|cat sl IH]; intros i; simpl; [lia|].
  destruct (is_opened cat =? 0); [lia|]. specialize (IH (S i)). lia.
Qed.

Lemma first_closed_before sl i j cat :
  (j < first_closed sl i - i)%nat -> sl !! j = Some cat -> opened cat.
Proof.
  revert i j. induction sl as [|c sl IH]; intros i j Hj Hc; [done|].
  simpl in Hj. destruct (is_opened c =? 0) eqn:Ho; [lia|].
  destruct j as [|j]; simpl in Hc.
  - injection Hc as <-. apply Z.eqb_neq in Ho. exact Ho.
  - apply (IH (S i) j); [lia|assumption].
Qed.

Lemma first_closed_at sl i :
  (first_closed sl i - i < length sl)%nat ->
  exists cat, sl !! (first_closed sl i - i)%nat = Some cat /\ is_opened cat = 0.
Proof.
  revert i. induction sl as [|c sl IH]; intros i Hlt; simpl in *; [lia|].
  destruct (is_opened c =? 0) eqn:Ho.
  - replace (i - i)%nat with 0%nat by lia. exists c. split; [done|].
    apply Z.eqb_eq. exact Ho.
  - pose proof (first_closed_bounds sl (S i)).
    destruct (IH (S i)) as (cat & Hcat & Hz); [lia|].
    exists cat. split; [|exact Hz].
    replace (first_closed sl (S i) - i)%nat
      with (S (first_closed sl (S i) - S i)) by lia.
    exact Hcat.
Qed.

(** The first index from [i] on whose slot is closed is [i + k] when the
    [k] slots before are opened and slot [k] is closed or missing. *)
Lemma first_closed_unique sl i k :
  (forall j cat, (j < k)%nat -> sl !! j = Some cat -> opened cat) ->
  (k <= length sl)%nat ->
  (forall cat, sl !! k = Some cat -> is_opened cat = 0) ->
  first_closed sl i = (i + k)%nat.
Proof.
  revert i k. induction sl as [|c sl IH]; intros i k Hbefore Hlen Hat; simpl in *.
  { lia. }
  destruct k as [|k].
  - rewrite (Hat c eq_refl). simpl. lia.
  - pose proof (Hbefore 0%nat c ltac:(lia) eq_refl) as Hc. unfold opened in Hc.
    apply Z.eqb_neq in Hc. rewrite Hc.
    rewrite (IH (S i) k); [lia| |lia|].
    + intros j cat Hj Hl. apply (Hbefore (S j) cat); [lia|exact Hl].
    + intros cat Hl. apply Hat. exact Hl.
Qed.

(** ** The reader *)

Lemma catread_hello_world :
  catread_file hello_world = Ret (mk_catalog 0 hello_world_msgs).
Proof. vm_compute. reflexivity. Qed.

Lemma catread_line_holds f s t cat catmsg st :
  holds_message cat ->
  catread_line f s t cat catmsg = Ret st -> holds_message (rd_cat st).
Proof.
  intros Hcat. unfold catread_line.
  repeat match goal with
  | |- context [mbind _ ?m] =>
      let E := fresh "E" in destruct m eqn:E; simpl; [|discriminate]
  | |- context [if ?b then _ else _] => destruct b
  | |- context [let '(_, _) := ?p in _] => destruct p
  end;
  try (intros [= <-]; simpl; try exact Hcat;
       unfold _CATMSG_append; destruct (msgs _); discriminate).
Qed.

Lemma catread_loop_holds fuel st st' :
  holds_message (rd_cat st) ->
  catread_loop fuel st = Ret st' -> holds_message (rd_cat st').
Proof.
  revert st. induction fuel as [|fuel IH]; intros st Hst; simpl; [discriminate|].
  destruct (append_from_file (rd_f st) (rd_s st)) as [[s f]|]; simpl;
    [|discriminate].
  destruct (0 <? DSlength s).
  - destruct (catread_line f s (rd_t st) (rd_cat st) (rd_catmsg st))
      as [st1|] eqn:Hline; simpl; [|discriminate].
    apply IH. apply (catread_line_holds _ _ _ _ _ _ Hst Hline).
  - intros [= <-]. exact Hst.
Qed.

Lemma qsort_insert_cons {T} (cmp : T -> T -> Z) x a : qsort_insert cmp x a <> [].
Proof. destruct a; simpl; [discriminate|]. destruct (_ <=? _); discriminate. Qed.

Lemma qsort_nonempty {T} (cmp : T -> T -> Z) a : a <> [] -> qsort cmp a <> [].
Proof. destruct a; [congruence|]. intros _. apply qsort_insert_cons. Qed.

(** C8, where the code fails the claim.  [catread] on a file that can be
    opened and holds no message line, the empty file among them, reads
    [cat->msgs] through the null pointer: it neither returns an empty
    catalogue nor fails the open.  A catalogue that [catread] returns
    always holds a message. *)
Theorem catread_no_empty_catalogue :
  catread_file [] = Fault NullDereference
  /\ catread_file (lit "$ a comment" ++ [NL] ++ [NL]) = Fault NullDereference
  /\ (forall fopen name w,
        fopen name = File [] -> catread fopen name w = Fault NullDereference)
  /\ (forall contents cat,
        catread_file contents = Ret cat -> msgs cat <> []).
Proof.
  split; [vm_compute; reflexivity|]. split; [vm_compute; reflexivity|]. split.
  - intros fopen name w H. unfold catread. rewrite H. reflexivity.
  - intros contents cat. unfold catread_file.
    destruct (catread_loop _ _) as [st|] eqn:Hloop; simpl; [|discriminate].
    apply catread_loop_holds in Hloop; [|exact I].
    destruct (rd_cat st) as [c|]; [|discriminate].
    intros [= <-]. simpl. apply qsort_nonempty. exact Hloop.
Qed.

(** *** The bounds of the loops of the reader are never reached *)

Lemma fgets_chars_length n f :
  (length (fgets_chars n f).1 + length (fgets_chars n f).2 = length f)%nat
  /\ (0 < n -> f <> [] -> length (fgets_chars n f).2 < length f)%nat.
Proof.
  revert f. induction n as [|n IH]; intros f; simpl.
  { split; [reflexivity|lia]. }
  destruct f as [|c f]; simpl; [split; [reflexivity|congruence]|].
  destruct (c =? NL); simpl; [split; [reflexivity|lia]|].
  specialize (IH f). destruct (fgets_chars n f) as [b r]. simpl in *.
  split; [lia|]. intros _ _. lia.
Qed.

Lemma fgets_chars_bytes n f :
  bytes f -> bytes (fgets_chars n f).1 /\ bytes (fgets_chars n f).2.
Proof.
  revert f. induction n as [|n IH]; intros f Hf; simpl.
  { split; [constructor|exact Hf]. }
  destruct f as [|c f]; simpl; [split; constructor|].
  apply Forall_cons in Hf as [Hc Hf].
  destruct (c =? NL); simpl; [split; [constructor; [assumption|constructor]|assumption]|].
  specialize (IH f Hf). destruct (fgets_chars n f) as [b r]. simpl in *.
  destruct IH. split; [constructor|]; assumption.
Qed.

Lemma c_str_length b : (length (c_str b) <= length b)%nat.
Proof.
  induction b as [|c b IH]; simpl; [lia|]. destruct (c =? NUL); simpl; lia.
Qed.

Lemma c_str_bytes b : bytes b -> bytes (c_str b).
Proof.
  induction 1 as [|c b Hc Hb IH]; simpl; [constructor|].
  destruct (c =? NUL); constructor; assumption.
Qed.

Lemma bytes_take n s : bytes s -> bytes (take n s).
Proof. apply Forall_take. Qed.

Lemma bytes_drop n s : bytes s -> bytes (drop n s).
Proof. apply Forall_drop. Qed.

Lemma bytes_app s1 s2 : bytes s1 -> bytes s2 -> bytes (s1 ++ s2).
Proof. intros. apply Forall_app. split; assumption. Qed.

Lemma DSappendcstr_bytes s p n : bytes s -> bytes p -> bytes (DSappendcstr s p n).
Proof.
  intros Hs Hp. apply bytes_app; [assumption|]. apply bytes_take, c_str_bytes, Hp.
Qed.

Lemma DSappendcstr_length s p n :
  (length (DSappendcstr s p n) <= length s + length p)%nat.
Proof.
  unfold DSappendcstr. rewrite length_app, length_take.
  pose proof (c_str_length p). lia.
Qed.

Lemma to_char_byte z : 0 <= to_char z < 256.
Proof. unfold to_char. apply Z.mod_pos_bound. lia. Qed.

Lemma DSresize_bytes s n c : bytes s -> bytes (DSresize s n c).
Proof.
  intros Hs. apply bytes_app; [apply bytes_take, Hs|].
  apply Forall_replicate. apply to_char_byte.
Qed.

Lemma DSresize_length s n c : 0 <= n -> length (DSresize s n c) = Z.to_nat n.
Proof.
  intros Hn. unfold DSresize. rewrite length_app, length_take, length_replicate.
  lia.
Qed.

Lemma DSremove_bytes s p n s' : bytes s -> DSremove s p n = Ret s' -> bytes s'.
Proof.
  unfold DSremove. intros Hs. destruct (_ <? _); [discriminate|].
  intros [= <-]. apply bytes_app; [apply bytes_take|apply bytes_drop]; exact Hs.
Qed.

Lemma DSremove_length s n s' :
  DSremove s 0 n = Ret s' -> (length s' <= length s)%nat.
Proof.
  unfold DSremove. destruct (_ <? _); [discriminate|]. intros [= <-].
  simpl. rewrite ?length_app, ?length_take, ?length_drop. simpl. lia.
Qed.

Lemma size_wrap_le z : 0 <= z -> 0 <= size_wrap z <= z.
Proof.
  intros Hz. unfold size_wrap. split.
  - apply Z.mod_pos_bound. unfold SIZE_BITS. lia.
  - apply Z.mod_le; [assumption|unfold SIZE_BITS; lia].
Qed.

Lemma in_time_bind {A B} (m : outcome A) (k : A -> outcome B) :
  in_time m -> (forall a, m = Ret a -> in_time (k a)) -> in_time (m ≫= k).
Proof.
  intros Hm Hk. destruct m as [a|f]; simpl; [apply Hk; reflexivity|].
  intros [= ->]. apply Hm. reflexivity.
Qed.

Lemma bind_ret {A B} (m : outcome A) (k : A -> outcome B) b :
  m ≫= k = Ret b -> exists a, m = Ret a /\ k a = Ret b.
Proof. destruct m as [a|f]; simpl; [eauto|discriminate]. Qed.

Lemma in_time_ret {A} (a : A) : in_time (Ret a).
Proof. discriminate. Qed.

Lemma DSget_at_in_time s i : in_time (DSget_at s i).
Proof.
  unfold DSget_at. destruct (_ && _); [|discriminate].
  destruct (s !! Z.to_nat i); discriminate.
Qed.

Lemma DSremove_in_time s p n : in_time (DSremove s p n).
Proof. unfold DSremove. destruct (_ <? _); discriminate. Qed.

Lemma append_from_file_loop_in_time fuel f s :
  (length f < fuel)%nat -> in_time (append_from_file_loop fuel f s).
Proof.
  revert f s. induction fuel as [|fuel IH]; intros f s Hfuel; [lia|].
  simpl. unfold fgets. destruct f as [|c f]; [discriminate|].
  pose proof (fgets_chars_length (BUFSIZ - 1) (c :: f)) as [_ Hlt].
  destruct (fgets_chars (BUFSIZ - 1) (c :: f)) as [b r]. cbn [fst snd] in Hlt.
  apply in_time_bind; [apply DSget_at_in_time|]. intros x _.
  destruct (x =? NL); [discriminate|]. apply IH.
  assert (Hpos : (0 < BUFSIZ - 1)%nat) by (vm_compute; lia).
  specialize (Hlt Hpos ltac:(discriminate)). simpl length in *. lia.
Qed.

Lemma append_from_file_loop_ret fuel f s s' f' :
  bytes f -> bytes s ->
  append_from_file_loop fuel f s = Ret (s', f') ->
  bytes f' /\ bytes s' /\ (length s' + length f' <= length s + length f)%nat.
Proof.
  revert f s. induction fuel as [|fuel IH]; intros f s Hf Hs; [discriminate|].
  simpl. unfold fgets. destruct f as [|c f].
  { intros [= <- <-]. split; [assumption|]. split; [assumption|lia]. }
  pose proof (fgets_chars_length (BUFSIZ - 1) (c :: f)) as [Hlen _].
  pose proof (fgets_chars_bytes (BUFSIZ - 1) (c :: f) Hf) as [Hb Hr].
  destruct (fgets_chars (BUFSIZ - 1) (c :: f)) as [b r]. simpl in Hlen, Hb, Hr.
  pose proof (DSappendcstr_length s b NPOS) as Happ.
  pose proof (DSappendcstr_bytes s b NPOS Hs Hb) as Hsb.
  destruct (DSget_at _ _) as [x|]; simpl; [|discriminate].
  destruct (x =? NL).
  - intros [= <- <-]. split; [assumption|]. split; [assumption|]. simpl. lia.
  - intros H. apply IH in H; [|assumption|assumption].
    destruct H as (H1 & H2 & H3). split; [assumption|]. split; [assumption|].
    simpl. lia.
Qed.

Lemma read_id_in_time fuel s z id :
  0 <= z -> (length s - Z.to_nat z < fuel)%nat -> in_time (read_id fuel s z id).
Proof.
  revert z id. induction fuel as [|fuel IH]; intros z id Hz Hfuel; [lia|].
  simpl. unfold DSget_at, DSlength.
  destruct ((0 <=? z) && (z <? Z.of_nat (length s))) eqn:Hin; [|discriminate].
  apply andb_true_iff in Hin as [_ Hlt]. apply Z.ltb_lt in Hlt.
  destruct (s !! Z.to_nat z) as [c|]; simpl; [|discriminate].
  destruct (isdigit c); [|discriminate]. apply IH; lia.
Qed.

Lemma read_id_position fuel s z id id' z' :
  0 <= z -> read_id fuel s z id = Ret (id', z') -> z <= z'.
Proof.
  revert z id. induction fuel as [|fuel IH]; intros z id Hz; [discriminate|].
  simpl. destruct (DSget_at s z) as [c|]; simpl; [|discriminate].
  destruct (isdigit c).
  - intros H. apply IH in H; lia.
  - intros [= <- <-]. lia.
Qed.

Lemma transform_string_in_time s : bytes s -> in_time (transform_string s).
Proof.
  intros Hs.
  destruct (transform_loop_total (transform_fuel s) s 0 0 0 [] Hs)
    as (t & ip & st & ac & Hr & _).
  - solve_in.
  - unfold DSlength. lia.
  - unfold transform_fuel. simpl. lia.
  - rewrite transform_string_exit, Hr. discriminate.
Qed.

Lemma find_last_not_of_bound s set i k :
  find_last_not_of s set i = Some k -> (i <= k < i + length s)%nat.
Proof.
  revert i. induction s as [|c s IH]; intros i; simpl; [discriminate|].
  destruct (find_last_not_of s set (S i)) as [k'|] eqn:E.
  - intros [= <-]. apply IH in E. lia.
  - destruct (in_set set c); [discriminate|]. intros [= <-]. lia.
Qed.

Lemma DSfind_last_not_of_bound s set :
  0 <= size_wrap (DSfind_last_not_of s set + 1) <= DSlength s.
Proof.
  unfold DSfind_last_not_of, DSlength.
  destruct (find_last_not_of s set 0) as [k|] eqn:E.
  - apply find_last_not_of_bound in E.
    pose proof (size_wrap_le (Z.of_nat k + 1)). lia.
  - unfold NPOS, size_wrap. replace (2 ^ SIZE_BITS - 1 + 1) with (2 ^ SIZE_BITS) by lia.
    rewrite Z.mod_same by (unfold SIZE_BITS; lia). lia.
Qed.

(** A turn of the loop of [catread] keeps the stream and leaves a pending
    line shorter than the line it was given. *)
Lemma catread_line_ret f s t cat catmsg st :
  bytes s -> s <> [] ->
  catread_line f s t cat catmsg = Ret st ->
  rd_f st = f /\ bytes (rd_s st) /\ (length (rd_s st) < length s)%nat.
Proof.
  intros Hs Hne. unfold catread_line.
  assert (Hlen : (0 < length s)%nat) by (destruct s; simpl; [congruence|lia]).
  pose proof (size_wrap_le (DSlength s - 1) ltac:(unfold DSlength; lia)) as Hw.
  set (s1 := DSresize s (size_wrap (DSlength s - 1)) 0).
  assert (Hs1 : bytes s1) by (apply DSresize_bytes, Hs).
  assert (Hl1 : (length s1 < length s)%nat).
  { subst s1. rewrite DSresize_length by lia. unfold DSlength in *. lia. }
  clearbody s1.
  set (trim := if 0 <? DSlength s1 then _ else _).
  assert (Htrim : forall s2, trim = Ret s2 ->
            bytes s2 /\ (length s2 <= length s1)%nat).
  { subst trim. intros s2. destruct (0 <? DSlength s1).
    - destruct (DSremove s1 0 _) as [s1'|] eqn:Hrm; simpl; [|discriminate].
      intros [= <-].
      pose proof (DSremove_bytes _ _ _ _ Hs1 Hrm).
      pose proof (DSremove_length _ _ _ Hrm).
      pose proof (DSfind_last_not_of_bound s1' blanks) as Hb.
      split; [apply DSresize_bytes; assumption|].
      rewrite DSresize_length by lia. unfold DSlength in Hb. lia.
    - intros [= <-]. split; [assumption|lia]. }
  intros H. apply bind_ret in H as (s2 & Hs2eq & H).
  destruct (Htrim s2 Hs2eq) as [Hs2 Hl2]. clear Htrim Hs2eq.
  apply bind_ret in H as (last & _ & H).
  destruct ((0 <? DSlength s2) && (last =? chr "\")) eqn:Hcont.
  { injection H as <-. simpl. apply andb_true_iff in Hcont as [Hpos _].
    apply Z.ltb_lt in Hpos.
    pose proof (size_wrap_le (DSlength s2 - 1) ltac:(lia)) as Hw2.
    split; [reflexivity|]. split; [apply DSresize_bytes, Hs2|].
    rewrite DSresize_length by lia. unfold DSlength in *. lia. }
  apply bind_ret in H as (first & _ & H).
  destruct ((0 <? DSlength s2) && isdigit first).
  - apply bind_ret in H as ([sid z] & _ & H).
    apply bind_ret in H as ([mid z'] & _ & H).
    apply bind_ret in H as (s3 & _ & H).
    apply bind_ret in H as (t' & _ & H).
    injection H as <-. simpl. split; [reflexivity|]. split; [constructor|lia].
  - injection H as <-. simpl. split; [reflexivity|]. split; [constructor|lia].
Qed.

Lemma catread_line_in_time f s t cat catmsg :
  bytes s -> in_time (catread_line f s t cat catmsg).
Proof.
  intros Hs. unfold catread_line.
  set (s1 := DSresize s (size_wrap (DSlength s - 1)) 0).
  assert (Hs1 : bytes s1) by (apply DSresize_bytes, Hs). clearbody s1.
  apply in_time_bind.
  { destruct (0 <? DSlength s1); [|discriminate].
    apply in_time_bind; [apply DSremove_in_time|]. discriminate. }
  intros s2 Hs2.
  assert (Hb2 : bytes s2).
  { destruct (0 <? DSlength s1).
    - destruct (DSremove s1 0 _) as [s1'|] eqn:Hrm; simpl in Hs2; [|discriminate].
      injection Hs2 as <-. apply DSresize_bytes.
      apply (DSremove_bytes _ _ _ _ Hs1 Hrm).
    - injection Hs2 as <-. assumption. }
  apply in_time_bind.
  { destruct (0 <? DSlength s2); [apply DSget_at_in_time|discriminate]. }
  intros last _. destruct (_ && _); [discriminate|].
  apply in_time_bind.
  { destruct (0 <? DSlength s2); [apply DSget_at_in_time|discriminate]. }
  intros first _. destruct (_ && _); [|discriminate].
  apply in_time_bind; [apply read_id_in_time; lia|]. intros [sid z] Hz.
  apply read_id_position in Hz; [|lia].
  apply in_time_bind; [apply read_id_in_time; lia|]. intros [mid z'] _.
  apply in_time_bind; [apply DSremove_in_time|]. intros s3 Hs3.
  apply in_time_bind; [|discriminate].
  apply transform_string_in_time. apply (DSremove_bytes _ _ _ _ Hb2 Hs3).
Qed.

Lemma catread_loop_unfold fuel st :
  catread_loop (S fuel) st
  = '(s, f) ← append_from_file (rd_f st) (rd_s st);
    if 0 <? DSlength s then
      st ← catread_line f s (rd_t st) (rd_cat st) (rd_catmsg st);
      catread_loop fuel st
    else Ret (mk_catread_state f s (rd_t st) (rd_cat st) (rd_catmsg st)).
Proof. reflexivity. Qed.

Lemma catread_loop_in_time fuel st :
  bytes (rd_f st) -> bytes (rd_s st) ->
  (length (rd_f st) + length (rd_s st) < fuel)%nat ->
  in_time (catread_loop fuel st).
Proof.
  revert st. induction fuel as [|fuel IH]; intros st Hf Hs Hfuel; [lia|].
  rewrite catread_loop_unfold. apply in_time_bind.
  { unfold append_from_file. apply append_from_file_loop_in_time. lia. }
  intros [s f] Happ. unfold append_from_file in Happ.
  apply append_from_file_loop_ret in Happ as (Hf' & Hs' & Hlen); try assumption.
  destruct (0 <? DSlength s) eqn:Hpos; [|discriminate].
  apply in_time_bind; [apply catread_line_in_time; assumption|].
  intros st' Hline.
  apply catread_line_ret in Hline as (Hrf & Hrs & Hrl); [|assumption|].
  2:{ intros ->. discriminate Hpos. }
  apply IH; [rewrite Hrf; assumption|assumption|]. rewrite Hrf. lia.
Qed.

(** The bound on the turns of the loop of [catread] is never reached. *)
Lemma catread_file_in_time contents :
  bytes contents -> in_time (catread_file contents).
Proof.
  intros Hc. unfold catread_file. apply in_time_bind.
  - apply catread_loop_in_time; simpl; [assumption|constructor|lia].
  - intros st _. destruct (rd_cat st); discriminate.
Qed.

(** *** The bound of the binary search *)

Lemma bsearch_loop_fuel {T} n m (cmp : T -> T -> Z) key base l u :
  (u - l <= n)%nat -> (n <= m)%nat ->
  bsearch_loop n cmp key base l u = bsearch_loop m cmp key base l u.
Proof.
  revert m l u. induction n as [|n IH]; intros m l u Hn Hm.
  - destruct m as [|m]; [reflexivity|]. simpl.
    replace (l <? u)%nat with false by (symmetry; apply Nat.ltb_ge; lia).
    reflexivity.
  - destruct m as [|m]; [lia|]. cbn [bsearch_loop].
    destruct (l <? u)%nat eqn:Hlt; [|reflexivity]. apply Nat.ltb_lt in Hlt.
    assert (Hmid : (l <= (l + u) / 2 < u)%nat).
    { split; [apply Nat.div_le_lower_bound|apply Nat.Div0.div_lt_upper_bound]; lia. }
    set (idx := ((l + u) / 2)%nat) in *.
    destruct (base !! idx) as [p|]; [|reflexivity].
    destruct (cmp key p <? 0); [apply IH; lia|].
    destruct (0 <? cmp key p); [apply IH; lia|reflexivity].
Qed.

(** ** The locale *)

Lemma DSappendcstr_all s p : DSappendcstr s p NPOS = s ++ c_str p.
Proof.
  unfold DSappendcstr, clip. rewrite Z.leb_refl, Nat2Z.id, firstn_all.
  reflexivity.
Qed.

Lemma split_locale_lang lang :
  lc_lang (split_locale lang)
  = mk_pointer (if has_codeset lang then LocaleName else DefaultLang) 0.
Proof.
  unfold split_locale, has_codeset.
  destruct (strrchr lang (chr ".")) as [d|], (strchr lang (chr "_")) as [p|];
    try reflexivity.
  destruct (d <? p)%nat; reflexivity.
Qed.

Lemma split_locale_dot lang :
  has_codeset lang = false -> lc_dot (split_locale lang) = None.
Proof.
  unfold split_locale, has_codeset.
  destruct (strrchr lang (chr ".")) as [d|], (strchr lang (chr "_")) as [p|];
    try reflexivity; try discriminate.
  destruct (d <? p)%nat; [reflexivity|discriminate].
Qed.

Lemma split_locale_name lang : lc_name (split_locale lang) = lang.
Proof.
  unfold split_locale.
  destruct (strrchr lang (chr ".")) as [d|], (strchr lang (chr "_")) as [p|];
    try reflexivity.
  destruct (d <? p)%nat; reflexivity.
Qed.

(** ** The process *)

Section ProcessProperties.

Variable NL_CAT_LOCALE EBADF : Z.
Variable ENOMSG : option Z.
Variable getenv : list Z -> option (list Z).
Variable fopen : list Z -> fopen_result.
Variable cross_array_ge : bool.

Lemma install_catalog_slots cat w :
  install_catalog cat w
  = Ret (Z.of_nat (first_closed (slots w) 0),
         set_catalogues (installed cat (slots w)) w).
Proof.
  unfold install_catalog, slots, installed.
  destruct (theCatalogues w) as [cats|]; simpl; [|reflexivity].
  unfold _CATCAT_put_at.
  pose proof (first_closed_bounds cats 0) as Hb.
  destruct (first_closed cats 0 <? length cats)%nat eqn:Hlt; [reflexivity|].
  apply Nat.ltb_ge in Hlt.
  replace (first_closed cats 0 =? length cats)%nat with true
    by (symmetry; apply Nat.eqb_eq; lia).
  reflexivity.
Qed.

Lemma installed_lookup cat sl :
  installed cat sl !! first_closed sl 0 = Some (mk_catalog 1 (msgs cat)).
Proof.
  unfold installed. pose proof (first_closed_bounds sl 0) as Hb.
  destruct (first_closed sl 0 <? length sl)%nat eqn:Hlt.
  - apply Nat.ltb_lt in Hlt. apply list_lookup_insert_eq. exact Hlt.
  - apply Nat.ltb_ge in Hlt. rewrite lookup_app_r by lia.
    replace (first_closed sl 0 - length sl)%nat with 0%nat by lia. reflexivity.
Qed.

Lemma installed_length cat sl :
  (first_closed sl 0 < length (installed cat sl))%nat.
Proof. apply lookup_lt_is_Some. rewrite installed_lookup. eauto. Qed.

Lemma installed_before cat sl j c :
  (j < first_closed sl 0)%nat -> installed cat sl !! j = Some c -> opened c.
Proof.
  intros Hj. unfold installed. pose proof (first_closed_bounds sl 0) as Hb.
  destruct (first_closed sl 0 <? length sl)%nat.
  - rewrite list_lookup_insert_ne by lia.
    apply (first_closed_before sl 0 j). lia.
  - rewrite lookup_app_l by lia. apply (first_closed_before sl 0 j). lia.
Qed.

Lemma open_slot_registry catd w w' :
  theCatalogues w = theCatalogues w' -> open_slot catd w = open_slot catd w'.
Proof. unfold open_slot. intros ->. reflexivity. Qed.

Lemma open_slot_lookup i cat w :
  slots w !! i = Some cat -> opened cat ->
  open_slot (Z.of_nat i) w = Some (i, cat).
Proof.
  unfold open_slot, slots, opened. intros Hl Ho.
  destruct (theCatalogues w) as [cats|]; simpl in Hl; [|done].
  pose proof (lookup_lt_Some _ _ _ Hl) as Hlt.
  replace ((Z.of_nat i <? 0) || (Z.of_nat (length cats) <=? Z.of_nat i))
    with false by (symmetry; apply orb_false_iff; lia).
  rewrite Nat2Z.id, Hl.
  replace (is_opened cat =? 0) with false by (symmetry; apply Z.eqb_neq; exact Ho).
  reflexivity.
Qed.

Lemma open_slot_closed i cat w :
  slots w !! i = Some cat -> is_opened cat = 0 ->
  open_slot (Z.of_nat i) w = None.
Proof.
  unfold open_slot, slots. intros Hl Ho.
  destruct (theCatalogues w) as [cats|]; simpl in Hl; [|done].
  destruct (_ || _); [reflexivity|]. rewrite Nat2Z.id, Hl, Ho. reflexivity.
Qed.

Lemma catgets_registry catd sid mid s w :
  theCatalogues (catgets EBADF ENOMSG catd sid mid s w).2 = theCatalogues w.
Proof.
  unfold catgets. destruct (open_slot catd w) as [[i cat]|]; [|reflexivity].
  destruct (bsearch _ _ _); [reflexivity|]. destruct ENOMSG; reflexivity.
Qed.

Lemma catgets_open catd i cat sid mid s w :
  open_slot catd w = Some (i, cat) ->
  (catgets EBADF ENOMSG catd sid mid s w).1
  = match bsearch catmsg_cmp (mk_message sid mid []) (msgs cat) with
    | Some m => DScstr (msg m)
    | None => s
    end.
Proof.
  unfold catgets. intros ->. destruct (bsearch _ _ _); reflexivity.
Qed.

Lemma catgets_closed catd sid mid s w :
  open_slot catd w = None ->
  catgets EBADF ENOMSG catd sid mid s w = (s, set_errno EBADF w).
Proof. unfold catgets. intros ->. reflexivity. Qed.

Lemma catclose_open catd i cat w :
  open_slot catd w = Some (i, cat) ->
  catclose EBADF catd w
  = (0, set_catalogues (<[i := mk_catalog 0 []]> (slots w)) w).
Proof.
  unfold catclose, slots. intros H. rewrite H.
  unfold open_slot in H. destruct (theCatalogues w); [reflexivity|discriminate].
Qed.

Lemma catread_registry name w cat w' :
  catread fopen name w = Ret (cat, w') -> theCatalogues w' = theCatalogues w.
Proof.
  unfold catread. destruct (fopen name) as [e|contents].
  - intros [= <- <-]. reflexivity.
  - destruct (catread_file contents); simpl; [|discriminate].
    intros [= <- <-]. reflexivity.
Qed.

Lemma catread_trace name w cat w' :
  catread fopen name w = Ret (cat, w') ->
  fopen_trace w' = fopen_trace w ++ [name].
Proof.
  unfold catread. destruct (fopen name) as [e|contents].
  - intros [= <- <-]. reflexivity.
  - destruct (catread_file contents); simpl; [|discriminate].
    intros [= <- <-]. reflexivity.
Qed.

(** A direct path: [catopen] reads the file and installs the catalogue. *)
Lemma catopen_direct name oflag w :
  is_Some (strpbrk name (lit "\/:")) ->
  catopen NL_CAT_LOCALE getenv fopen cross_array_ge (Some name) oflag w
  = '(cat, w) ← catread fopen name w;
    match cat with
    | Some cat => install_catalog cat w
    | None => Ret (-1, w)
    end.
Proof.
  intros Hsep. unfold catopen. destruct name as [|c name].
  { destruct Hsep as [k Hk]. discriminate. }
  rewrite bool_decide_eq_true_2 by assumption. reflexivity.
Qed.

Lemma slots_set_catalogues cats w : slots (set_catalogues cats w) = cats.
Proof. reflexivity. Qed.

(** C1.  End to end: the file holds exactly the lines "1 1 Hello" and
    "2 3 World" and is opened by a direct path.  [catopen] returns a
    descriptor; [catgets] on it gives "Hello" for (1,1), "World" for (2,3)
    and the default of the caller for (9,9); once the descriptor is closed,
    [catgets] gives the default and sets [errno] to [EBADF]. *)
Theorem hello_world_end_to_end (name : list Z) (oflag : Z) (w : World)
    (dflt : list Z) (sid mid : Z) :
  is_Some (strpbrk name (lit "\/:")) ->
  fopen name = File hello_world ->
  exists catd w1,
    catopen NL_CAT_LOCALE getenv fopen cross_array_ge (Some name) oflag w
    = Ret (catd, w1)
    /\ catd <> -1
    /\ let '(m1, w2) := catgets EBADF ENOMSG catd 1 1 dflt w1 in
       let '(m2, w3) := catgets EBADF ENOMSG catd 2 3 dflt w2 in
       let '(m3, w4) := catgets EBADF ENOMSG catd 9 9 dflt w3 in
       let '(rc, w5) := catclose EBADF catd w4 in
       let '(m4, w6) := catgets EBADF ENOMSG catd sid mid dflt w5 in
       m1 = lit "Hello" /\ m2 = lit "World" /\ m3 = dflt
       /\ rc = 0 /\ m4 = dflt /\ errno w6 = EBADF.
Proof.
  intros Hsep Hfile.
  rewrite catopen_direct by assumption.
  unfold catread. rewrite Hfile, catread_hello_world. simpl.
  rewrite install_catalog_slots.
  set (w0 := log_fopen name w).
  set (i := first_closed (slots w0) 0).
  set (w1 := set_catalogues _ w0).
  exists (Z.of_nat i), w1. split; [reflexivity|]. split; [lia|].
  assert (Hopen : forall w', theCatalogues w' = theCatalogues w1 ->
            open_slot (Z.of_nat i) w' = Some (i, mk_catalog 1 hello_world_msgs)).
  { intros w' Hw'. rewrite (open_slot_registry _ w' w1 Hw').
    apply open_slot_lookup; [|unfold opened; simpl; lia].
    subst w1. rewrite slots_set_catalogues. apply installed_lookup. }
  destruct (catgets EBADF ENOMSG (Z.of_nat i) 1 1 dflt w1) as [m1 w2] eqn:E1.
  destruct (catgets EBADF ENOMSG (Z.of_nat i) 2 3 dflt w2) as [m2 w3] eqn:E2.
  destruct (catgets EBADF ENOMSG (Z.of_nat i) 9 9 dflt w3) as [m3 w4] eqn:E3.
  pose proof (catgets_registry (Z.of_nat i) 1 1 dflt w1) as R1.
  pose proof (catgets_registry (Z.of_nat i) 2 3 dflt w2) as R2.
  pose proof (catgets_registry (Z.of_nat i) 9 9 dflt w3) as R3.
  rewrite E1 in R1. rewrite E2 in R2. rewrite E3 in R3. simpl in R1, R2, R3.
  assert (H2 : theCatalogues w2 = theCatalogues w1) by exact R1.
  assert (H3 : theCatalogues w3 = theCatalogues w1) by congruence.
  assert (H4 : theCatalogues w4 = theCatalogues w1) by congruence.
  rewrite (catclose_open _ _ _ w4 (Hopen w4 H4)).
  set (w5 := set_catalogues _ w4).
  assert (Hclosed : open_slot (Z.of_nat i) w5 = None).
  { apply (open_slot_closed i (mk_catalog 0 [])); [|reflexivity].
    subst w5. rewrite slots_set_catalogues.
    apply list_lookup_insert_eq. unfold slots. rewrite H4. subst w1. simpl.
    apply installed_length. }
  rewrite (catgets_closed _ sid mid dflt w5 Hclosed).
  pose proof (catgets_open _ _ _ 1 1 dflt w1 (Hopen w1 eq_refl)) as G1.
  pose proof (catgets_open _ _ _ 2 3 dflt w2 (Hopen w2 H2)) as G2.
  pose proof (catgets_open _ _ _ 9 9 dflt w3 (Hopen w3 H3)) as G3.
  rewrite E1 in G1. rewrite E2 in G2. rewrite E3 in G3.
  repeat split; assumption.
Qed.

Lemma install_catalog_descriptor cat w catd w' :
  install_catalog cat w = Ret (catd, w') -> 0 <= catd.
Proof. rewrite install_catalog_slots. intros [= <- _]. lia. Qed.

Lemma catopen_loop_failure fuel lc name s tmppath w w' :
  catopen_loop fopen cross_array_ge fuel lc name s tmppath w = Ret (-1, w') ->
  theCatalogues w' = theCatalogues w.
Proof.
  revert s tmppath w. induction fuel as [|fuel IH]; intros s tmppath w; simpl.
  { discriminate. }
  destruct (expand_segment _ _ _ _ _) as [[path s1]|]; simpl; [|discriminate].
  destruct (catread fopen (DScstr path) w) as [[cat w1]|] eqn:Hread; simpl;
    [|discriminate].
  apply catread_registry in Hread.
  destruct cat as [cat|].
  - intros H. apply install_catalog_descriptor in H. lia.
  - destruct (DSremove path 0 NPOS) as [path'|]; simpl; [|discriminate].
    destruct s1 as [|c1 [|c2 s2]].
    + intros [= <-]. exact Hread.
    + intros [= <-]. exact Hread.
    + intros H. apply IH in H. congruence.
Qed.

(** A successful [catopen] is an [install_catalog] on the registry as it
    was. *)
Lemma catopen_loop_success fuel lc name s tmppath w catd w' :
  catopen_loop fopen cross_array_ge fuel lc name s tmppath w = Ret (catd, w') ->
  catd <> -1 ->
  exists cat w0,
    theCatalogues w0 = theCatalogues w
    /\ install_catalog cat w0 = Ret (catd, w').
Proof.
  revert s tmppath w. induction fuel as [|fuel IH]; intros s tmppath w; simpl.
  { discriminate. }
  destruct (expand_segment _ _ _ _ _) as [[path s1]|]; simpl; [|discriminate].
  destruct (catread fopen (DScstr path) w) as [[cat w1]|] eqn:Hread; simpl;
    [|discriminate].
  apply catread_registry in Hread.
  destruct cat as [cat|].
  - intros H _. exists cat, w1. split; assumption.
  - destruct (DSremove path 0 NPOS) as [path'|]; simpl; [|discriminate].
    destruct s1 as [|c1 [|c2 s2]].
    + intros [= <- <-] Hne. lia.
    + intros [= <- <-] Hne. lia.
    + intros H Hne. destruct (IH _ _ _ H Hne) as (cat & w0 & Hw0 & Hi).
      exists cat, w0. split; [congruence|assumption].
Qed.

Lemma catopen_success name oflag w catd w' :
  catopen NL_CAT_LOCALE getenv fopen cross_array_ge name oflag w
  = Ret (catd, w') ->
  catd <> -1 ->
  exists cat w0,
    theCatalogues w0 = theCatalogues w
    /\ install_catalog cat w0 = Ret (catd, w').
Proof.
  unfold catopen. destruct name as [[|c name]|].
  - intros [= <- <-] Hne. lia.
  - destruct (bool_decide _).
    + destruct (catread fopen (c :: name) w) as [[cat w1]|] eqn:Hread; simpl;
        [|discriminate].
      apply catread_registry in Hread. destruct cat as [cat|].
      * intros H _. exists cat, w1. split; assumption.
      * intros [= <- <-] Hne. lia.
    + apply catopen_loop_success.
  - intros [= <- <-] Hne. lia.
Qed.

Lemma catopen_failure name oflag w w' :
  catopen NL_CAT_LOCALE getenv fopen cross_array_ge name oflag w
  = Ret (-1, w') ->
  theCatalogues w' = theCatalogues w.
Proof.
  unfold catopen. destruct name as [[|c name]|].
  - intros [= <-]. reflexivity.
  - destruct (bool_decide _).
    + destruct (catread fopen (c :: name) w) as [[cat w1]|] eqn:Hread; simpl;
        [|discriminate].
      apply catread_registry in Hread. destruct cat as [cat|].
      * intros H. apply install_catalog_descriptor in H. lia.
      * intros [= <-]. exact Hread.
    + apply catopen_loop_failure.
  - intros [= <-]. reflexivity.
Qed.

Lemma slots_registry w w' :
  theCatalogues w = theCatalogues w' -> slots w = slots w'.
Proof. unfold slots. intros ->. reflexivity. Qed.

(** Closing the slot a catalogue was installed in leaves it the first
    closed one. *)
Lemma first_closed_reopened cat sl :
  first_closed (<[first_closed sl 0 := mk_catalog 0 []]> (installed cat sl)) 0
  = first_closed sl 0.
Proof.
  pose proof (installed_length cat sl) as Hlen.
  rewrite (first_closed_unique _ 0 (first_closed sl 0)); [reflexivity|..].
  - intros j c Hj. rewrite list_lookup_insert_ne by lia.
    apply installed_before. exact Hj.
  - rewrite length_insert. lia.
  - intros c. rewrite list_lookup_insert_eq by exact Hlen.
    intros [= <-]. reflexivity.
Qed.

(** C7.  [install_catalog] returns the lowest index whose slot is not
    opened, or the length when all are, stores the catalogue there marked
    opened, and changes no other slot; the registry grows by one slot only
    in the second case.  So a catalogue opened after another one was
    opened and closed gets the descriptor that one had. *)
Theorem install_first_fit (cat : _CAT_CATALOG_T) (w : World)
    (nameA nameB : option (list Z)) (oflagA oflagB : Z)
    (a b : Z) (w1 w2 w3 : World) :
  catopen NL_CAT_LOCALE getenv fopen cross_array_ge nameA oflagA w
  = Ret (a, w1) ->
  a <> -1 ->
  catclose EBADF a w1 = (0, w2) ->
  catopen NL_CAT_LOCALE getenv fopen cross_array_ge nameB oflagB w2
  = Ret (b, w3) ->
  b <> -1 ->
  (exists i w',
     install_catalog cat w = Ret (Z.of_nat i, w')
     /\ (i <= length (slots w))%nat
     /\ (forall j c, (j < i)%nat -> slots w !! j = Some c -> is_opened c <> 0)
     /\ (forall c, slots w !! i = Some c -> is_opened c = 0)
     /\ slots w' !! i = Some (mk_catalog 1 (msgs cat))
     /\ (forall j, j <> i -> slots w' !! j = slots w !! j)
     /\ length (slots w') = Nat.max (length (slots w)) (S i))
  /\ b = a.
Proof.
  intros HA Ha Hclose HB Hb. split.
  - exists (first_closed (slots w) 0), (set_catalogues (installed cat (slots w)) w).
    pose proof (first_closed_bounds (slots w) 0) as Hbd.
    split; [apply install_catalog_slots|]. split; [lia|].
    split.
    { intros j c Hj. apply (first_closed_before (slots w) 0 j). lia. }
    split.
    { intros c Hc. pose proof (lookup_lt_Some _ _ _ Hc) as Hlt.
      destruct (first_closed_at (slots w) 0) as (c' & Hc' & Hz); [lia|].
      rewrite Nat.sub_0_r in Hc'. congruence. }
    rewrite slots_set_catalogues. split; [apply installed_lookup|].
    unfold installed.
    destruct (first_closed (slots w) 0 <? length (slots w))%nat eqn:Hlt.
    + apply Nat.ltb_lt in Hlt. split.
      * intros j Hj. apply list_lookup_insert_ne. congruence.
      * rewrite length_insert. lia.
    + apply Nat.ltb_ge in Hlt. split.
      * intros j Hj. destruct (decide (j < length (slots w))%nat).
        -- apply lookup_app_l. assumption.
        -- rewrite lookup_ge_None_2 by (rewrite length_app; simpl; lia).
           symmetry. apply lookup_ge_None_2. lia.
      * rewrite length_app. simpl. lia.
  - destruct (catopen_success _ _ _ _ _ HA Ha) as (catA & wA & HwA & HiA).
    destruct (catopen_success _ _ _ _ _ HB Hb) as (catB & wB & HwB & HiB).
    rewrite install_catalog_slots in HiA, HiB.
    injection HiA as <- <-. injection HiB as <- _.
    set (i := first_closed (slots wA) 0) in *.
    set (wI := set_catalogues (installed catA (slots wA)) wA) in *.
    assert (Hopen : open_slot (Z.of_nat i) wI = Some (i, mk_catalog 1 (msgs catA))).
    { apply open_slot_lookup; [|unfold opened; simpl; lia].
      subst wI. rewrite slots_set_catalogues. apply installed_lookup. }
    rewrite (catclose_open _ _ _ _ Hopen) in Hclose.
    injection Hclose as <-.
    rewrite (slots_registry wB _ HwB). subst wI.
    rewrite !slots_set_catalogues. f_equal. apply first_closed_reopened.
Qed.

(** C9.  [catgets] leaves the registry as it was, whatever it returns:
    the slots, their flags and their messages (and it opens no file). *)
Theorem catgets_frame (catd sid mid : Z) (s : list Z) (w : World) :
  theCatalogues (catgets EBADF ENOMSG catd sid mid s w).2 = theCatalogues w
  /\ fopen_trace (catgets EBADF ENOMSG catd sid mid s w).2 = fopen_trace w.
Proof.
  unfold catgets. destruct (open_slot catd w) as [[i cat]|].
  - destruct (bsearch catmsg_cmp _ (msgs cat)) as [m|].
    + split; reflexivity.
    + destruct ENOMSG as [e|]; split; reflexivity.
  - split; reflexivity.
Qed.

(** C10.  When [catopen] returns -1 the registry is as it was: no slot
    was added, overwritten or marked opened, and the next catalogue to be
    installed gets the descriptor it would have got before. *)
Theorem catopen_failure_frame (name : option (list Z)) (oflag : Z)
    (w w' : World) (cat : _CAT_CATALOG_T) :
  catopen NL_CAT_LOCALE getenv fopen cross_array_ge name oflag w
  = Ret (-1, w') ->
  theCatalogues w' = theCatalogues w
  /\ exists catd w1 w1',
       install_catalog cat w = Ret (catd, w1)
       /\ install_catalog cat w' = Ret (catd, w1')
       /\ theCatalogues w1' = theCatalogues w1.
Proof.
  intros H. pose proof (catopen_failure _ _ _ _ H) as Hreg.
  split; [exact Hreg|].
  rewrite !install_catalog_slots, (slots_registry w' w Hreg).
  eexists _, _, _. split; [reflexivity|]. split; reflexivity.
Qed.

Lemma catopen_lang_spec oflag :
  catopen_lang NL_CAT_LOCALE getenv oflag
  = spec_locale (negb (Z.land oflag NL_CAT_LOCALE =? 0))
      (getenv (lit "LC_ALL")) (getenv (lit "LC_MESSAGES"))
      (getenv (lit "LANG")).
Proof.
  unfold catopen_lang, spec_locale.
  destruct (negb _); [|reflexivity].
  destruct (getenv (lit "LC_ALL")); [reflexivity|].
  destruct (getenv (lit "LC_MESSAGES")); reflexivity.
Qed.

(** C4.  For a name without path separator [catopen] searches with the
    locale of the specification: with the flag set the first of [LC_ALL],
    [LC_MESSAGES] and [LANG] that is set, without it [LANG]; "C" when
    that is unset or "POSIX". *)
Theorem catopen_locale_priority (name : list Z) (oflag : Z) (w : World) :
  name <> [] ->
  strpbrk name (lit "\/:") = None ->
  catopen_lang NL_CAT_LOCALE getenv oflag
  = spec_locale (negb (Z.land oflag NL_CAT_LOCALE =? 0))
      (getenv (lit "LC_ALL")) (getenv (lit "LC_MESSAGES"))
      (getenv (lit "LANG"))
  /\ catopen NL_CAT_LOCALE getenv fopen cross_array_ge (Some name) oflag w
     = catopen_search fopen cross_array_ge
         (default NLS_DEFAULT_PATH (getenv (lit "NLSPATH")))
         (spec_locale (negb (Z.land oflag NL_CAT_LOCALE =? 0))
            (getenv (lit "LC_ALL")) (getenv (lit "LC_MESSAGES"))
            (getenv (lit "LANG")))
         name w.
Proof.
  intros Hne Hsep. split; [apply catopen_lang_spec|].
  unfold catopen. destruct name as [|c name]; [congruence|].
  rewrite bool_decide_eq_false_2 by (rewrite Hsep; apply is_Some_None).
  rewrite catopen_lang_spec.
  destruct (getenv (lit "NLSPATH")); reflexivity.
Qed.

Lemma catopen_loop_unfold fuel lc name s tmppath w :
  catopen_loop fopen cross_array_ge (S fuel) lc name s tmppath w
  = '(tmppath, s) ← expand_segment cross_array_ge lc name s tmppath;
    '(cat, w) ← catread fopen (DScstr tmppath) w;
    match cat with
    | Some cat => install_catalog cat w
    | None =>
        let s := match s with [] => s | _ :: s' => s' end in
        tmppath ← DSremove tmppath 0 NPOS;
        match s with
        | [] => Ret (-1, w)
        | _ :: _ => catopen_loop fopen cross_array_ge fuel lc name s tmppath w
        end
    end.
Proof. reflexivity. Qed.

Lemma catread_absent name e w :
  fopen name = NoFile e ->
  catread fopen name w = Ret (None, set_errno e (log_fopen name w)).
Proof. unfold catread. intros ->. reflexivity. Qed.

Lemma install_catalog_trace cat w catd w' :
  install_catalog cat w = Ret (catd, w') -> fopen_trace w' = fopen_trace w.
Proof. rewrite install_catalog_slots. intros [= _ <-]. reflexivity. Qed.

Lemma example_trace w r w' :
  catopen_search fopen cross_array_ge example_template (lit "fr_FR.UTF-8")
    (lit "prog") w = Ret (r, w') ->
  fopen_trace w'
  = fopen_trace w
    ++ match fopen (lit "/x/fr_FR.UTF-8/prog.cat") with
       | File _ => [lit "/x/fr_FR.UTF-8/prog.cat"]
       | NoFile _ => [lit "/x/fr_FR.UTF-8/prog.cat"; lit "/y/fr/prog.cat"]
       end.
Proof.
  unfold catopen_search.
  change (S (length example_template)) with (S (S (length example_template - 1))).
  rewrite catopen_loop_unfold.
  replace (expand_segment _ _ _ example_template DScreate)
    with (Ret (lit "/x/fr_FR.UTF-8/prog.cat", lit ";/y/%l/%N.cat"))
    by (vm_compute; reflexivity).
  cbn [mbind outcome_bind].
  change (DScstr (lit "/x/fr_FR.UTF-8/prog.cat")) with (lit "/x/fr_FR.UTF-8/prog.cat").
  unfold catread at 1.
  destruct (fopen (lit "/x/fr_FR.UTF-8/prog.cat")) as [e1|c1].
  2:{ destruct (catread_file c1) as [cat|]; cbn [mbind outcome_bind]; [|discriminate].
      intros H. apply install_catalog_trace in H. exact H. }
  cbn [mbind outcome_bind].
  change (DSremove (lit "/x/fr_FR.UTF-8/prog.cat") 0 NPOS) with (Ret (@nil Z)).
  cbn [mbind outcome_bind lit list_ascii_of_string map].
  rewrite catopen_loop_unfold.
  replace (expand_segment _ _ _ _ _)
    with (Ret (lit "/y/fr/prog.cat", @nil Z))
    by (vm_compute; reflexivity).
  cbn [mbind outcome_bind].
  change (DScstr (lit "/y/fr/prog.cat")) with (lit "/y/fr/prog.cat").
  unfold catread.
  destruct (fopen (lit "/y/fr/prog.cat")) as [e2|c2].
  2:{ destruct (catread_file c2) as [cat|]; cbn [mbind outcome_bind]; [|discriminate].
      intros H. apply install_catalog_trace in H. rewrite H. simpl.
      rewrite <- app_assoc. reflexivity. }
  cbn [mbind outcome_bind].
  change (DSremove (lit "/y/fr/prog.cat") 0 NPOS) with (Ret (@nil Z)).
  cbn [mbind outcome_bind].
  intros [= _ <-]. simpl. rewrite <- app_assoc. reflexivity.
Qed.
Lemma example_all_absent (w : World) (e1 e2 : Z) :
  fopen (lit "/x/fr_FR.UTF-8/prog.cat") = NoFile e1 ->
  fopen (lit "/y/fr/prog.cat") = NoFile e2 ->
  exists w',
    catopen_search fopen cross_array_ge example_template (lit "fr_FR.UTF-8")
      (lit "prog") w = Ret (-1, w')
    /\ fopen_trace w'
       = fopen_trace w ++ [lit "/x/fr_FR.UTF-8/prog.cat"; lit "/y/fr/prog.cat"]
    /\ theCatalogues w' = theCatalogues w.
Proof.
  intros H1 H2. unfold catopen_search.
  change (S (length example_template)) with (S (S (length example_template - 1))).
  rewrite catopen_loop_unfold.
  replace (expand_segment _ _ _ example_template DScreate)
    with (Ret (lit "/x/fr_FR.UTF-8/prog.cat", lit ";/y/%l/%N.cat"))
    by (vm_compute; reflexivity).
  cbn [mbind outcome_bind].
  change (DScstr (lit "/x/fr_FR.UTF-8/prog.cat")) with (lit "/x/fr_FR.UTF-8/prog.cat").
  rewrite (catread_absent _ e1) by assumption.
  cbn [mbind outcome_bind].
  change (DSremove (lit "/x/fr_FR.UTF-8/prog.cat") 0 NPOS) with (Ret (@nil Z)).
  cbn [mbind outcome_bind lit list_ascii_of_string map].
  rewrite catopen_loop_unfold.
  replace (expand_segment _ _ _ _ _)
    with (Ret (lit "/y/fr/prog.cat", @nil Z))
    by (vm_compute; reflexivity).
  cbn [mbind outcome_bind].
  change (DScstr (lit "/y/fr/prog.cat")) with (lit "/y/fr/prog.cat").
  rewrite (catread_absent _ e2) by assumption.
  cbn [mbind outcome_bind].
  change (DSremove (lit "/y/fr/prog.cat") 0 NPOS) with (Ret (@nil Z)).
  cbn [mbind outcome_bind].
  eexists. split; [reflexivity|]. split; [|reflexivity].
  simpl. rewrite <- app_assoc. reflexivity.
Qed.

Lemma example_catopen (oflag : Z) (w : World) :
  getenv (lit "NLSPATH") = Some example_template ->
  catopen_lang NL_CAT_LOCALE getenv oflag = lit "fr_FR.UTF-8" ->
  catopen NL_CAT_LOCALE getenv fopen cross_array_ge (Some (lit "prog")) oflag w
  = catopen_search fopen cross_array_ge example_template (lit "fr_FR.UTF-8")
      (lit "prog") w.
Proof.
  intros Hpath Hlang. unfold catopen.
  change (lit "prog") with (chr "p" :: lit "rog").
  replace (bool_decide (is_Some (strpbrk (chr "p" :: lit "rog") (lit "\/:"))))
    with false by (vm_compute; reflexivity).
  rewrite Hpath, Hlang. reflexivity.
Qed.

(** C6.  The template "/x/%L/%N.cat;/y/%l/%N.cat", the locale
    "fr_FR.UTF-8" and the name "prog": the paths tried are
    "/x/fr_FR.UTF-8/prog.cat" and then "/y/fr/prog.cat", no other.  When
    neither file can be opened, both are tried in this order and
    [catopen] fails; in any file system the second is tried when, and
    only when, the first cannot be opened.  This is the search [catopen]
    makes for "prog" when [NLSPATH] is the template and the locale of the
    environment is "fr_FR.UTF-8". *)
Theorem example_candidates (w : World) :
  (forall e1 e2,
     fopen (lit "/x/fr_FR.UTF-8/prog.cat") = NoFile e1 ->
     fopen (lit "/y/fr/prog.cat") = NoFile e2 ->
     exists w',
       catopen_search fopen cross_array_ge example_template
         (lit "fr_FR.UTF-8") (lit "prog") w = Ret (-1, w')
       /\ fopen_trace w'
          = fopen_trace w
            ++ [lit "/x/fr_FR.UTF-8/prog.cat"; lit "/y/fr/prog.cat"]
       /\ theCatalogues w' = theCatalogues w)
  /\ (forall r w',
        catopen_search fopen cross_array_ge example_template
          (lit "fr_FR.UTF-8") (lit "prog") w = Ret (r, w') ->
        fopen_trace w'
        = fopen_trace w
          ++ match fopen (lit "/x/fr_FR.UTF-8/prog.cat") with
             | File _ => [lit "/x/fr_FR.UTF-8/prog.cat"]
             | NoFile _ =>
                 [lit "/x/fr_FR.UTF-8/prog.cat"; lit "/y/fr/prog.cat"]
             end)
  /\ (forall oflag,
        getenv (lit "NLSPATH") = Some example_template ->
        catopen_lang NL_CAT_LOCALE getenv oflag = lit "fr_FR.UTF-8" ->
        catopen NL_CAT_LOCALE getenv fopen cross_array_ge (Some (lit "prog"))
          oflag w
        = catopen_search fopen cross_array_ge example_template
            (lit "fr_FR.UTF-8") (lit "prog") w).
Proof.
  split; [|split].
  - intros e1 e2 H1 H2. exact (example_all_absent w e1 e2 H1 H2).
  - intros r w' H. exact (example_trace w r w' H).
  - intros oflag Hpath Hlang. exact (example_catopen oflag w Hpath Hlang).
Qed.

Lemma expand_conversion lc name c tmppath :
  expand_segment cross_array_ge lc name [chr "%"; c] tmppath
  = Ret (conversion cross_array_ge lc name c tmppath, []).
Proof. reflexivity. Qed.

(** C5, as amended.  [%L] expands to the whole locale only when the
    locale has a codeset; for a locale without one it expands to the
    default locale "C", as [%l] does, and [%c] expands to nothing. *)
Theorem locale_conversion (lang name : list Z) (tmppath : list Z) :
  expand_segment cross_array_ge (split_locale lang) name (lit "%L") tmppath
  = Ret (tmppath ++ (if has_codeset lang then c_str lang else NLS_DEFAULT_LANG),
         [])
  /\ (has_codeset lang = false ->
      expand_segment cross_array_ge (split_locale lang) name (lit "%l") tmppath
      = Ret (tmppath ++ NLS_DEFAULT_LANG, [])
      /\ expand_segment cross_array_ge (split_locale lang) name (lit "%c")
           tmppath
         = Ret (tmppath, [])).
Proof.
  split.
  - change (lit "%L") with [chr "%"; chr "L"]. rewrite expand_conversion.
    unfold conversion. simpl Z.eqb. cbv iota.
    rewrite DSappendcstr_all, split_locale_lang. unfold chars_at.
    destruct (has_codeset lang); simpl base; cbv iota.
    + rewrite split_locale_name. reflexivity.
    + reflexivity.
  - intros Hno. split.
    + change (lit "%l") with [chr "%"; chr "l"]. rewrite expand_conversion.
      unfold conversion. simpl Z.eqb. cbv iota.
      rewrite split_locale_lang, Hno. unfold chars_at. simpl.
      unfold below, ptr_ge. rewrite (split_locale_dot lang Hno).
      destruct (lc_sep (split_locale lang)); simpl;
        [destruct cross_array_ge|]; reflexivity.
    + change (lit "%c") with [chr "%"; chr "c"]. rewrite expand_conversion.
      unfold conversion. simpl Z.eqb. cbv iota.
      rewrite (split_locale_dot lang Hno). reflexivity.
Qed.

End ProcessProperties.

(** ** The bounds of the loops of [catopen] are never reached *)

Section Termination.
Variable NL_CAT_LOCALE : Z.
Variable getenv : list Z -> option (list Z).
Variable fopen : list Z -> fopen_result.
Variable cross_array_ge : bool.

(** Files hold bytes. *)
Hypothesis fopen_bytes : forall name contents,
  fopen name = File contents -> bytes contents.

Lemma catread_in_time name w : in_time (catread fopen name w).
Proof.
  unfold catread. destruct (fopen name) as [e|contents] eqn:Hf; [discriminate|].
  apply in_time_bind; [|discriminate].
  apply catread_file_in_time. exact (fopen_bytes _ _ Hf).
Qed.

Lemma install_catalog_in_time cat w : in_time (install_catalog cat w).
Proof. rewrite install_catalog_slots. discriminate. Qed.

Lemma expand_segment_length n lc name s tmppath path s1 :
  (length s <= n)%nat ->
  expand_segment cross_array_ge lc name s tmppath = Ret (path, s1) ->
  (length s1 <= length s)%nat.
Proof.
  revert s tmppath. induction n as [|n IH]; intros s tmppath Hn.
  { destruct s; simpl in *; [|lia]. intros [= <- <-]. simpl. lia. }
  destruct s as [|c s]; simpl.
  { intros [= <- <-]. simpl. lia. }
  destruct (c =? chr ";"); [intros [= <- <-]; simpl; lia|].
  destruct (c =? chr "%").
  - destruct s as [|d s]; [discriminate|]. intros H.
    apply IH in H; simpl in *; lia.
  - intros H. apply IH in H; simpl in *; lia.
Qed.

Lemma expand_segment_in_time lc name s tmppath :
  in_time (expand_segment cross_array_ge lc name s tmppath).
Proof.
  remember (length s) as n eqn:Hn. assert (Hle : (length s <= n)%nat) by lia.
  clear Hn. revert s tmppath Hle.
  induction n as [|n IH]; intros s tmppath Hle.
  { destruct s; simpl in *; [discriminate|lia]. }
  destruct s as [|c s]; simpl; [discriminate|].
  destruct (c =? chr ";"); [discriminate|].
  destruct (c =? chr "%").
  - destruct s as [|d s]; [discriminate|]. apply IH. simpl in *. lia.
  - apply IH. simpl in *. lia.
Qed.

Lemma catopen_loop_in_time fuel lc name s tmppath w :
  (length s < fuel)%nat ->
  in_time (catopen_loop fopen cross_array_ge fuel lc name s tmppath w).
Proof.
  revert s tmppath w. induction fuel as [|fuel IH]; intros s tmppath w Hfuel;
    [lia|].
  rewrite catopen_loop_unfold.
  apply in_time_bind; [apply expand_segment_in_time|]. intros [path s1] Hexp.
  apply (expand_segment_length (length s)) in Hexp; [|lia].
  apply in_time_bind; [apply catread_in_time|]. intros [[cat|] w1] _.
  { apply install_catalog_in_time. }
  apply in_time_bind; [apply DSremove_in_time|]. intros path' _.
  destruct s1 as [|c1 [|c2 s2]]; [discriminate|discriminate|].
  apply IH. simpl in *. lia.
Qed.

(** The bounds on the loops of [catopen] and of what it calls are never
    reached. *)
Lemma catopen_in_time name oflag w :
  in_time (catopen NL_CAT_LOCALE getenv fopen cross_array_ge name oflag w).
Proof.
  unfold catopen. destruct name as [[|c name]|]; [discriminate| |discriminate].
  destruct (bool_decide _).
  - apply in_time_bind; [apply catread_in_time|]. intros [[cat|] w1] _;
      [apply install_catalog_in_time|discriminate].
  - unfold catopen_search. apply catopen_loop_in_time. lia.
Qed.

End Termination.

(** C5, the claim as stated fails: the locale "fr_FR" is not empty and
    not "POSIX", and [%L] expands to "C": the path tried for the template
    "/x/%L/%N.cat" is "/x/C/prog.cat". *)
Lemma full_locale_not_expanded :
  catopen 1 env_fr_FR no_files false (Some (lit "prog")) 0 empty_world
  = Ret (-1, mk_world None 2 (0, 0) [lit "/x/C/prog.cat"])
  /\ expand_segment false (split_locale (lit "fr_FR")) (lit "prog")
       (lit "%L") []
     = Ret (lit "C", [])
  /\ expand_segment false (split_locale (lit "fr_FR")) (lit "prog")
       (lit "%L") []
     <> Ret (lit "fr_FR", []).
Proof.
  split; [vm_compute; reflexivity|]. split; [vm_compute; reflexivity|].
  vm_compute. intros H. discriminate H.
Qed.

(** ** The properties at work on examples *)

Lemma bytes_decide s : bool_decide (bytes s) = true -> bytes s.
Proof. apply bool_decide_eq_true_1. Qed.

Lemma hello_world_witness :
  is_Some (strpbrk (lit "./a.cat") (lit "\/:"))
  /\ two_catalogues (lit "./a.cat") = File hello_world
  /\ exists catd w1,
       catopen 1 no_environment two_catalogues false (Some (lit "./a.cat")) 0
         empty_world = Ret (catd, w1)
       /\ catd <> -1
       /\ let '(m1, w2) := catgets 9 (Some 42) catd 1 1 (lit "?") w1 in
          let '(m2, w3) := catgets 9 (Some 42) catd 2 3 (lit "?") w2 in
          let '(m3, w4) := catgets 9 (Some 42) catd 9 9 (lit "?") w3 in
          let '(rc, w5) := catclose 9 catd w4 in
          let '(m4, w6) := catgets 9 (Some 42) catd 1 1 (lit "?") w5 in
          m1 = lit "Hello" /\ m2 = lit "World" /\ m3 = lit "?"
          /\ rc = 0 /\ m4 = lit "?" /\ errno w6 = 9.
Proof.
  split; [vm_compute; eauto|]. split; [reflexivity|].
  apply (hello_world_end_to_end 1 9 (Some 42) no_environment two_catalogues
           false (lit "./a.cat") 0 empty_world (lit "?") 1 1).
  - vm_compute. eauto.
  - reflexivity.
Defined.


Lemma numeric_escape_runs_witness :
  bytes (lit "z")
  /\ transform_string (lit "\d1;z") = emit 1 (transform_string (lit ";z"))
  /\ transform_string (lit "\d12;z") = emit 12 (transform_string (lit ";z"))
  /\ transform_string (lit "\d123z") = emit 123 (transform_string (lit "z"))
  /\ transform_string (lit "\19z") = emit 1 (transform_string (lit "9z"))
  /\ transform_string (lit "\109z") = emit 8 (transform_string (lit "9z"))
  /\ transform_string (lit "\101z") = emit 65 (transform_string (lit "z")).
Proof.
  assert (H : bytes (lit "z")) by (apply bytes_decide; vm_compute; reflexivity).
  split; [exact H|].
  exact (numeric_escape_runs (chr "1") (chr "2") (chr "3")
           (chr "1") (chr "0") (chr "1") (chr ";") (chr "9") (lit "z") H
           eq_refl eq_refl eq_refl eq_refl eq_refl eq_refl
           (conj eq_refl eq_refl) eq_refl (conj eq_refl eq_refl) eq_refl).
Defined.

Lemma catopen_locale_priority_witness :
  lit "prog" <> []
  /\ strpbrk (lit "prog") (lit "\/:") = None
  /\ catopen_lang 1 env_fr_FR 1 = lit "fr_FR"
  /\ catopen 1 env_fr_FR no_files false (Some (lit "prog")) 1 empty_world
     = catopen_search no_files false (lit "/x/%L/%N.cat") (lit "fr_FR")
         (lit "prog") empty_world.
Proof.
  assert (H1 : lit "prog" <> []) by (vm_compute; intros H; discriminate H).
  assert (H2 : strpbrk (lit "prog") (lit "\/:") = None) by reflexivity.
  split; [exact H1|]. split; [exact H2|].
  exact (catopen_locale_priority 1 env_fr_FR no_files false (lit "prog") 1
           empty_world H1 H2).
Defined.

Lemma example_candidates_witness :
  no_files (lit "/x/fr_FR.UTF-8/prog.cat") = NoFile 2
  /\ no_files (lit "/y/fr/prog.cat") = NoFile 2
  /\ exists w',
       catopen_search no_files false example_template (lit "fr_FR.UTF-8")
         (lit "prog") empty_world = Ret (-1, w')
       /\ fopen_trace w'
          = fopen_trace empty_world
            ++ [lit "/x/fr_FR.UTF-8/prog.cat"; lit "/y/fr/prog.cat"]
       /\ theCatalogues w' = theCatalogues empty_world.
Proof.
  split; [reflexivity|]. split; [reflexivity|].
  exact (proj1 (example_candidates 1 no_environment no_files false
                  empty_world) 2 2 eq_refl eq_refl).
Defined.

Lemma locale_conversion_witness :
  has_codeset (lit "fr_FR") = false
  /\ expand_segment false (split_locale (lit "fr_FR")) (lit "prog") (lit "%L")
       (lit "/x/") = Ret (lit "/x/C", [])
  /\ expand_segment false (split_locale (lit "fr_FR")) (lit "prog") (lit "%l")
       (lit "/x/") = Ret (lit "/x/C", [])
  /\ expand_segment false (split_locale (lit "fr_FR")) (lit "prog") (lit "%c")
       (lit "/x/") = Ret (lit "/x/", []).
Proof.
  destruct (locale_conversion false (lit "fr_FR") (lit "prog") (lit "/x/"))
    as [HL Hrest].
  destruct (Hrest eq_refl) as [Hl Hc].
  split; [reflexivity|]. split; [exact HL|]. split; [exact Hl|exact Hc].
Defined.

Lemma install_first_fit_witness :
  catopen 1 no_environment two_catalogues false (Some (lit "./a.cat")) 0
    empty_world = Ret (0, world_a_open)
  /\ catclose 9 0 world_a_open = (0, world_a_closed)
  /\ catopen 1 no_environment two_catalogues false (Some (lit "./b.cat")) 0
       world_a_closed = Ret (0, world_b_open)
  /\ (0 : Z) = 0.
Proof.
  assert (HA : catopen 1 no_environment two_catalogues false
                 (Some (lit "./a.cat")) 0 empty_world = Ret (0, world_a_open))
    by (vm_compute; reflexivity).
  assert (HC : catclose 9 0 world_a_open = (0, world_a_closed))
    by (vm_compute; reflexivity).
  assert (HB : catopen 1 no_environment two_catalogues false
                 (Some (lit "./b.cat")) 0 world_a_closed = Ret (0, world_b_open))
    by (vm_compute; reflexivity).
  assert (Hne : (0 : Z) <> -1) by (intros H; discriminate H).
  split; [exact HA|]. split; [exact HC|]. split; [exact HB|].
  exact (proj2 (install_first_fit 1 9 no_environment two_catalogues false
                  (mk_catalog 0 hello_world_msgs) empty_world
                  (Some (lit "./a.cat")) (Some (lit "./b.cat")) 0 0 0 0
                  world_a_open world_a_closed world_b_open HA Hne HC HB Hne)).
Defined.

Lemma catopen_failure_frame_witness :
  catopen 1 no_environment no_files false (Some (lit "prog")) 0 empty_world
  = Ret (-1, world_after_failure)
  /\ theCatalogues world_after_failure = theCatalogues empty_world.
Proof.
  assert (H : catopen 1 no_environment no_files false (Some (lit "prog")) 0
                empty_world = Ret (-1, world_after_failure))
    by (vm_compute; reflexivity).
  split; [exact H|].
  exact (proj1 (catopen_failure_frame 1 no_environment no_files false
                  (Some (lit "prog")) 0 empty_world world_after_failure
                  (mk_catalog 0 hello_world_msgs) H)).
Defined.

(** * Further properties *)

(** ** The comparison of messages, the sorted table and its search *)

Lemma catmsg_cmp_cases a b :
  (catmsg_cmp a b = -1 /\ key_lt a b)
  \/ (catmsg_cmp a b = 0 /\ same_key a b)
  \/ (catmsg_cmp a b = 1 /\ key_lt b a).
Proof.
  unfold catmsg_cmp, key_lt, same_key.
  destruct (set_id a =? set_id b) eqn:Es; simpl.
  - apply Z.eqb_eq in Es. destruct (msg_id a =? msg_id b) eqn:Em; simpl.
    + apply Z.eqb_eq in Em. auto.
    + apply Z.eqb_neq in Em. destruct (msg_id a <? msg_id b) eqn:El.
      * apply Z.ltb_lt in El. auto.
      * apply Z.ltb_ge in El. right. right. split; [reflexivity|]. right. lia.
  - apply Z.eqb_neq in Es. destruct (set_id a <? set_id b) eqn:El.
    + apply Z.ltb_lt in El. auto.
    + apply Z.ltb_ge in El. right. right. split; [reflexivity|]. left. lia.
Qed.

Ltac cmp_cases a b :=
  let H := fresh "H" in
  destruct (catmsg_cmp_cases a b) as [[H ?]|[[H ?]|[H ?]]];
  rewrite ?H in *; unfold key_lt, same_key in *.

(** X1.  [catmsg_cmp] is a three-way comparison by [set_id], then by
    [msg_id]: it yields -1, 0 or 1, 0 for equal keys only, changes sign
    when its arguments change places, and is transitive, as [qsort] and
    [bsearch] need it. *)
Theorem catmsg_cmp_total_order (a b c : _CAT_MESSAGE_T) :
  (catmsg_cmp a b = -1 \/ catmsg_cmp a b = 0 \/ catmsg_cmp a b = 1)
  /\ (catmsg_cmp a b = 0 <-> set_id a = set_id b /\ msg_id a = msg_id b)
  /\ (catmsg_cmp a b < 0 <->
      set_id a < set_id b \/ (set_id a = set_id b /\ msg_id a < msg_id b))
  /\ catmsg_cmp b a = - catmsg_cmp a b
  /\ (catmsg_cmp a b <= 0 -> catmsg_cmp b c <= 0 -> catmsg_cmp a c <= 0).
Proof.
  split; [cmp_cases a b; auto|].
  split; [cmp_cases a b; split; intros; try lia; auto|].
  split; [cmp_cases a b; split; intros; try lia; auto|].
  split.
  - cmp_cases a b; cmp_cases b a; lia.
  - cmp_cases a b; cmp_cases b c; cmp_cases a c; lia.
Qed.

Lemma key_le_trans a b c : key_le a b -> key_le b c -> key_le a c.
Proof.
  unfold key_le. cmp_cases a b; cmp_cases b c; cmp_cases a c; lia.
Qed.

Lemma key_le_total a b : key_le a b \/ key_le b a.
Proof. unfold key_le. cmp_cases a b; cmp_cases b a; lia. Qed.

Lemma qsort_insert_elem {T} (cmp : T -> T -> Z) x a y :
  y ∈ qsort_insert cmp x a <-> y = x \/ y ∈ a.
Proof.
  induction a as [|z a IH]; simpl.
  - rewrite list_elem_of_singleton. split; [auto|]. intros [H|H]; [auto|inversion H].
  - destruct (cmp x z <=? 0).
    + rewrite !elem_of_cons. tauto.
    + rewrite !elem_of_cons, IH. tauto.
Qed.

Lemma qsort_insert_sorted x a :
  StronglySorted key_le a -> StronglySorted key_le (qsort_insert catmsg_cmp x a).
Proof.
  induction 1 as [|z a Hs IH Hz]; simpl.
  - repeat constructor.
  - destruct (catmsg_cmp x z <=? 0) eqn:E.
    + apply Z.leb_le in E. constructor; [constructor; assumption|].
      constructor; [exact E|].
      eapply Forall_impl; [exact Hz|]. intros y Hy.
      apply (key_le_trans x z y); assumption.
    + apply Z.leb_gt in E. constructor; [exact IH|].
      apply Forall_forall. intros y Hy.
      apply qsort_insert_elem in Hy as [->|Hy].
      * destruct (key_le_total z x) as [H|H]; [exact H|]. unfold key_le in H. lia.
      * rewrite Forall_forall in Hz. apply Hz. exact Hy.
Qed.

Lemma qsort_sorted a : StronglySorted key_le (qsort catmsg_cmp a).
Proof.
  induction a as [|x a IH]; simpl; [constructor|].
  apply qsort_insert_sorted. exact IH.
Qed.

Lemma qsort_elem {T} (cmp : T -> T -> Z) a y : y ∈ qsort cmp a <-> y ∈ a.
Proof.
  induction a as [|x a IH]; simpl; [reflexivity|].
  rewrite qsort_insert_elem, elem_of_cons, IH. reflexivity.
Qed.

Lemma qsort_insert_length {T} (cmp : T -> T -> Z) x a :
  length (qsort_insert cmp x a) = S (length a).
Proof.
  induction a as [|z a IH]; simpl; [reflexivity|].
  destruct (cmp x z <=? 0); simpl; [reflexivity|]. rewrite IH. reflexivity.
Qed.

Lemma qsort_length {T} (cmp : T -> T -> Z) a : length (qsort cmp a) = length a.
Proof.
  induction a as [|x a IH]; simpl; [reflexivity|].
  rewrite qsort_insert_length, IH. reflexivity.
Qed.

Lemma sorted_lookup l i j a b :
  StronglySorted key_le l -> (i < j)%nat ->
  l !! i = Some a -> l !! j = Some b -> key_le a b.
Proof.
  intros Hs. revert i j. induction Hs as [|x l Hs IH Hx]; intros i j Hij Hi Hj.
  { destruct i; discriminate. }
  destruct j as [|j]; [lia|]. simpl in Hj. destruct i as [|i]; simpl in Hi.
  - injection Hi as <-. rewrite Forall_forall in Hx. apply Hx.
    apply list_elem_of_lookup. eauto.
  - apply (IH i j); [lia|assumption|assumption].
Qed.

(** What [bsearch] finds compares equal to the key and is in the table. *)
Lemma bsearch_loop_sound {T} fuel (cmp : T -> T -> Z) key base l u p :
  bsearch_loop fuel cmp key base l u = Some p -> p ∈ base /\ cmp key p = 0.
Proof.
  revert l u. induction fuel as [|fuel IH]; intros l u; cbn [bsearch_loop].
  { discriminate. }
  destruct (l <? u)%nat; [|discriminate].
  set (idx := ((l + u) / 2)%nat).
  destruct (base !! idx) as [q|] eqn:Hq; [|discriminate].
  destruct (cmp key q <? 0) eqn:E1; [apply IH|].
  destruct (0 <? cmp key q) eqn:E2; [apply IH|].
  intros [= <-]. split; [apply list_elem_of_lookup; eauto|].
  apply Z.ltb_ge in E1, E2. lia.
Qed.

(** In a sorted table [bsearch] finds a message when one has the key. *)
Lemma bsearch_loop_complete fuel key base l u k a :
  StronglySorted key_le base ->
  (u - l <= fuel)%nat -> (l <= k < u)%nat -> (u <= length base)%nat ->
  base !! k = Some a -> catmsg_cmp key a = 0 ->
  is_Some (bsearch_loop fuel catmsg_cmp key base l u).
Proof.
  intros Hs. revert l u. induction fuel as [|fuel IH]; intros l u Hf Hk Hu Ha H0.
  { lia. }
  cbn [bsearch_loop].
  replace (l <? u)%nat with true by (symmetry; apply Nat.ltb_lt; lia).
  assert (Hmid : (l <= (l + u) / 2 < u)%nat).
  { split; [apply Nat.div_le_lower_bound|apply Nat.Div0.div_lt_upper_bound]; lia. }
  set (idx := ((l + u) / 2)%nat) in *.
  destruct (base !! idx) as [q|] eqn:Hq.
  2:{ apply lookup_ge_None in Hq. lia. }
  destruct (catmsg_cmp key q <? 0) eqn:E1.
  { apply Z.ltb_lt in E1. apply IH; try lia; try assumption.
    destruct (decide (k < idx)%nat) as [|Hge]; [lia|exfalso].
    destruct (decide (k = idx)) as [Heq|Hne];
      [rewrite Heq, Hq in Ha; injection Ha as <-; lia|].
    pose proof (sorted_lookup base idx k q a Hs ltac:(lia) Hq Ha) as Hle.
    unfold key_le in Hle.
    cmp_cases key q; cmp_cases q a; cmp_cases key a; lia. }
  destruct (0 <? catmsg_cmp key q) eqn:E2; [|eauto].
  apply Z.ltb_lt in E2. apply IH; try lia; try assumption.
  destruct (decide (idx < k)%nat) as [|Hge]; [lia|exfalso].
  destruct (decide (k = idx)) as [Heq|Hne];
      [rewrite Heq, Hq in Ha; injection Ha as <-; lia|].
  pose proof (sorted_lookup base k idx a q Hs ltac:(lia) Ha Hq) as Hle.
  unfold key_le in Hle.
  cmp_cases key q; cmp_cases a q; cmp_cases key a; lia.
Qed.

Lemma bsearch_hit sid mid base m :
  StronglySorted key_le base -> m ∈ base -> has_key sid mid m ->
  exists m', bsearch catmsg_cmp (mk_message sid mid []) base = Some m'
             /\ m' ∈ base /\ has_key sid mid m'.
Proof.
  intros Hs Hm [Hsid Hmid]. apply list_elem_of_lookup in Hm as [k Hk].
  pose proof (lookup_lt_Some _ _ _ Hk) as Hlt.
  destruct (bsearch_loop_complete (length base) (mk_message sid mid []) base
              0 (length base) k m Hs) as [m' Hm']; try lia; try assumption.
  { cmp_cases (mk_message sid mid []) m; simpl in *; lia. }
  exists m'. split; [exact Hm'|].
  apply bsearch_loop_sound in Hm' as [Hin H0]. split; [exact Hin|].
  unfold has_key. cmp_cases (mk_message sid mid []) m'; simpl in *; lia.
Qed.

Lemma bsearch_miss sid mid base :
  (forall m, m ∈ base -> ~ has_key sid mid m) ->
  bsearch catmsg_cmp (mk_message sid mid []) base = None.
Proof.
  intros Hno. destruct (bsearch _ _ _) as [p|] eqn:E; [|reflexivity].
  apply bsearch_loop_sound in E as [Hin H0]. exfalso. apply (Hno p Hin).
  unfold has_key. cmp_cases (mk_message sid mid []) p; simpl in *; lia.
Qed.

(** ** Descriptors *)

Lemma open_slot_slots catd w :
  open_slot catd w
  = if catd <? 0 then None
    else match slots w !! Z.to_nat catd with
         | Some cat =>
             if is_opened cat =? 0 then None else Some (Z.to_nat catd, cat)
         | None => None
         end.
Proof.
  unfold open_slot, slots. destruct (theCatalogues w) as [cats|]; simpl.
  - destruct (catd <? 0) eqn:Hneg; simpl; [reflexivity|].
    destruct (Z.of_nat (length cats) <=? catd) eqn:Hlen; [|reflexivity].
    apply Z.ltb_ge in Hneg. apply Z.leb_le in Hlen.
    rewrite lookup_ge_None_2 by lia. reflexivity.
  - destruct (catd <? 0); reflexivity.
Qed.

Lemma open_slot_valid catd w :
  valid catd w <-> is_Some (open_slot catd w).
Proof.
  rewrite open_slot_slots. unfold valid. split.
  - intros (Hpos & cat & Hcat & Ho).
    replace (catd <? 0) with false by (symmetry; apply Z.ltb_ge; lia).
    rewrite Hcat.
    replace (is_opened cat =? 0) with false by (symmetry; apply Z.eqb_neq; exact Ho).
    eauto.
  - destruct (catd <? 0) eqn:Hneg; [intros [? [=]]|]. apply Z.ltb_ge in Hneg.
    destruct (slots w !! Z.to_nat catd) as [cat|]; [|intros [? [=]]].
    destruct (is_opened cat =? 0) eqn:Ho; [intros [? [=]]|].
    apply Z.eqb_neq in Ho. intros _. split; [exact Hneg|]. eauto.
Qed.

Lemma open_slot_invalid catd w : ~ valid catd w <-> open_slot catd w = None.
Proof.
  rewrite open_slot_valid. destruct (open_slot catd w); split; intros H.
  - exfalso. apply H. eauto.
  - discriminate.
  - reflexivity.
  - intros [? [=]].
Qed.

Lemma open_slot_some catd w i cat :
  open_slot catd w = Some (i, cat) ->
  0 <= catd /\ i = Z.to_nat catd /\ slots w !! i = Some cat
  /\ is_opened cat <> 0.
Proof.
  rewrite open_slot_slots. destruct (catd <? 0) eqn:Hneg; [discriminate|].
  apply Z.ltb_ge in Hneg.
  destruct (slots w !! Z.to_nat catd) as [c|] eqn:Hc; [|discriminate].
  destruct (is_opened c =? 0) eqn:Ho; [discriminate|]. apply Z.eqb_neq in Ho.
  intros [= <- <-]. auto.
Qed.

(** What [catclose] makes of the slots. *)
Lemma catclose_slots EBADF catd w :
  slots (catclose EBADF catd w).2
  = match open_slot catd w with
    | Some (i, _) => <[i := mk_catalog 0 []]> (slots w)
    | None => slots w
    end.
Proof.
  unfold catclose. destruct (open_slot catd w) as [[i cat]|] eqn:Ho;
    [|reflexivity].
  unfold slots. unfold open_slot in Ho.
  destruct (theCatalogues w); [reflexivity|discriminate].
Qed.

Section Descriptors.
Variable NL_CAT_LOCALE EBADF : Z.
Variable ENOMSG : option Z.
Variable getenv : list Z -> option (list Z).
Variable fopen : list Z -> fopen_result.
Variable cross_array_ge : bool.

(** X2.  A descriptor is valid when it is the index of an opened slot.
    [catclose] returns 0 on the valid descriptors and -1 on every other;
    on those, a negative one and one beyond the registry among them, it
    and [catgets] set [errno] to [EBADF] and change nothing else, and
    [catgets] returns the default. *)
Theorem descriptor_validity (catd sid mid : Z) (s : list Z) (w : World) :
  (valid catd w <-> (catclose EBADF catd w).1 = 0)
  /\ (~ valid catd w <-> (catclose EBADF catd w).1 = -1)
  /\ (~ valid catd w ->
      catclose EBADF catd w = (-1, set_errno EBADF w)
      /\ catgets EBADF ENOMSG catd sid mid s w = (s, set_errno EBADF w))
  /\ (catd < 0 -> ~ valid catd w)
  /\ (Z.of_nat (length (slots w)) <= catd -> ~ valid catd w).
Proof.
  assert (Hfst : (catclose EBADF catd w).1
                 = match open_slot catd w with Some _ => 0 | None => -1 end).
  { unfold catclose. destruct (open_slot catd w) as [[i cat]|]; [|reflexivity].
    destruct (theCatalogues w); reflexivity. }
  split; [|split; [|split; [|split]]].
  - rewrite open_slot_valid, Hfst.
    destruct (open_slot catd w); split; eauto; try discriminate.
    intros [? [=]].
  - rewrite open_slot_invalid, Hfst.
    destruct (open_slot catd w); split; eauto; discriminate.
  - intros Hinv. apply open_slot_invalid in Hinv. unfold catclose, catgets.
    rewrite Hinv. split; reflexivity.
  - intros Hneg [Hpos _]. lia.
  - intros Hlen (Hpos & cat & Hcat & _). apply lookup_lt_Some in Hcat. lia.
Qed.

(** X3.  Once [catclose] was called on it a descriptor is not valid, whether
    the call closed it or failed. *)
Theorem catclose_invalidates (catd sid mid : Z) (s : list Z) (w : World) :
  let w' := (catclose EBADF catd w).2 in
  ~ valid catd w'
  /\ catclose EBADF catd w' = (-1, set_errno EBADF w')
  /\ catgets EBADF ENOMSG catd sid mid s w' = (s, set_errno EBADF w').
Proof.
  intros w'.
  assert (Hinv : open_slot catd w' = None).
  { rewrite open_slot_slots. subst w'. rewrite catclose_slots.
    destruct (open_slot catd w) as [[i cat]|] eqn:Ho.
    - apply open_slot_some in Ho as (Hpos & -> & Hcat & _).
      replace (catd <? 0) with false by (symmetry; apply Z.ltb_ge; lia).
      rewrite list_lookup_insert_eq by (apply lookup_lt_Some in Hcat; exact Hcat).
      reflexivity.
    - rewrite <- open_slot_slots. exact Ho. }
  split; [apply open_slot_invalid; exact Hinv|].
  unfold catclose, catgets. rewrite Hinv. split; reflexivity.
Qed.

(** X4.  A successful [catclose] empties and closes its slot and nothing else:
    the other slots, their number, [errno] and the other descriptors'
    messages stay. *)
Theorem catclose_frame (catd other sid mid : Z) (s : list Z) (w : World) :
  valid catd w ->
  let w' := (catclose EBADF catd w).2 in
  (catclose EBADF catd w).1 = 0
  /\ length (slots w') = length (slots w)
  /\ slots w' !! Z.to_nat catd = Some (mk_catalog 0 [])
  /\ (forall j, j <> Z.to_nat catd -> slots w' !! j = slots w !! j)
  /\ errno w' = errno w
  /\ fopen_trace w' = fopen_trace w
  /\ (other <> catd ->
      (valid other w' <-> valid other w)
      /\ (catgets EBADF ENOMSG other sid mid s w').1
         = (catgets EBADF ENOMSG other sid mid s w).1).
Proof.
  intros Hv w'. apply open_slot_valid in Hv as [[i cat] Ho].
  pose proof (open_slot_some _ _ _ _ Ho) as (Hpos & -> & Hcat & Hop).
  pose proof (lookup_lt_Some _ _ _ Hcat) as Hlt.
  assert (Hsl : slots w' = <[Z.to_nat catd := mk_catalog 0 []]> (slots w)).
  { subst w'. rewrite catclose_slots, Ho. reflexivity. }
  assert (Hw' : w' = set_catalogues (<[Z.to_nat catd := mk_catalog 0 []]> (slots w)) w).
  { subst w'. rewrite (catclose_open EBADF _ _ _ _ Ho). reflexivity. }
  split; [rewrite (catclose_open EBADF _ _ _ _ Ho); reflexivity|].
  split; [rewrite Hsl; apply length_insert|].
  split; [rewrite Hsl; apply list_lookup_insert_eq; exact Hlt|].
  split; [intros j Hj; rewrite Hsl; apply list_lookup_insert_ne; congruence|].
  split; [rewrite Hw'; reflexivity|]. split; [rewrite Hw'; reflexivity|].
  intros Hne.
  assert (Hother : open_slot other w' = open_slot other w).
  { rewrite !open_slot_slots, Hsl. destruct (other <? 0) eqn:Hneg; [reflexivity|].
    apply Z.ltb_ge in Hneg. rewrite list_lookup_insert_ne by lia. reflexivity. }
  split; [rewrite !open_slot_valid, Hother; reflexivity|].
  unfold catgets. rewrite Hother.
  destruct (open_slot other w) as [[j c]|]; [|reflexivity].
  destruct (bsearch _ _ _); [reflexivity|]. destruct ENOMSG; reflexivity.
Qed.

(** The slot [install_catalog] takes is not the slot of a valid
    descriptor. *)
Lemma first_closed_not_valid catd w :
  valid catd w -> Z.to_nat catd <> first_closed (slots w) 0.
Proof.
  intros (Hpos & cat & Hcat & Ho) Heq.
  pose proof (lookup_lt_Some _ _ _ Hcat) as Hlt.
  destruct (first_closed_at (slots w) 0) as (c & Hc & Hz); [lia|].
  rewrite Nat.sub_0_r, <- Heq, Hcat in Hc. injection Hc as <-. contradiction.
Qed.

Lemma installed_other cat sl j :
  j <> first_closed sl 0 -> (j < length sl)%nat ->
  installed cat sl !! j = sl !! j.
Proof.
  intros Hne Hlt. unfold installed.
  destruct (first_closed sl 0 <? length sl)%nat.
  - apply list_lookup_insert_ne. congruence.
  - apply lookup_app_l. exact Hlt.
Qed.

Lemma catgets_result catd sid mid s w w' :
  open_slot catd w' = open_slot catd w ->
  (catgets EBADF ENOMSG catd sid mid s w').1
  = (catgets EBADF ENOMSG catd sid mid s w).1.
Proof.
  intros H. unfold catgets. rewrite H.
  destruct (open_slot catd w) as [[j c]|]; [|reflexivity].
  destruct (bsearch _ _ _); [reflexivity|]. destruct ENOMSG; reflexivity.
Qed.

(** X5.  [catopen] does not disturb the catalogues that are open: a descriptor
    that is valid stays valid, is not the one returned, and [catgets]
    returns for it what it returned before. *)
Theorem catopen_preserves (name : option (list Z)) (oflag : Z) (w w1 : World)
    (catd other sid mid : Z) (s : list Z) :
  catopen NL_CAT_LOCALE getenv fopen cross_array_ge name oflag w
  = Ret (catd, w1) ->
  valid other w ->
  other <> catd
  /\ valid other w1
  /\ slots w1 !! Z.to_nat other = slots w !! Z.to_nat other
  /\ (catgets EBADF ENOMSG other sid mid s w1).1
     = (catgets EBADF ENOMSG other sid mid s w).1.
Proof.
  intros Hopen Hv.
  assert (Hsl : other <> catd
                /\ slots w1 !! Z.to_nat other = slots w !! Z.to_nat other).
  { destruct (decide (catd = -1)) as [->|Hne].
    - apply (catopen_failure NL_CAT_LOCALE getenv fopen cross_array_ge) in Hopen.
      split; [destruct Hv; lia|]. rewrite (slots_registry w1 w Hopen).
      reflexivity.
    - destruct (catopen_success NL_CAT_LOCALE getenv fopen cross_array_ge
                  _ _ _ _ _ Hopen Hne) as (cat & w0 & Hw0 & Hi).
      rewrite install_catalog_slots in Hi. injection Hi as <- <-.
      rewrite slots_set_catalogues, (slots_registry w0 w Hw0).
      pose proof (first_closed_not_valid other w Hv) as Hneq.
      destruct Hv as (Hpos & c & Hc & _).
      split; [lia|]. apply installed_other; [exact Hneq|].
      apply lookup_lt_Some in Hc. exact Hc. }
  destruct Hsl as [Hne Hsl]. split; [exact Hne|].
  assert (Hslot : open_slot other w1 = open_slot other w)
    by (rewrite !open_slot_slots, Hsl; reflexivity).
  split; [rewrite open_slot_valid, Hslot, <- open_slot_valid; exact Hv|].
  split; [exact Hsl|]. apply catgets_result. exact Hslot.
Qed.

Lemma catread_line_not_opened f s t cat catmsg st :
  not_opened cat ->
  catread_line f s t cat catmsg = Ret st -> not_opened (rd_cat st).
Proof.
  intros Hcat. unfold catread_line.
  repeat match goal with
  | |- context [mbind _ ?m] =>
      let E := fresh "E" in destruct m eqn:E; simpl; [|discriminate]
  | |- context [if ?b then _ else _] => destruct b
  | |- context [let '(_, _) := ?p in _] => destruct p
  end;
  try (intros [= <-]; simpl; try exact Hcat; destruct cat; simpl in *; auto).
Qed.

Lemma catread_loop_not_opened fuel st st' :
  not_opened (rd_cat st) ->
  catread_loop fuel st = Ret st' -> not_opened (rd_cat st').
Proof.
  revert st. induction fuel as [|fuel IH]; intros st Hst; [discriminate|].
  rewrite catread_loop_unfold. intros H.
  apply bind_ret in H as ([s f] & _ & H).
  destruct (0 <? DSlength s).
  - apply bind_ret in H as (st1 & Hline & H).
    apply IH in H; [exact H|].
    apply (catread_line_not_opened _ _ _ _ _ _ Hst Hline).
  - injection H as <-. exact Hst.
Qed.

Lemma catread_file_sorted contents cat :
  catread_file contents = Ret cat ->
  is_opened cat = 0 /\ StronglySorted key_le (msgs cat).
Proof.
  unfold catread_file. intros H. apply bind_ret in H as (st & Hloop & H).
  apply catread_loop_not_opened in Hloop; [|exact I].
  destruct (rd_cat st) as [c|] eqn:Hc; [|discriminate].
  injection H as <-. simpl. split; [exact Hloop|apply qsort_sorted].
Qed.

(** X6.  What [catread] returns is not marked opened and is sorted by
    [set_id], then by [msg_id]. *)
Theorem catread_sorted (name : list Z) (w w' : World) (cat : _CAT_CATALOG_T)
    (i j : nat) (a b : _CAT_MESSAGE_T) :
  catread fopen name w = Ret (Some cat, w') ->
  (i < j)%nat -> msgs cat !! i = Some a -> msgs cat !! j = Some b ->
  is_opened cat = 0
  /\ (set_id a < set_id b \/ (set_id a = set_id b /\ msg_id a <= msg_id b)).
Proof.
  unfold catread. destruct (fopen name) as [e|contents]; [discriminate|].
  intros H Hij Ha Hb. apply bind_ret in H as (c & Hfile & H).
  injection H as <- <-. apply catread_file_sorted in Hfile as [Hop Hs].
  split; [exact Hop|].
  pose proof (sorted_lookup _ _ _ _ _ Hs Hij Ha Hb) as Hle. unfold key_le in Hle.
  cmp_cases a b; lia.
Qed.

Lemma catread_some name w cat w' :
  catread fopen name w = Ret (Some cat, w') ->
  StronglySorted key_le (msgs cat).
Proof.
  unfold catread. destruct (fopen name) as [e|contents]; [discriminate|].
  intros H. apply bind_ret in H as (c & Hfile & H). injection H as <- <-.
  apply catread_file_sorted in Hfile as [_ Hs]. exact Hs.
Qed.

Lemma catopen_loop_installs fuel lc name s tmppath w catd w' :
  catopen_loop fopen cross_array_ge fuel lc name s tmppath w = Ret (catd, w') ->
  catd <> -1 ->
  exists cat w0,
    theCatalogues w0 = theCatalogues w
    /\ StronglySorted key_le (msgs cat)
    /\ install_catalog cat w0 = Ret (catd, w').
Proof.
  revert s tmppath w. induction fuel as [|fuel IH]; intros s tmppath w;
    [discriminate|].
  rewrite catopen_loop_unfold. intros H Hne.
  apply bind_ret in H as ([path s1] & _ & H).
  apply bind_ret in H as ([cat w1] & Hread & H).
  pose proof (catread_registry _ _ _ _ _ Hread) as Hreg.
  destruct cat as [cat|].
  - exists cat, w1. split; [exact Hreg|]. split; [|exact H].
    apply (catread_some _ _ _ _ Hread).
  - apply bind_ret in H as (path' & _ & H).
    destruct s1 as [|c1 [|c2 s2]]; try (injection H as <- <-; lia).
    destruct (IH _ _ _ H Hne) as (cat & w0 & Hw0 & Hs & Hi).
    exists cat, w0. split; [congruence|]. split; assumption.
Qed.

Lemma catopen_installs name oflag w catd w' :
  catopen NL_CAT_LOCALE getenv fopen cross_array_ge name oflag w
  = Ret (catd, w') ->
  catd <> -1 ->
  exists cat w0,
    theCatalogues w0 = theCatalogues w
    /\ StronglySorted key_le (msgs cat)
    /\ install_catalog cat w0 = Ret (catd, w').
Proof.
  unfold catopen. destruct name as [[|c name]|].
  - intros [= <- <-] Hne. lia.
  - destruct (bool_decide _).
    + intros H Hne. apply bind_ret in H as ([cat w1] & Hread & H).
      pose proof (catread_registry _ _ _ _ _ Hread) as Hreg.
      destruct cat as [cat|]; [|injection H as <- <-; lia].
      exists cat, w1. split; [exact Hreg|]. split; [|exact H].
      apply (catread_some _ _ _ _ Hread).
    + apply catopen_loop_installs.
  - intros [= <- <-] Hne. lia.
Qed.

Lemma elem_of_insert_inv {A} (l : list A) i x y :
  y ∈ <[i := x]> l -> y = x \/ y ∈ l.
Proof.
  intros H. apply list_elem_of_lookup in H as [j Hj].
  destruct (decide (i = j)) as [->|Hne].
  - destruct (decide (j < length l)%nat).
    + rewrite list_lookup_insert_eq in Hj by assumption. left. congruence.
    + rewrite list_insert_ge in Hj by lia. right.
      apply list_elem_of_lookup. eauto.
  - rewrite list_lookup_insert_ne in Hj by assumption. right.
    apply list_elem_of_lookup. eauto.
Qed.

Lemma installed_elem cat sl y :
  y ∈ installed cat sl -> y = mk_catalog 1 (msgs cat) \/ y ∈ sl.
Proof.
  unfold installed. destruct (_ <? _)%nat.
  - apply elem_of_insert_inv.
  - rewrite elem_of_app, list_elem_of_singleton. tauto.
Qed.

(** X7.  The registry keeps every table sorted: it is so before the first
    install, and [catopen], [catclose] and [catgets] keep it so. *)
Theorem registry_sorted_invariant (w : World) (name : option (list Z))
    (oflag catd sid mid : Z) (s : list Z) :
  registry_sorted w ->
  (forall d w',
     catopen NL_CAT_LOCALE getenv fopen cross_array_ge name oflag w
     = Ret (d, w') -> registry_sorted w')
  /\ registry_sorted (catclose EBADF catd w).2
  /\ registry_sorted (catgets EBADF ENOMSG catd sid mid s w).2
  /\ (forall w0, theCatalogues w0 = None -> registry_sorted w0).
Proof.
  intros Hw. split; [|split; [|split]].
  - intros d w' Hopen c Hc. destruct (decide (d = -1)) as [->|Hne].
    + apply (catopen_failure NL_CAT_LOCALE getenv fopen cross_array_ge) in Hopen.
      rewrite (slots_registry w' w Hopen) in Hc. apply Hw. exact Hc.
    + destruct (catopen_installs _ _ _ _ _ Hopen Hne)
        as (cat & w0 & Hw0 & Hs & Hi).
      rewrite install_catalog_slots in Hi. injection Hi as _ <-.
      rewrite slots_set_catalogues, (slots_registry w0 w Hw0) in Hc.
      apply installed_elem in Hc as [->|Hc]; [exact Hs|apply Hw; exact Hc].
  - intros c Hc. rewrite catclose_slots in Hc.
    destruct (open_slot catd w) as [[i cat]|]; [|apply Hw; exact Hc].
    apply elem_of_insert_inv in Hc as [->|Hc]; [constructor|apply Hw; exact Hc].
  - intros c Hc.
    rewrite (slots_registry _ w (catgets_registry EBADF ENOMSG catd sid mid s w))
      in Hc.
    apply Hw. exact Hc.
  - intros w0 H0 c Hc. unfold slots in Hc. rewrite H0 in Hc. inversion Hc.
Qed.

(** X8.  In a slot whose table is sorted [catgets] finds every key that is
    there: it returns the text of a message with that key; for a key
    that is not there it returns the default and sets [ENOMSG], where
    that is defined. *)
Theorem catgets_lookup (catd sid mid : Z) (s : list Z) (w : World)
    (cat : _CAT_CATALOG_T) :
  0 <= catd ->
  slots w !! Z.to_nat catd = Some cat ->
  is_opened cat <> 0 ->
  StronglySorted key_le (msgs cat) ->
  (forall m, m ∈ msgs cat -> set_id m = sid -> msg_id m = mid ->
     exists m', m' ∈ msgs cat /\ set_id m' = sid /\ msg_id m' = mid
       /\ catgets EBADF ENOMSG catd sid mid s w
          = (DScstr (msg m'), set_keymsg (sid, mid) w))
  /\ ((forall m, m ∈ msgs cat -> ~ (set_id m = sid /\ msg_id m = mid)) ->
      catgets EBADF ENOMSG catd sid mid s w
      = (s, match ENOMSG with
            | Some e => set_errno e (set_keymsg (sid, mid) w)
            | None => set_keymsg (sid, mid) w
            end)).
Proof.
  intros Hpos Hcat Hop Hs.
  assert (Hslot : open_slot catd w = Some (Z.to_nat catd, cat)).
  { rewrite open_slot_slots, Hcat.
    replace (catd <? 0) with false by (symmetry; apply Z.ltb_ge; lia).
    replace (is_opened cat =? 0) with false
      by (symmetry; apply Z.eqb_neq; exact Hop).
    reflexivity. }
  unfold catgets. rewrite Hslot. split.
  - intros m Hm Hsid Hmid.
    destruct (bsearch_hit sid mid (msgs cat) m Hs Hm (conj Hsid Hmid))
      as (m' & Hb & Hin & Hk1 & Hk2).
    exists m'. rewrite Hb. auto.
  - intros Hno. rewrite (bsearch_miss sid mid (msgs cat) Hno). reflexivity.
Qed.

End Descriptors.

(** ** More of the escape transformer *)

Lemma transform_plain_char c rest :
  0 < c < 256 -> c <> chr "\" -> bytes rest ->
  transform_string (c :: rest) = emit c (transform_string rest).
Proof.
  intros Hc Hne Hrest. open_fuel 1%nat.
  loop_step. unfold fsm_step. rewrite fsm_find_row by (solve_in || lia).
  unfold fsm_row. simpl Z.eqb. cbv iota.
  replace (c =? chr "\") with false by (symmetry; apply Z.eqb_neq; exact Hne).
  cbn [mbind outcome_bind]. unfold fsm_action. simpl Z.eqb. cbv iota.
  cbn [mbind outcome_bind]. rewrite DSappendchar_one, to_char_small by lia.
  restart_after [c].
Qed.

Lemma transform_escape_char c rest :
  0 < c < 256 -> c <> chr "d" -> c <> chr "x" -> isodigit c = false ->
  bytes rest ->
  transform_string (chr "\" :: c :: rest)
  = emit (escape_char c) (transform_string rest).
Proof.
  intros Hc Hd Hx Ho Hrest. open_fuel 2%nat.
  loop_step; eval_step.
  loop_step. unfold fsm_step. rewrite fsm_find_row by (solve_in || lia).
  unfold fsm_row, escape_char. simpl Z.eqb. cbv iota. rewrite Ho.
  replace (c =? chr "d") with false by (symmetry; apply Z.eqb_neq; exact Hd).
  replace (c =? chr "x") with false by (symmetry; apply Z.eqb_neq; exact Hx).
  repeat match goal with
  | |- context [c =? ?k] =>
      let E := fresh "E" in destruct (c =? k) eqn:E
  end;
  cbn [mbind outcome_bind]; unfold fsm_action; simpl Z.eqb; cbv iota;
  cbn [mbind outcome_bind]; rewrite DSappendchar_one;
  rewrite to_char_small
    by first [ lia | vm_compute; split; [discriminate|reflexivity] ];
  restart_after [chr "\"; c].
Qed.

Lemma bytes_cons c s : 0 <= c < 256 -> bytes s -> bytes (c :: s).
Proof. intros. constructor; assumption. Qed.

(** X9.  The transformation stops at the first NUL of its input, whatever
    the input holds before it and behind it, escapes that are under way
    included: what follows the NUL has no effect.  A message without
    backslash and without NUL is left as it is. *)
Theorem transform_string_plain (s s2 : list Z) :
  bytes s ->
  transform_string (s ++ NUL :: s2) = transform_string s
  /\ ((forall c, c ∈ s -> c <> chr "\") -> (forall c, c ∈ s -> c <> NUL) ->
      transform_string s = Ret s
      /\ transform_string (s ++ NUL :: s2) = Ret s).
Proof.
  intros Hs.
  assert (Hnul : transform_string (s ++ NUL :: s2) = transform_string s).
  { rewrite !transform_string_exit.
    destruct (transform_loop_total (transform_fuel s) s 0 0 0 [] Hs)
      as (t & ip & st & ac & Hr & _).
    { solve_in. } { unfold DSlength. lia. } { unfold transform_fuel. simpl. lia. }
    rewrite (transform_string_nul s s2 _ Hr), Hr. reflexivity. }
  split; [exact Hnul|]. intros Hplain Hnz.
  assert (Hid : transform_string s = Ret s).
  { clear Hnul s2. induction Hs as [|c s Hc Hs IH]; [reflexivity|].
    rewrite transform_plain_char.
    + rewrite IH; [reflexivity| |].
      * intros x Hx. apply Hplain. apply list_elem_of_further. exact Hx.
      * intros x Hx. apply Hnz. apply list_elem_of_further. exact Hx.
    + pose proof (Hnz c (list_elem_of_here _ _)). unfold NUL in *. lia.
    + apply Hplain. apply list_elem_of_here.
    + exact Hs. }
  split; [exact Hid|]. rewrite Hnul. exact Hid.
Qed.

(** X10.  A backslash before a character that starts no numeric escape: the
    letters b, e, f, n, r, t and v stand for their control characters,
    every other character for itself, the backslash too; the rest of the
    message is transformed as usual. *)
Theorem simple_escapes (c : Z) (rest : list Z) :
  0 < c < 256 -> c <> chr "d" -> c <> chr "x" -> isodigit c = false ->
  bytes rest ->
  transform_string (chr "\" :: c :: rest)
  = emit (escape_char c) (transform_string rest)
  /\ transform_string (lit "\\" ++ rest)
     = emit (chr "\") (transform_string rest)
  /\ transform_string (lit "\n" ++ rest) = emit NL (transform_string rest)
  /\ transform_string (lit "\t" ++ rest) = emit 9 (transform_string rest).
Proof.
  intros Hc Hd Hx Ho Hrest.
  split; [apply transform_escape_char; assumption|].
  split; [|split].
  - change (lit "\\" ++ rest) with (chr "\" :: chr "\" :: rest).
    change (chr "\") with (escape_char (chr "\")) at 3.
    apply transform_escape_char;
      [vm_compute; split; reflexivity
      |vm_compute; discriminate|vm_compute; discriminate|reflexivity|exact Hrest].
  - change (lit "\n" ++ rest) with (chr "\" :: chr "n" :: rest).
    change NL with (escape_char (chr "n")).
    apply transform_escape_char;
      [vm_compute; split; reflexivity
      |vm_compute; discriminate|vm_compute; discriminate|reflexivity|exact Hrest].
  - change (lit "\t" ++ rest) with (chr "\" :: chr "t" :: rest).
    change 9 with (escape_char (chr "t")).
    apply transform_escape_char;
      [vm_compute; split; reflexivity
      |vm_compute; discriminate|vm_compute; discriminate|reflexivity|exact Hrest].
Qed.

Lemma wrap_int_mod z : wrap_int z mod 256 = z mod 256.
Proof.
  unfold wrap_int, INT_BITS. change (32 - 1) with 31.
  pose proof (Z.div_mod (z + 2 ^ 31) (2 ^ 32) ltac:(lia)) as H.
  replace ((z + 2 ^ 31) mod 2 ^ 32 - 2 ^ 31)
    with (z + (- ((z + 2 ^ 31) / 2 ^ 32) * 2 ^ 24) * 256) by lia.
  apply Z.mod_add. lia.
Qed.

Lemma hex_accum_mod hs a b :
  a mod 256 = b mod 256 ->
  to_char (hex_accum a hs)
  = fold_left (fun a h => 16 * a + hex_digit h) hs b mod 256.
Proof.
  revert a b. induction hs as [|h hs IH]; intros a b Hab.
  { exact Hab. }
  cbn [hex_accum fold_left]. apply IH.
  rewrite wrap_int_mod, Z.shiftl_mul_pow2 by lia. change (2 ^ 4) with 16.
  rewrite (Z.add_mod (a * 16)), (Z.add_mod (16 * b)) by lia.
  rewrite (Z.mul_mod a 16), (Z.mul_mod 16 b), Hab by lia.
  rewrite (Z.mul_comm (b mod 256)). reflexivity.
Qed.

(** X11.  A hexadecimal escape: a backslash, [x] and a run of hexadecimal
    digits of any length, with a character behind that is none.  The
    escape emits one byte, the low eight bits of the number the digits
    write; without any digit that is the byte 0.  The character behind the
    run is read again as the start of the rest. *)
Theorem hex_escape (hs : list Z) (c : Z) (rest : list Z) :
  Forall (fun h => isxdigit h = true) hs ->
  0 < c < 256 -> isxdigit c = false -> bytes rest ->
  transform_string (lit "\x" ++ hs ++ c :: rest)
  = emit (hex_value hs mod 256) (transform_string (c :: rest)).
Proof.
  intros Hhs Hc Hx Hrest.
  assert (Hs : bytes (c :: rest)) by (constructor; [lia|assumption]).
  rewrite transform_string_exit.
  replace (transform_fuel _)
    with (2 + (length hs + S (2 * length rest + length hs + 5)))%nat
    by (unfold transform_fuel; simpl length; rewrite length_app; simpl length; lia).
  cbn [Nat.add lit list_ascii_of_string map app].
  do 2 (loop_step; eval_step).
  change (chr "\" :: chr "x" :: hs ++ c :: rest)
    with (lit "\x" ++ hs ++ c :: rest).
  change (0 + 1 + 1) with (Z.of_nat (length (lit "\x"))).
  rewrite hex_run by exact Hhs.
  rewrite (transform_loop_step _ _ _ c).
  - rewrite fsm_step_retain by (auto; lia). cbn [mbind outcome_bind].
    rewrite DSappendchar_one, (hex_accum_mod hs 0 0 eq_refl).
    fold (hex_value hs).
    assert (Hf : (transform_fuel (c :: rest)
                  <= 2 * length rest + length hs + 5)%nat)
      by (unfold transform_fuel; simpl length; lia).
    exact (transform_loop_restart _ (lit "\x" ++ hs) (c :: rest) 0 _ Hs Hf).
  - lia.
  - rewrite Nat2Z.id. change (lit "\x" ++ hs ++ c :: rest)
      with ((lit "\x" ++ hs) ++ c :: rest) at 1.
    rewrite lookup_app_r by (simpl; lia).
    replace (length (lit "\x") + length hs - length (lit "\x" ++ hs))%nat
      with 0%nat by (simpl; lia).
    reflexivity.
  - unfold NUL. lia.
Qed.


(** What a turn of the loop keeps: the output is made of bytes and, with
    one more for an escape under way, has not overtaken the input. *)
Lemma fsm_step_length st accum c t ip next accum' t' ip' :
  st ∈ fsm_states -> 0 < c < 256 -> bytes t ->
  fsm_step st accum c t ip = Ret (next, accum', t', ip') ->
  next ∈ fsm_states /\ bytes t'
  /\ Z.of_nat (length t') + (if next =? 0 then 0 else 1) - ip'
     <= Z.of_nat (length t) + (if st =? 0 then 0 else 1) - ip.
Proof.
  intros Hst Hc Ht. unfold fsm_step. rewrite fsm_find_row by assumption.
  assert (Happ : forall z, bytes (DSappendchar t z 1)).
  { intros z. rewrite DSappendchar_one. apply Forall_app. split; [exact Ht|].
    constructor; [apply to_char_byte|constructor]. }
  assert (Hlen : forall z, length (DSappendchar t z 1) = S (length t)).
  { intros z. rewrite DSappendchar_one, length_app. simpl. lia. }
  split_states Hst; unfold fsm_row; simpl Z.eqb; cbv iota;
    repeat match goal with
    | |- context [if ?b then _ else _] =>
        lazymatch b with
        | context [if _ then _ else _] => fail
        | _ => destruct b eqn:?
        end
    end;
    cbn [mbind outcome_bind]; unfold fsm_action; simpl Z.eqb; cbv iota;
    try (destruct (isxdigit_hexits c) as [k Hk]; [assumption|]; rewrite Hk);
    cbn [mbind outcome_bind]; intros [= <- <- <- <-];
    (split; [solve_in|split; [first [exact Ht|apply Happ]|]]);
    rewrite ?Hlen; simpl Z.eqb; cbv iota; lia.
Qed.

Lemma transform_loop_length fuel s ip st accum t t' ip' st' accum' :
  bytes s -> st ∈ fsm_states -> bytes t -> 0 <= ip <= DSlength s ->
  transform_loop fuel s ip st accum t = Ret (t', ip', st', accum') ->
  bytes t' /\ ip' <= DSlength s
  /\ Z.of_nat (length t') + (if st' =? 0 then 0 else 1) - ip'
     <= Z.of_nat (length t) + (if st =? 0 then 0 else 1) - ip.
Proof.
  intros Hs. revert ip st accum t.
  induction fuel as [|fuel IH]; intros ip st accum t Hst Ht Hip; [discriminate|].
  cbn [transform_loop].
  destruct (ip <? DSlength s) eqn:Hlt.
  - apply Z.ltb_lt in Hlt. rewrite DSget_at_lookup by lia.
    destruct (s !! Z.to_nat ip) as [c|] eqn:Hc; [|discriminate].
    cbn [mbind outcome_bind].
    destruct (c =? NUL) eqn:Hnul.
    { intros [= <- <- <- <-]. repeat split; [exact Ht|lia|lia]. }
    apply Z.eqb_neq in Hnul. pose proof (bytes_lookup _ _ _ Hs Hc) as Hb.
    destruct (fsm_step st accum c t ip) as [[[[nx ac] t1] ip1]|] eqn:Hstep;
      [|discriminate].
    cbn [mbind outcome_bind]. intros Hrun.
    pose proof (fsm_step_ip _ _ _ _ _ _ _ _ _ Hstep) as Hip1.
    apply fsm_step_length in Hstep as (Hnx & Ht1 & Hl);
      [|assumption|unfold NUL in *; lia|assumption].
    apply IH in Hrun as (Ht' & Hip' & Hl'); [|assumption|assumption|lia].
    repeat split; [exact Ht'|exact Hip'|lia].
  - intros [= <- <- <- <-]. repeat split; [exact Ht|lia|lia].
Qed.

(** X12.  [transform_string] always returns on a message made of bytes, and
    what it returns is made of bytes and is never longer than the
    message: every escape takes at least as many characters as it
    emits. *)
Theorem transform_string_shorter (s : list Z) :
  bytes s ->
  exists t, transform_string s = Ret t /\ bytes t
            /\ (length t <= length s)%nat.
Proof.
  intros Hs. rewrite transform_string_exit.
  destruct (transform_loop_total (transform_fuel s) s 0 0 0 [] Hs)
    as (t & ip & st & ac & Hr & _).
  { solve_in. } { unfold DSlength. lia. } { unfold transform_fuel. simpl. lia. }
  rewrite Hr. exists t. split; [reflexivity|].
  apply transform_loop_length in Hr as (Ht & Hip & Hl);
    [|assumption|solve_in|constructor|unfold DSlength; lia].
  split; [exact Ht|]. unfold DSlength in *. simpl in Hl.
  destruct (st =? 0); lia.
Qed.

(** ** Reading lines *)

Lemma decide_true (P : Prop) `{Decision P} : bool_decide P = true -> P.
Proof. apply bool_decide_eq_true_1. Qed.

Ltac decided :=
  match goal with
  | |- ?P => apply (@decide_true P _); vm_compute; reflexivity
  end.


Lemma fgets_chars_short n line rest :
  NL ∉ line -> (length line < n)%nat ->
  fgets_chars n (line ++ NL :: rest) = (line ++ [NL], rest).
Proof.
  revert n. induction line as [|c line IH]; intros n Hnl Hn.
  - destruct n; [simpl in Hn; lia|]. reflexivity.
  - apply not_elem_of_cons in Hnl as [Hc Hnl].
    destruct n; [simpl in Hn; lia|]. simpl in Hn. cbn [fgets_chars app].
    replace (c =? NL) with false by (symmetry; apply Z.eqb_neq; congruence).
    rewrite IH by (assumption || lia). reflexivity.
Qed.

Lemma fgets_chars_long n line tail :
  NL ∉ line -> (n <= length line)%nat ->
  fgets_chars n (line ++ tail) = (take n line, drop n line ++ tail).
Proof.
  revert n. induction line as [|c line IH]; intros n Hnl Hn.
  - simpl in Hn. replace n with 0%nat by lia. reflexivity.
  - apply not_elem_of_cons in Hnl as [Hc Hnl].
    destruct n; [reflexivity|]. simpl in Hn. cbn [fgets_chars app take drop].
    replace (c =? NL) with false by (symmetry; apply Z.eqb_neq; congruence).
    rewrite IH by (assumption || lia). reflexivity.
Qed.

Lemma fgets_chars_eof n line :
  NL ∉ line -> (length line <= n)%nat -> fgets_chars n line = (line, []).
Proof.
  revert n. induction line as [|c line IH]; intros n Hnl Hn.
  - destruct n; reflexivity.
  - apply not_elem_of_cons in Hnl as [Hc Hnl].
    destruct n; [simpl in Hn; lia|]. simpl in Hn. cbn [fgets_chars].
    replace (c =? NL) with false by (symmetry; apply Z.eqb_neq; congruence).
    rewrite IH by (assumption || lia). reflexivity.
Qed.

Lemma c_str_id s : NUL ∉ s -> c_str s = s.
Proof.
  induction s as [|c s IH]; intros H; [reflexivity|].
  apply not_elem_of_cons in H as [Hc H]. simpl.
  replace (c =? NUL) with false by (symmetry; apply Z.eqb_neq; congruence).
  rewrite IH by assumption. reflexivity.
Qed.

Lemma size_wrap_small z : 0 <= z <= NPOS -> size_wrap z = z.
Proof.
  unfold size_wrap, NPOS. intros H. apply Z.mod_small. lia.
Qed.

Lemma DSget_at_last s c :
  DSlength (s ++ [c]) <= NPOS ->
  DSget_at (s ++ [c]) (size_wrap (DSlength (s ++ [c]) - 1)) = Ret c.
Proof.
  unfold DSlength. rewrite length_app. simpl length. intros Hn.
  rewrite size_wrap_small by lia.
  rewrite DSget_at_lookup by lia.
  replace (Z.to_nat (Z.of_nat (length s + 1) - 1)) with (length s) by lia.
  rewrite lookup_app_r by lia. rewrite Nat.sub_diag. reflexivity.
Qed.

Lemma fgets_nonempty n c f : fgets n (c :: f) = Some (fgets_chars (n - 1) (c :: f)).
Proof. reflexivity. Qed.

Lemma append_from_file_loop_unfold fuel f s :
  append_from_file_loop (S fuel) f s
  = match fgets BUFSIZ f with
    | None => Ret (s, f)
    | Some (buffer, f') =>
        let s := DSappendcstr s buffer NPOS in
        c ← DSget_at s (size_wrap (DSlength s - 1));
        if c =? NL then Ret (s, f') else append_from_file_loop fuel f' s
    end.
Proof. reflexivity. Qed.

Lemma BUFSIZ_pos : (0 < BUFSIZ - 1)%nat.
Proof. vm_compute. lia. Qed.

Lemma not_elem_of_take {A} (x : A) n l : x ∉ l -> x ∉ take n l.
Proof.
  intros H Hx. apply H. rewrite <- (take_drop n l). apply elem_of_app. auto.
Qed.

Lemma not_elem_of_drop {A} (x : A) n l : x ∉ l -> x ∉ drop n l.
Proof.
  intros H Hx. apply H. rewrite <- (take_drop n l). apply elem_of_app. auto.
Qed.

(** A chunk that does not end the line is appended and the loop goes on. *)
Lemma append_from_file_loop_chunk fuel line tail s :
  NL ∉ line -> NUL ∉ line -> (BUFSIZ - 1 <= length line)%nat ->
  DSlength s + Z.of_nat (length line) <= NPOS ->
  append_from_file_loop (S fuel) (line ++ tail) s
  = append_from_file_loop fuel (drop (BUFSIZ - 1) line ++ tail)
      (s ++ take (BUFSIZ - 1) line).
Proof.
  intros Hnl Hnul Hlen Hsize. pose proof BUFSIZ_pos as Hpos.
  rewrite append_from_file_loop_unfold.
  set (n := (BUFSIZ - 1)%nat) in *.
  destruct line as [|c line]; [simpl in Hlen; lia|].
  change ((c :: line) ++ tail) with (c :: (line ++ tail)).
  rewrite fgets_nonempty. fold n.
  change (c :: (line ++ tail)) with ((c :: line) ++ tail).
  rewrite fgets_chars_long by assumption.
  cbv zeta. rewrite DSappendcstr_all, c_str_id by (apply not_elem_of_take, Hnul).
  destruct (take n (c :: line)) as [|x chunk] eqn:Hchunk using rev_ind.
  { apply (f_equal length) in Hchunk. rewrite length_take in Hchunk.
    simpl in Hchunk. lia. }
  clear IHchunk.
  assert (Hx : x ∈ take n (c :: line)).
  { rewrite Hchunk. apply elem_of_app. right. apply list_elem_of_here. }
  assert (Hlc : (length (chunk ++ [x]) <= length (c :: line))%nat).
  { rewrite <- Hchunk, length_take. lia. }
  rewrite app_assoc.
  rewrite DSget_at_last.
  - cbn [mbind outcome_bind].
    replace (x =? NL) with false; [reflexivity|].
    symmetry. apply Z.eqb_neq. intros ->.
    exact (not_elem_of_take _ _ _ Hnl Hx).
  - unfold DSlength in *. rewrite <- app_assoc, length_app. lia.
Qed.

Lemma fgets_cons n line rest :
  fgets n (line ++ NL :: rest) = Some (fgets_chars (n - 1) (line ++ NL :: rest)).
Proof. destruct line; reflexivity. Qed.

Lemma append_from_file_loop_line fuel line rest s :
  NL ∉ line -> NUL ∉ line -> (length line < fuel)%nat ->
  DSlength s + Z.of_nat (length line) < NPOS ->
  append_from_file_loop fuel (line ++ NL :: rest) s
  = Ret (s ++ line ++ [NL], rest).
Proof.
  revert line s. induction fuel as [|fuel IH]; intros line s Hnl Hnul Hf Hsize;
    [lia|].
  pose proof BUFSIZ_pos as Hpos.
  destruct (decide (length line < BUFSIZ - 1)%nat) as [Hshort|Hlong].
  - rewrite append_from_file_loop_unfold, fgets_cons.
    rewrite fgets_chars_short by assumption. cbv zeta.
    rewrite DSappendcstr_all, c_str_id.
    + rewrite app_assoc, DSget_at_last.
      * reflexivity.
      * unfold DSlength in *. rewrite !length_app. simpl length. lia.
    + intros H. apply elem_of_app in H as [H|H]; [exact (Hnul H)|].
      apply list_elem_of_singleton in H. discriminate H.
  - rewrite append_from_file_loop_chunk by (assumption || lia).
    rewrite IH.
    + rewrite <- !app_assoc, (app_assoc (take _ _)), take_drop. reflexivity.
    + apply not_elem_of_drop, Hnl.
    + apply not_elem_of_drop, Hnul.
    + rewrite length_drop. lia.
    + unfold DSlength in *. rewrite length_app, length_take, length_drop. lia.
Qed.

Lemma append_from_file_loop_eof fuel line s :
  NL ∉ line -> NUL ∉ line -> (length line < fuel)%nat ->
  DSlength s + Z.of_nat (length line) <= NPOS ->
  append_from_file_loop fuel line s = Ret (s ++ line, []).
Proof.
  revert line s. induction fuel as [|fuel IH]; intros line s Hnl Hnul Hf Hsize;
    [lia|].
  pose proof BUFSIZ_pos as Hpos.
  destruct line as [|c line] using rev_ind.
  { rewrite app_nil_r. reflexivity. }
  clear IHline.
  destruct (decide (length (line ++ [c]) <= BUFSIZ - 1)%nat) as [Hshort|Hlong].
  - rewrite append_from_file_loop_unfold.
    assert (Hne : exists x f, line ++ [c] = x :: f)
      by (destruct line; simpl; eauto).
    destruct Hne as (x & f & Hxf). rewrite Hxf at 1. rewrite fgets_nonempty.
    rewrite <- Hxf. rewrite fgets_chars_eof by assumption. cbv zeta.
    rewrite DSappendcstr_all, c_str_id by assumption.
    rewrite app_assoc, DSget_at_last.
    + cbn [mbind outcome_bind].
      replace (c =? NL) with false.
      * destruct fuel; [rewrite length_app in Hf; simpl in Hf; lia|].
        reflexivity.
      * symmetry. apply Z.eqb_neq. intros ->. apply Hnl.
        apply elem_of_app. right. apply list_elem_of_here.
    + unfold DSlength in *. rewrite <- app_assoc, length_app. lia.
  - pose proof (append_from_file_loop_chunk fuel (line ++ [c]) [] s Hnl Hnul)
      as Hchunk.
    rewrite !app_nil_r in Hchunk. rewrite Hchunk by lia.
    rewrite IH.
    + rewrite <- app_assoc, take_drop. reflexivity.
    + apply not_elem_of_drop, Hnl.
    + apply not_elem_of_drop, Hnul.
    + rewrite length_drop. lia.
    + unfold DSlength in *. rewrite length_app, length_take, length_drop. lia.
Qed.

(** X13.  [append_from_file] reads a whole line, however long: the buffer of
    [BUFSIZ] characters cuts it into chunks that are put together again.
    The line ends behind its newline or, without one, at the end of the
    file.  The line must be free of NUL, where the copy of a chunk stops. *)
Theorem append_from_file_line (line rest : list Z) (s : list Z) :
  NL ∉ line -> NUL ∉ line ->
  DSlength s + Z.of_nat (length line) < NPOS ->
  append_from_file (line ++ NL :: rest) s = Ret (s ++ line ++ [NL], rest)
  /\ append_from_file line s = Ret (s ++ line, []).
Proof.
  intros Hnl Hnul Hsize. unfold append_from_file. split.
  - apply append_from_file_loop_line; try assumption.
    rewrite length_app. simpl. lia.
  - apply append_from_file_loop_eof; try assumption; lia.
Qed.

(** ** The lines of a catalogue file *)

Lemma find_first_not_of_ltrim s i :
  match find_first_not_of s blanks i with
  | Some k => (i <= k < i + length s)%nat /\ drop (k - i) s = ltrim s
  | None => ltrim s = []
  end.
Proof.
  revert i. induction s as [|c s IH]; intros i; [reflexivity|].
  cbn [find_first_not_of ltrim]. destruct (in_set blanks c).
  - specialize (IH (S i)). destruct (find_first_not_of s blanks (S i)) as [k|].
    + destruct IH as [Hk Hd]. split; [simpl; lia|].
      replace (k - i)%nat with (S (k - S i)) by lia. exact Hd.
    + exact IH.
  - split; [simpl; lia|]. rewrite Nat.sub_diag. reflexivity.
Qed.

Lemma find_last_not_of_rtrim s i :
  match find_last_not_of s blanks i with
  | Some k => (i <= k < i + length s)%nat /\ take (S (k - i)) s = rtrim s
  | None => rtrim s = []
  end.
Proof.
  revert i. induction s as [|c s IH]; intros i; [reflexivity|].
  cbn [find_last_not_of rtrim]. specialize (IH (S i)).
  destruct (find_last_not_of s blanks (S i)) as [k|].
  - destruct IH as [Hk Ht]. split; [simpl; lia|].
    replace (S (k - i)) with (S (S (k - S i))) by lia.
    rewrite <- Ht. destruct s as [|d s]; [simpl in Hk; lia|]. reflexivity.
  - rewrite IH. destruct (in_set blanks c); [reflexivity|].
    split; [simpl; lia|]. rewrite Nat.sub_diag. reflexivity.
Qed.

Lemma ltrim_length s : (length (ltrim s) <= length s)%nat.
Proof.
  induction s as [|c s IH]; simpl; [lia|]. destruct (in_set blanks c); simpl; lia.
Qed.

(** The four calls that take the blanks off a line. *)
Lemma trim_code (s : list Z) :
  DSlength s <= NPOS ->
  (s1 ← DSremove s 0 (DSfind_first_not_of s blanks 0);
   Ret (DSresize s1 (size_wrap (DSfind_last_not_of s1 blanks + 1)) 0))
  = Ret (trimmed s).
Proof.
  intros Hsize. unfold DSlength in Hsize.
  assert (Hrm : DSremove s 0 (DSfind_first_not_of s blanks 0) = Ret (ltrim s)).
  { unfold DSremove, DSfind_first_not_of, DSlength, clip.
    replace (Z.of_nat (length s) <? 0) with false by (symmetry; apply Z.ltb_ge; lia).
    change (drop (Z.to_nat 0) s) with s. change (Z.to_nat 0) with 0%nat.
    pose proof (find_first_not_of_ltrim s 0) as H.
    destruct (find_first_not_of s blanks 0) as [k|].
    - destruct H as [Hk Hd]. rewrite Nat.sub_0_r in Hd.
      replace (NPOS <=? Z.of_nat k) with false by (symmetry; apply Z.leb_gt; lia).
      rewrite Z.min_l by lia. cbn [take app]. rewrite Z.add_0_l, Nat2Z.id, Hd.
      reflexivity.
    - rewrite Z.leb_refl. cbn [take app].
      rewrite Z.add_0_l, Z.sub_0_r, Nat2Z.id, drop_all, H.
      reflexivity. }
  rewrite Hrm. cbn [mbind outcome_bind]. f_equal.
  pose proof (ltrim_length s) as Hl. unfold trimmed.
  unfold DSfind_last_not_of, DSresize.
  pose proof (find_last_not_of_rtrim (ltrim s) 0) as H.
  destruct (find_last_not_of (ltrim s) blanks 0) as [k|].
  - destruct H as [Hk Ht]. rewrite Nat.sub_0_r in Ht.
    rewrite size_wrap_small by lia.
    replace (Z.to_nat (Z.of_nat k + 1)) with (S k) by lia.
    replace (S k - length (ltrim s))%nat with 0%nat by lia.
    rewrite Ht. simpl. apply app_nil_r.
  - unfold size_wrap, NPOS.
    replace (2 ^ SIZE_BITS - 1 + 1) with (2 ^ SIZE_BITS) by lia.
    rewrite Z.mod_same by (unfold SIZE_BITS; lia). rewrite H. reflexivity.
Qed.

Lemma DSresize_drop_last (s : list Z) x :
  DSlength (s ++ [x]) <= NPOS ->
  DSresize (s ++ [x]) (size_wrap (DSlength (s ++ [x]) - 1)) 0 = s.
Proof.
  unfold DSlength, DSresize. rewrite length_app. simpl length. intros H.
  rewrite size_wrap_small by lia.
  replace (Z.to_nat (Z.of_nat (length s + 1) - 1)) with (length s) by lia.
  rewrite take_app_length.
  replace (length s - (length s + 1))%nat with 0%nat by lia.
  simpl. apply app_nil_r.
Qed.

Lemma DSresize_zero (s : list Z) c : DSresize s 0 c = [].
Proof. reflexivity. Qed.

(** The first step of [catread_line]: the last character of the line goes
    and the blanks at both ends. *)
Lemma catread_line_trimmed f line x t cat catmsg :
  DSlength (line ++ [x]) <= NPOS ->
  catread_line f (line ++ [x]) t cat catmsg
  = let s := trimmed line in
    last ← (if 0 <? DSlength s then DSget_at s (size_wrap (DSlength s - 1))
            else Ret NUL);
    if (0 <? DSlength s) && (last =? chr "\") then
      Ret (mk_catread_state f (DSresize s (size_wrap (DSlength s - 1)) 0)
             t cat catmsg)
    else
      first ← (if 0 <? DSlength s then DSget_at s 0 else Ret NUL);
      if (0 <? DSlength s) && isdigit first then
        '(sid, z) ← read_id (S (length s)) s 0 0;
        let z := z + 1 in
        '(mid, z) ← read_id (S (length s)) s z 0;
        let z := z + 1 in
        s ← DSremove s 0 z;
        t ← transform_string s;
        let catmsg := mk_message sid mid (DSassign t 0 NPOS) in
        let cat := match cat with
                   | None => mk_catalog 0 _CATMSG_create
                   | Some cat => cat
                   end in
        let cat := mk_catalog (is_opened cat) (_CATMSG_append (msgs cat) catmsg) in
        Ret (mk_catread_state f (DSresize s 0 0) t (Some cat) catmsg)
      else
        Ret (mk_catread_state f (DSresize s 0 0) t cat catmsg).
Proof.
  intros Hsize. unfold catread_line. cbv zeta.
  rewrite DSresize_drop_last by exact Hsize.
  assert (Hl : DSlength line <= NPOS).
  { unfold DSlength in *. rewrite length_app in Hsize. lia. }
  replace (if 0 <? DSlength line
           then s ← DSremove line 0 (DSfind_first_not_of line blanks 0);
                Ret (DSresize s (size_wrap (DSfind_last_not_of s blanks + 1)) 0)
           else Ret line) with (Ret (trimmed line) : outcome (list Z)).
  - reflexivity.
  - destruct (0 <? DSlength line) eqn:E.
    + symmetry. apply trim_code. exact Hl.
    + apply Z.ltb_ge in E. unfold DSlength in E.
      destruct line; [reflexivity|simpl in E; lia].
Qed.

Lemma rtrim_length s : (length (rtrim s) <= length s)%nat.
Proof.
  induction s as [|c s IH]; simpl; [lia|].
  destruct (rtrim s); [destruct (in_set blanks c)|]; simpl in *; lia.
Qed.

Lemma trimmed_length s : (length (trimmed s) <= length s)%nat.
Proof.
  unfold trimmed. pose proof (rtrim_length (ltrim s)). pose proof (ltrim_length s).
  lia.
Qed.

Lemma decimal_step_le ds a :
  Forall (fun d => isdigit d = true) ds -> 0 <= a ->
  a <= fold_left (fun a d => 10 * a + (d - chr "0")) ds a.
Proof.
  intros Hds. revert a. induction Hds as [|d ds Hd Hds IH]; intros a Ha; simpl.
  { lia. }
  apply isdigit_range in Hd. change (chr "0") with 48.
  specialize (IH (10 * a + (d - 48)) ltac:(lia)). change (chr "0") with 48 in IH.
  lia.
Qed.

(** The loop that reads a number: without overflow it is the decimal
    value of the digits, and [z] is left at the character behind them. *)
Lemma read_id_digits fuel pre ds c tail id :
  Forall (fun d => isdigit d = true) ds -> isdigit c = false ->
  (length ds < fuel)%nat -> 0 <= id ->
  fold_left (fun a d => 10 * a + (d - chr "0")) ds id < 2 ^ 31 ->
  read_id fuel (pre ++ ds ++ c :: tail) (Z.of_nat (length pre)) id
  = Ret (fold_left (fun a d => 10 * a + (d - chr "0")) ds id,
         Z.of_nat (length pre + length ds)).
Proof.
  intros Hds Hc. revert fuel pre id.
  induction Hds as [|d ds Hd Hds IH]; intros fuel pre id Hf Hid Hv.
  - destruct fuel; [simpl in Hf; lia|]. cbn [read_id].
    rewrite DSget_at_lookup by lia. rewrite Nat2Z.id.
    rewrite lookup_app_r by lia. rewrite Nat.sub_diag. cbn [app lookup list_lookup].
    cbn [mbind outcome_bind]. rewrite Hc. simpl. rewrite Nat.add_0_r. reflexivity.
  - destruct fuel; [simpl in Hf; lia|]. cbn [read_id].
    rewrite DSget_at_lookup by lia. rewrite Nat2Z.id.
    rewrite lookup_app_r by lia. rewrite Nat.sub_diag. cbn [app lookup list_lookup].
    cbn [mbind outcome_bind]. rewrite Hd.
    cbn [fold_left] in Hv |- *.
    pose proof (proj1 (isdigit_range d) Hd) as Hr.
    pose proof (decimal_step_le ds (10 * id + (d - chr "0")) Hds) as Hle.
    change (chr "0") with 48 in *.
    rewrite wrap_int_small by lia.
    replace (pre ++ d :: ds ++ c :: tail) with ((pre ++ [d]) ++ ds ++ c :: tail)
      by (rewrite <- app_assoc; reflexivity).
    replace (Z.of_nat (length pre) + 1) with (Z.of_nat (length (pre ++ [d])))
      by (rewrite length_app; simpl; lia).
    replace (id * 10 + (d - 48)) with (10 * id + (d - 48)) by lia.
    rewrite IH.
    + rewrite length_app. simpl length.
      replace (length pre + 1 + length ds)%nat with (length pre + S (length ds))%nat
        by lia.
      reflexivity.
    + simpl in Hf. lia.
    + lia.
    + exact Hv.
Qed.

Lemma DSremove_prefix (p q : list Z) :
  Z.of_nat (length p) < NPOS ->
  DSremove (p ++ q) 0 (Z.of_nat (length p)) = Ret q.
Proof.
  intros Hp. unfold DSremove, DSlength, clip.
  replace (Z.of_nat (length (p ++ q)) <? 0) with false
    by (symmetry; apply Z.ltb_ge; lia).
  replace (NPOS <=? Z.of_nat (length p)) with false
    by (symmetry; apply Z.leb_gt; lia).
  rewrite length_app, Z.min_l by lia. cbn [take app].
  rewrite Z.add_0_l, Nat2Z.id, drop_app_length. reflexivity.
Qed.

Lemma DSassign_all (t : list Z) : DSassign t 0 NPOS = t.
Proof.
  unfold DSassign, clip. rewrite Z.leb_refl. simpl drop.
  rewrite Z.sub_0_r. unfold DSlength. rewrite Nat2Z.id. apply firstn_all.
Qed.

Lemma DSget_at_head (c : Z) (s : list Z) : DSget_at (c :: s) 0 = Ret c.
Proof. rewrite DSget_at_lookup by lia. reflexivity. Qed.

Lemma DSlength_pos (s : list Z) x : (0 <? DSlength (s ++ [x])) = true.
Proof.
  apply Z.ltb_lt. unfold DSlength. rewrite length_app. simpl. lia.
Qed.

Lemma DSget_at_end (s : list Z) :
  s <> [] -> DSlength s <= NPOS ->
  DSget_at s (size_wrap (DSlength s - 1))
  = match last s with Some c => Ret c | None => Fault RangeError end.
Proof.
  intros Hne Hl. destruct s as [|y b] using rev_ind; [congruence|].
  rewrite DSget_at_last by exact Hl. rewrite last_snoc. reflexivity.
Qed.

(** A line that ends in a backslash is kept, without the backslash, for
    the next line to be appended. *)
Lemma catread_line_continued f line x t cat catmsg b :
  DSlength (line ++ [x]) <= NPOS ->
  trimmed line = b ++ [chr "\"] ->
  catread_line f (line ++ [x]) t cat catmsg
  = Ret (mk_catread_state f b t cat catmsg).
Proof.
  intros Hsize Hb. rewrite catread_line_trimmed by exact Hsize. cbv zeta.
  assert (Hl : DSlength (b ++ [chr "\"]) <= NPOS).
  { rewrite <- Hb. pose proof (trimmed_length line). unfold DSlength in *.
    rewrite length_app in Hsize. lia. }
  rewrite Hb, DSlength_pos, DSget_at_last by exact Hl.
  cbn [mbind outcome_bind]. rewrite Z.eqb_refl. cbn [andb].
  rewrite DSresize_drop_last by exact Hl. reflexivity.
Qed.

(** A line that is empty or starts with no digit is passed over. *)
Lemma catread_line_skipped f line x t cat catmsg :
  DSlength (line ++ [x]) <= NPOS ->
  last (trimmed line) <> Some (chr "\") ->
  (forall c, head (trimmed line) = Some c -> isdigit c = false) ->
  catread_line f (line ++ [x]) t cat catmsg
  = Ret (mk_catread_state f [] t cat catmsg).
Proof.
  intros Hsize Hlast Hhead. rewrite catread_line_trimmed by exact Hsize.
  cbv zeta.
  assert (Hl : DSlength (trimmed line) <= NPOS).
  { pose proof (trimmed_length line). unfold DSlength in *.
    rewrite length_app in Hsize. lia. }
  destruct (trimmed line) as [|y b] eqn:Hb using rev_ind.
  { reflexivity. }
  clear IHb. rewrite DSlength_pos, DSget_at_last by exact Hl.
  cbn [mbind outcome_bind].
  replace (y =? chr "\") with false.
  2:{ symmetry. apply Z.eqb_neq. intros ->. apply Hlast. apply last_snoc. }
  cbn [andb].
  destruct (b ++ [y]) as [|c r] eqn:Hcr; [destruct b; discriminate|].
  rewrite DSget_at_head. cbn [mbind outcome_bind].
  rewrite (Hhead c eq_refl). reflexivity.
Qed.

(** A line that starts with a digit is a message: a number, one
    character, a number, one character and the text.  The text goes
    through [transform_string]; a copy of the message is appended to the
    catalogue, which is allocated at the first message. *)
Lemma catread_line_message f line x t cat catmsg ds1 c1 ds2 c2 text t' :
  DSlength (line ++ [x]) <= NPOS ->
  trimmed line = ds1 ++ c1 :: ds2 ++ c2 :: text ->
  ds1 <> [] ->
  Forall (fun d => isdigit d = true) ds1 ->
  Forall (fun d => isdigit d = true) ds2 ->
  isdigit c1 = false -> isdigit c2 = false ->
  decimal ds1 < 2 ^ 31 -> decimal ds2 < 2 ^ 31 ->
  last (trimmed line) <> Some (chr "\") ->
  transform_string text = Ret t' ->
  catread_line f (line ++ [x]) t cat catmsg
  = let m := mk_message (decimal ds1) (decimal ds2) t' in
    Ret (mk_catread_state f [] t' (Some (with_message cat m)) m).
Proof.
  intros Hsize Hb Hne H1 H2 Hc1 Hc2 Hv1 Hv2 Hlast Ht.
  rewrite catread_line_trimmed by exact Hsize. cbv zeta.
  assert (Hl : DSlength (trimmed line) < NPOS).
  { pose proof (trimmed_length line). unfold DSlength in *.
    rewrite length_app in Hsize. simpl length in Hsize. lia. }
  destruct ds1 as [|d ds1]; [congruence|].
  rewrite DSget_at_end by first [lia | rewrite Hb; discriminate].
  replace (0 <? DSlength (trimmed line)) with true
    by (rewrite Hb; reflexivity).
  destruct (last (trimmed line)) as [y|] eqn:Hy.
  2:{ rewrite Hb in Hy. apply last_None in Hy. discriminate. }
  cbn [mbind outcome_bind].
  replace (y =? chr "\") with false
    by (symmetry; apply Z.eqb_neq; congruence).
  cbn [andb]. rewrite Hb in Hl |- *. clear Hb Hy Hlast.
  replace (DSget_at ((d :: ds1) ++ c1 :: ds2 ++ c2 :: text) 0)
    with (Ret d : outcome Z)
    by (symmetry; exact (DSget_at_head d (ds1 ++ c1 :: ds2 ++ c2 :: text))).
  cbn [mbind outcome_bind].
  rewrite (Forall_inv H1). cbn [andb].
  set (n := S (length ((d :: ds1) ++ c1 :: ds2 ++ c2 :: text))).
  assert (Hlen : length ((d :: ds1) ++ c1 :: ds2 ++ c2 :: text)
                 = (length (d :: ds1) + S (length ds2 + S (length text)))%nat).
  { rewrite length_app. simpl length. rewrite length_app. reflexivity. }
  unfold DSlength in Hl. rewrite Hlen in Hl.
  pose proof (read_id_digits n [] (d :: ds1) c1 (ds2 ++ c2 :: text) 0 H1 Hc1)
    as R1.
  rewrite app_nil_l in R1. change (Z.of_nat (length [])) with 0 in R1.
  rewrite R1; [|subst n; rewrite Hlen; lia|lia|exact Hv1].
  cbn [mbind outcome_bind].
  pose proof (read_id_digits n ((d :: ds1) ++ [c1]) ds2 c2 text 0 H2 Hc2) as R2.
  rewrite <- app_assoc in R2. change ([c1] ++ ds2 ++ c2 :: text)
    with (c1 :: ds2 ++ c2 :: text) in R2.
  replace (Z.of_nat (length [] + length (d :: ds1))%nat + 1)
    with (Z.of_nat (length ((d :: ds1) ++ [c1])))
    by (rewrite length_app; simpl length; lia).
  rewrite R2; [|subst n; rewrite Hlen; lia|lia|exact Hv2].
  cbn [mbind outcome_bind].
  replace ((d :: ds1) ++ c1 :: ds2 ++ c2 :: text)
    with ((((d :: ds1) ++ [c1]) ++ ds2 ++ [c2]) ++ text)
    by (rewrite <- !app_assoc; reflexivity).
  replace (Z.of_nat (length ((d :: ds1) ++ [c1]) + length ds2) + 1)
    with (Z.of_nat (length (((d :: ds1) ++ [c1]) ++ ds2 ++ [c2])))
    by (rewrite !length_app; simpl length; lia).
  rewrite DSremove_prefix
    by (rewrite !length_app; simpl length in *; lia).
  cbn [mbind outcome_bind]. rewrite Ht. cbn [mbind outcome_bind].
  rewrite DSassign_all. unfold with_message, _CATMSG_append, _CATMSG_create.
  destruct cat; reflexivity.
Qed.

(** X14.  What one line does to the state of the loop of [catread], once the
    newline that ends it is gone and the blanks at both ends: a line that
    ends in a backslash is kept, without the backslash, for the next line
    to be appended; a line that starts with a digit is a message, its two
    numbers each followed by one character that is no digit and the text
    behind, which goes through [transform_string]; every other line is
    passed over. *)
Theorem catread_line_cases (f line : list Z) (x : Z) (t : list Z)
    (cat : option _CAT_CATALOG_T) (catmsg : _CAT_MESSAGE_T) :
  DSlength (line ++ [x]) <= NPOS ->
  (forall b, trimmed line = b ++ [chr "\"] ->
     catread_line f (line ++ [x]) t cat catmsg
     = Ret (mk_catread_state f b t cat catmsg))
  /\ (last (trimmed line) <> Some (chr "\") ->
      (forall c, head (trimmed line) = Some c -> isdigit c = false) ->
      catread_line f (line ++ [x]) t cat catmsg
      = Ret (mk_catread_state f [] t cat catmsg))
  /\ (forall ds1 c1 ds2 c2 text t',
        trimmed line = ds1 ++ c1 :: ds2 ++ c2 :: text ->
        ds1 <> [] ->
        Forall (fun d => isdigit d = true) ds1 ->
        Forall (fun d => isdigit d = true) ds2 ->
        isdigit c1 = false -> isdigit c2 = false ->
        decimal ds1 < 2 ^ 31 -> decimal ds2 < 2 ^ 31 ->
        last (trimmed line) <> Some (chr "\") ->
        transform_string text = Ret t' ->
        catread_line f (line ++ [x]) t cat catmsg
        = Ret (mk_catread_state f [] t'
                 (Some (with_message cat
                          (mk_message (decimal ds1) (decimal ds2) t')))
                 (mk_message (decimal ds1) (decimal ds2) t'))).
Proof.
  intros Hsize. split; [|split].
  - intros b Hb. apply catread_line_continued; assumption.
  - intros Hlast Hhead. apply catread_line_skipped; assumption.
  - intros ds1 c1 ds2 c2 text t' Hb Hne H1 H2 Hc1 Hc2 Hv1 Hv2 Hlast Ht.
    exact (catread_line_message f line x t cat catmsg ds1 c1 ds2 c2 text t'
             Hsize Hb Hne H1 H2 Hc1 Hc2 Hv1 Hv2 Hlast Ht).
Qed.

(** *** Lines in a file *)

Lemma catread_loop_more_fuel n m st :
  in_time (catread_loop n st) -> (n <= m)%nat ->
  catread_loop m st = catread_loop n st.
Proof.
  revert m st. induction n as [|n IH]; intros m st Hin Hle.
  { exfalso. apply Hin. reflexivity. }
  destruct m as [|m]; [lia|]. rewrite !catread_loop_unfold in *.
  destruct (append_from_file (rd_f st) (rd_s st)) as [[s f]|]; [|reflexivity].
  cbn [mbind outcome_bind] in *.
  destruct (0 <? DSlength s); [|reflexivity].
  destruct (catread_line f s (rd_t st) (rd_cat st) (rd_catmsg st)) as [st'|];
    [|reflexivity].
  cbn [mbind outcome_bind] in *. apply IH; [exact Hin|lia].
Qed.

Lemma catread_file_unfold contents :
  catread_file contents
  = st ← catread_loop (S (length contents))
           (mk_catread_state contents DScreate DScreate None (mk_message 0 0 []));
    match rd_cat st with
    | None => Fault NullDereference
    | Some cat => Ret (mk_catalog (is_opened cat) (qsort catmsg_cmp (msgs cat)))
    end.
Proof. reflexivity. Qed.

(** One turn of the loop on a line that ends in a newline. *)
Lemma catread_loop_line fuel line rest s t cat catmsg :
  NL ∉ line -> NUL ∉ line ->
  DSlength s + Z.of_nat (length line) < NPOS ->
  catread_loop (S fuel) (mk_catread_state (line ++ NL :: rest) s t cat catmsg)
  = st ← catread_line rest ((s ++ line) ++ [NL]) t cat catmsg;
    catread_loop fuel st.
Proof.
  intros Hnl Hnul Hsize. rewrite catread_loop_unfold. cbn [rd_f rd_s rd_t rd_cat rd_catmsg].
  unfold append_from_file.
  rewrite append_from_file_loop_line
    by (assumption || (rewrite length_app; simpl; lia)).
  cbn [mbind outcome_bind]. rewrite app_assoc, DSlength_pos. reflexivity.
Qed.

Lemma trimmed_nil : trimmed [] = [].
Proof. reflexivity. Qed.

(** X15.  A line that is no message and is not continued changes nothing: the
    file is read as if the line were not there. *)
Theorem catread_skips_line (line rest : list Z) :
  NL ∉ line -> NUL ∉ line -> Z.of_nat (length line) < NPOS ->
  last (trimmed line) <> Some (chr "\") ->
  (forall c, head (trimmed line) = Some c -> isdigit c = false) ->
  bytes rest ->
  catread_file (line ++ NL :: rest) = catread_file rest.
Proof.
  intros Hnl Hnul Hsize Hlast Hhead Hrest.
  rewrite !catread_file_unfold. rewrite catread_loop_line by assumption.
  unfold DScreate. rewrite app_nil_l.
  rewrite catread_line_skipped; try assumption.
  2:{ unfold DSlength. rewrite length_app. simpl length. lia. }
  cbn [mbind outcome_bind].
  rewrite (catread_loop_more_fuel (S (length rest))); [reflexivity| |].
  - apply catread_loop_in_time; simpl; [assumption|constructor|lia].
  - rewrite length_app. simpl. lia.
Qed.

Lemma ltrim_app_nonblank a c r :
  in_set blanks c = false -> ltrim (a ++ c :: r) = ltrim a ++ c :: r.
Proof.
  intros Hc. induction a as [|x a IH]; simpl.
  - rewrite Hc. reflexivity.
  - destruct (in_set blanks x); [exact IH|reflexivity].
Qed.

Lemma ltrim_ltrim_app a l : ltrim (ltrim a ++ l) = ltrim (a ++ l).
Proof.
  induction a as [|x a IH]; simpl; [reflexivity|].
  destruct (in_set blanks x) eqn:E; [exact IH|]. simpl. rewrite E. reflexivity.
Qed.

Lemma rtrim_snoc_nonblank s c :
  in_set blanks c = false -> rtrim (s ++ [c]) = s ++ [c].
Proof.
  intros Hc. induction s as [|x s IH]; simpl.
  - rewrite Hc. reflexivity.
  - rewrite IH. destruct (s ++ [c]) eqn:E; [destruct s; discriminate|].
    reflexivity.
Qed.

Lemma trimmed_backslash a : trimmed (a ++ [chr "\"]) = ltrim a ++ [chr "\"].
Proof.
  unfold trimmed. rewrite ltrim_app_nonblank by reflexivity.
  apply rtrim_snoc_nonblank. reflexivity.
Qed.

Lemma catread_line_same_trimmed f l1 l2 x1 x2 t cat catmsg :
  DSlength (l1 ++ [x1]) <= NPOS -> DSlength (l2 ++ [x2]) <= NPOS ->
  trimmed l1 = trimmed l2 ->
  catread_line f (l1 ++ [x1]) t cat catmsg
  = catread_line f (l2 ++ [x2]) t cat catmsg.
Proof.
  intros H1 H2 Ht. rewrite !catread_line_trimmed by assumption.
  rewrite Ht. reflexivity.
Qed.

(** X16.  A line that ends in a backslash is continued by the next line: the
    file is read as if the backslash and the newline behind it were not
    there. *)
Theorem catread_continuation (a l2 rest : list Z) :
  NL ∉ a -> NUL ∉ a -> NL ∉ l2 -> NUL ∉ l2 ->
  bytes a -> bytes l2 -> bytes rest ->
  Z.of_nat (length a + length l2) + 2 < NPOS ->
  catread_file (a ++ chr "\" :: NL :: l2 ++ NL :: rest)
  = catread_file (a ++ l2 ++ NL :: rest).
Proof.
  intros Hnla Hnua Hnll Hnul Ha Hl Hrest Hsize.
  rewrite !catread_file_unfold. unfold DScreate.
  set (m0 := mk_message 0 0 []).
  assert (Hnl1 : NL ∉ a ++ [chr "\"]).
  { intros H. apply elem_of_app in H as [H|H]; [exact (Hnla H)|].
    apply list_elem_of_singleton in H. discriminate H. }
  assert (Hnu1 : NUL ∉ a ++ [chr "\"]).
  { intros H. apply elem_of_app in H as [H|H]; [exact (Hnua H)|].
    apply list_elem_of_singleton in H. discriminate H. }
  assert (Hnl2 : NL ∉ a ++ l2).
  { intros H. apply elem_of_app in H as [H|H]; [exact (Hnla H)|exact (Hnll H)]. }
  assert (Hnu2 : NUL ∉ a ++ l2).
  { intros H. apply elem_of_app in H as [H|H]; [exact (Hnua H)|exact (Hnul H)]. }
  pose proof (ltrim_length a) as Hlt.
  (* the file with the continuation: two turns of the loop *)
  replace (a ++ chr "\" :: NL :: l2 ++ NL :: rest)
    with ((a ++ [chr "\"]) ++ NL :: l2 ++ NL :: rest)
    by (rewrite <- app_assoc; reflexivity).
  rewrite catread_loop_line;
    [|assumption|assumption
     |unfold DSlength; rewrite length_app; simpl length; lia].
  rewrite app_nil_l.
  rewrite (catread_line_continued _ _ _ _ _ _ (ltrim a));
    [|unfold DSlength; rewrite !length_app; simpl length; lia
     |apply trimmed_backslash].
  cbn [mbind outcome_bind].
  assert (Hlen1 : length ((a ++ [chr "\"]) ++ NL :: l2 ++ NL :: rest)
                  = S (S (length (a ++ l2 ++ NL :: rest)))).
  { rewrite !length_app. simpl length. rewrite !length_app. simpl length. lia. }
  rewrite Hlen1.
  rewrite catread_loop_line;
    [|assumption|assumption|unfold DSlength; lia].
  (* the file without: one turn *)
  replace (a ++ l2 ++ NL :: rest) with ((a ++ l2) ++ NL :: rest) at 2
    by (rewrite <- app_assoc; reflexivity).
  rewrite catread_loop_line;
    [|assumption|assumption|unfold DSlength; rewrite length_app; simpl length; lia].
  rewrite app_nil_l.
  rewrite (catread_line_same_trimmed rest (ltrim a ++ l2) (a ++ l2) NL NL);
    [|unfold DSlength; rewrite !length_app; simpl length; lia
     |unfold DSlength; rewrite !length_app; simpl length; lia
     |unfold trimmed; rewrite ltrim_ltrim_app; reflexivity].
  destruct (catread_line rest ((a ++ l2) ++ [NL]) [] None m0) as [st|] eqn:Hline;
    [|reflexivity].
  cbn [mbind outcome_bind].
  apply catread_line_ret in Hline as (Hf & Hs & Hlen);
    [|apply bytes_app; [apply bytes_app; assumption|repeat constructor; vm_compute; discriminate]
     |destruct (a ++ l2); discriminate].
  rewrite (catread_loop_more_fuel (length (a ++ l2 ++ NL :: rest))); [reflexivity| |lia].
  apply catread_loop_in_time.
  - rewrite Hf. exact Hrest.
  - exact Hs.
  - rewrite Hf. rewrite !length_app in *. simpl length in *. lia.
Qed.

(** *** A file that does not end in a newline *)

Lemma catread_line_file f s t cat catmsg :
  catread_line f s t cat catmsg
  = st ← catread_line [] s t cat catmsg; Ret (with_file f st).
Proof.
  unfold catread_line. cbv zeta.
  repeat first
    [ progress cbn [mbind outcome_bind]
    | match goal with
      | |- context [mbind _ ?m] =>
          lazymatch m with
          | context [mbind] => fail
          | Ret _ => fail
          | _ => destruct m; [|reflexivity]
          end
      | |- context [if ?b then _ else _] => destruct b
      | |- context [let '(_, _) := ?p in _] => destruct p
      end ]; reflexivity.
Qed.

Lemma fgets_chars_rel n g c :
  (0 < n)%nat -> c <> NL ->
  (exists b g', fgets_chars n (g ++ [c]) = (b, g' ++ [c])
                /\ fgets_chars n (g ++ [NL]) = (b, g' ++ [NL])
                /\ (length g' < length g)%nat)
  \/ (fgets_chars n (g ++ [c]) = (g ++ [c], [])
      /\ fgets_chars n (g ++ [NL]) = (g ++ [NL], [])).
Proof.
  intros Hn Hc. revert n Hn. induction g as [|x g IH]; intros n Hn.
  - right. destruct n as [|n]; [lia|]. cbn [app fgets_chars].
    replace (c =? NL) with false by (symmetry; apply Z.eqb_neq; exact Hc).
    rewrite Z.eqb_refl. destruct n; split; reflexivity.
  - destruct n as [|n]; [lia|]. cbn [app fgets_chars].
    destruct (x =? NL) eqn:Hx.
    { left. exists [x], g. repeat split. simpl. lia. }
    destruct n as [|n].
    { left. exists [x], g. repeat split. simpl. lia. }
    destruct (IH (S n) ltac:(lia)) as [(b & g' & H1 & H2 & Hl)|[H1 H2]].
    + left. exists (x :: b), g'. rewrite H1, H2. repeat split. simpl. lia.
    + right. rewrite H1, H2. split; reflexivity.
Qed.

Lemma c_str_app_nul g t : NUL ∈ g -> c_str (g ++ t) = c_str g.
Proof.
  induction g as [|x g IH]; intros H; [inversion H|].
  cbn [app c_str]. destruct (x =? NUL) eqn:Hx; [reflexivity|].
  apply elem_of_cons in H as [H|H].
  - apply Z.eqb_neq in Hx. congruence.
  - rewrite IH by exact H. reflexivity.
Qed.

Lemma c_str_snoc g c : NUL ∉ g -> c <> NUL -> c_str (g ++ [c]) = g ++ [c].
Proof.
  intros Hg Hc. apply c_str_id. intros H.
  apply elem_of_app in H as [H|H]; [exact (Hg H)|].
  apply list_elem_of_singleton in H. congruence.
Qed.

Lemma fgets_snoc n g c :
  fgets n (g ++ [c]) = Some (fgets_chars (n - 1) (g ++ [c])).
Proof. destruct g; reflexivity. Qed.

Lemma append_from_file_loop_end fuel s :
  append_from_file_loop (S fuel) [] s = Ret (s, []).
Proof. reflexivity. Qed.

(** The last read of a stream that ends in [c], and of the same with a
    newline for [c]. *)
Lemma append_last_rel fuel (y : list Z) c :
  c <> NL ->
  rel_append c
    (x ← DSget_at (y ++ [c]) (size_wrap (DSlength (y ++ [c]) - 1));
     if x =? NL then Ret (y ++ [c], [])
     else append_from_file_loop (S fuel) [] (y ++ [c]))
    (x ← DSget_at (y ++ [NL]) (size_wrap (DSlength (y ++ [NL]) - 1));
     if x =? NL then Ret (y ++ [NL], [])
     else append_from_file_loop (S fuel) [] (y ++ [NL])).
Proof.
  intros Hc. right. left. exists y.
  rewrite !append_from_file_loop_end.
  assert (Hlen : DSlength (y ++ [c]) = DSlength (y ++ [NL]))
    by (unfold DSlength; rewrite !length_app; reflexivity).
  rewrite Hlen. set (p := size_wrap (DSlength (y ++ [NL]) - 1)).
  assert (Hp : 0 <= p <= Z.of_nat (length y)).
  { subst p. unfold DSlength. rewrite length_app. simpl length.
    pose proof (size_wrap_le (Z.of_nat (length y + 1) - 1)). lia. }
  rewrite !DSget_at_lookup by lia.
  destruct (decide (Z.to_nat p = length y)) as [He|Hne].
  - rewrite !lookup_app_r by lia. rewrite He, Nat.sub_diag.
    cbn [lookup list_lookup mbind outcome_bind].
    replace (c =? NL) with false by (symmetry; apply Z.eqb_neq; exact Hc).
    rewrite Z.eqb_refl. split; reflexivity.
  - rewrite !lookup_app_l by lia.
    destruct (y !! Z.to_nat p) as [x|] eqn:Hx.
    + cbn [mbind outcome_bind]. destruct (x =? NL); split; reflexivity.
    + apply lookup_ge_None in Hx. lia.
Qed.

Lemma append_from_file_loop_rel fuel g c s :
  c <> NL -> c <> NUL -> (length g + 1 < fuel)%nat ->
  rel_append c (append_from_file_loop fuel (g ++ [c]) s)
    (append_from_file_loop fuel (g ++ [NL]) s).
Proof.
  intros Hc Hnul. revert g s.
  induction fuel as [|fuel IH]; intros g s Hf; [lia|].
  rewrite !append_from_file_loop_unfold, !fgets_snoc.
  destruct (fgets_chars_rel (BUFSIZ - 1) g c BUFSIZ_pos Hc)
    as [(b & g' & H1 & H2 & Hl)|[H1 H2]]; rewrite H1, H2; cbv zeta.
  - destruct (DSget_at _ _) as [x|]; [|right; right; reflexivity].
    cbn [mbind outcome_bind]. destruct (x =? NL).
    + left. exists (DSappendcstr s b NPOS), g'. split; reflexivity.
    + apply IH. lia.
  - rewrite !DSappendcstr_all.
    destruct (decide (NUL ∈ g)) as [Hin|Hout].
    + rewrite !c_str_app_nul by exact Hin. right. right. reflexivity.
    + rewrite !c_str_snoc by (assumption || discriminate).
      rewrite !app_assoc.
      destruct fuel as [|fuel]; [lia|].
      apply append_last_rel. exact Hc.
Qed.

Lemma catread_line_last f (y : list Z) c t cat catmsg :
  catread_line f (y ++ [c]) t cat catmsg
  = catread_line f (y ++ [NL]) t cat catmsg.
Proof.
  unfold catread_line.
  replace (DSresize (y ++ [c]) (size_wrap (DSlength (y ++ [c]) - 1)) 0)
    with (DSresize (y ++ [NL]) (size_wrap (DSlength (y ++ [NL]) - 1)) 0);
    [reflexivity|].
  assert (Hlen : DSlength (y ++ [c]) = DSlength (y ++ [NL]))
    by (unfold DSlength; rewrite !length_app; reflexivity).
  rewrite Hlen. set (p := size_wrap (DSlength (y ++ [NL]) - 1)).
  assert (Hp : 0 <= p <= Z.of_nat (length y)).
  { subst p. unfold DSlength. rewrite length_app. simpl length.
    pose proof (size_wrap_le (Z.of_nat (length y + 1) - 1)). lia. }
  unfold DSresize. rewrite !take_app_le by lia.
  rewrite !length_app. reflexivity.
Qed.

Lemma catread_loop_rel fuel g c s t cat catmsg :
  c <> NL -> c <> NUL ->
  loop_cat (catread_loop fuel (mk_catread_state (g ++ [c]) s t cat catmsg))
  = loop_cat (catread_loop fuel (mk_catread_state (g ++ [NL]) s t cat catmsg)).
Proof.
  intros Hc Hnul. revert g s t cat catmsg.
  induction fuel as [|fuel IH]; intros g s t cat catmsg; [reflexivity|].
  rewrite !catread_loop_unfold. cbn [rd_f rd_s rd_t rd_cat rd_catmsg].
  unfold append_from_file.
  replace (length (g ++ [NL])) with (length (g ++ [c]))
    by (rewrite !length_app; reflexivity).
  destruct (append_from_file_loop_rel (S (length (g ++ [c]))) g c s Hc Hnul)
    as [(s' & g' & H1 & H2)|[(y & H1 & H2)|H]].
  { rewrite length_app. simpl. lia. }
  - rewrite H1, H2. cbn [mbind outcome_bind].
    destruct (0 <? DSlength s'); [|reflexivity].
    rewrite (catread_line_file (g' ++ [c])), (catread_line_file (g' ++ [NL])).
    destruct (catread_line [] s' t cat catmsg) as [st|]; [|reflexivity].
    cbn [mbind outcome_bind]. unfold with_file. apply IH.
  - rewrite H1, H2. cbn [mbind outcome_bind]. rewrite !DSlength_pos.
    rewrite (catread_line_last [] y c). reflexivity.
  - rewrite H. reflexivity.
Qed.

Lemma catread_file_loop_cat contents :
  catread_file contents
  = cat ← loop_cat (catread_loop (S (length contents))
                      (mk_catread_state contents DScreate DScreate None
                         (mk_message 0 0 [])));
    match cat with
    | None => Fault NullDereference
    | Some cat => Ret (mk_catalog (is_opened cat) (qsort catmsg_cmp (msgs cat)))
    end.
Proof.
  rewrite catread_file_unfold. unfold loop_cat.
  destruct (catread_loop _ _); reflexivity.
Qed.

(** X17.  The last line of a file counts without its last character even if
    that is no newline: a file that ends in another character is read as
    if the character were a newline. *)
Theorem catread_unterminated (g : list Z) (c : Z) :
  c <> NL -> c <> NUL -> catread_file (g ++ [c]) = catread_file (g ++ [NL]).
Proof.
  intros Hc Hnul. rewrite !catread_file_loop_cat.
  replace (length (g ++ [NL])) with (length (g ++ [c]))
    by (rewrite !length_app; reflexivity).
  rewrite (catread_loop_rel _ g c _ _ _ _ Hc Hnul). reflexivity.
Qed.

(** *** A file of messages *)

Lemma transform_string_transformed s :
  bytes s -> transform_string s = Ret (transformed s).
Proof.
  intros Hs. unfold transformed.
  destruct (transform_loop_total (transform_fuel s) s 0 0 0 [] Hs)
    as (t & ip & st & ac & Hr & _).
  { solve_in. } { unfold DSlength. lia. } { unfold transform_fuel. simpl. lia. }
  rewrite transform_string_exit, Hr. reflexivity.
Qed.

Lemma rtrim_id s :
  (forall c, last s = Some c -> in_set blanks c = false) -> rtrim s = s.
Proof.
  intros H. destruct s as [|c s] using rev_ind; [reflexivity|].
  apply rtrim_snoc_nonblank. apply H. apply last_snoc.
Qed.

Lemma isdigit_not_blank d : isdigit d = true -> in_set blanks d = false.
Proof.
  intros H. apply isdigit_range in H. unfold in_set.
  apply bool_decide_eq_false. intros Hin.
  unfold blanks in Hin. change (chr " ") with 32 in Hin.
  apply list_elem_of_In in Hin. simpl in Hin. lia.
Qed.

Lemma trimmed_entry e : well_formed e -> trimmed (entry_line e) = entry_line e.
Proof.
  intros (Hne & H1 & _ & _ & _ & _ & _ & _ & _ & _ & Hlast & _).
  unfold trimmed.
  assert (Hl : ltrim (entry_line e) = entry_line e).
  { unfold entry_line. destruct (e_set e) as [|d ds]; [congruence|].
    cbn [app ltrim]. rewrite (isdigit_not_blank d (Forall_inv H1)).
    reflexivity. }
  rewrite Hl. apply rtrim_id. intros c Hc. apply (Hlast c Hc).
Qed.

Lemma bytes_entry_text e : bytes (entry_line e) -> bytes (e_text e).
Proof.
  unfold entry_line. intros H.
  apply Forall_app in H as [_ H]. apply Forall_cons in H as [_ H].
  apply Forall_app in H as [_ H]. apply Forall_cons in H as [_ H]. exact H.
Qed.

Lemma catread_loop_entries es fuel t cat catmsg :
  Forall well_formed es ->
  (length (catalogue_file es) < fuel)%nat ->
  loop_cat (catread_loop fuel
              (mk_catread_state (catalogue_file es) [] t cat catmsg))
  = Ret (with_entries cat es).
Proof.
  intros Hes. revert fuel t cat catmsg.
  induction Hes as [|e es He Hes IH]; intros fuel t cat catmsg Hf.
  - destruct fuel; [lia|]. reflexivity.
  - destruct fuel; [lia|]. cbn [catalogue_file] in *.
    pose proof (trimmed_entry e He) as Htrim.
    destruct He as (Hne & H1 & H2 & Hc1 & Hc2 & Hv1 & Hv2 & Hb & Hnl & Hnul
                    & Hlast & Hsize).
    rewrite catread_loop_line by assumption. rewrite app_nil_l.
    rewrite (catread_line_message _ _ _ _ _ _ (e_set e) (e_sep1 e) (e_msg e)
               (e_sep2 e) (e_text e) (transformed (e_text e)));
      try assumption.
    + cbv zeta. cbn [mbind outcome_bind]. rewrite IH.
      * reflexivity.
      * rewrite length_app in Hf. simpl in Hf. lia.
    + unfold DSlength. rewrite length_app. simpl length. lia.
    + rewrite Htrim. intros Hl. apply Hlast in Hl as [_ Hl]. congruence.
    + apply transform_string_transformed, bytes_entry_text, Hb.
Qed.

Lemma with_entries_some c es :
  with_entries (Some c) es
  = Some (mk_catalog (is_opened c) (msgs c ++ map entry_message es)).
Proof.
  revert c. induction es as [|e es IH]; intros c.
  - simpl. rewrite app_nil_r. destruct c; reflexivity.
  - unfold with_entries in *. cbn [fold_left map]. rewrite IH.
    cbn [with_message is_opened msgs]. rewrite <- app_assoc. reflexivity.
Qed.

Lemma catread_file_entries es :
  Forall well_formed es -> es <> [] ->
  catread_file (catalogue_file es)
  = Ret (mk_catalog 0 (qsort catmsg_cmp (map entry_message es))).
Proof.
  intros Hes Hne. rewrite catread_file_loop_cat. unfold DScreate.
  rewrite catread_loop_entries by (assumption || lia).
  cbn [mbind outcome_bind].
  destruct es as [|e es]; [congruence|].
  unfold with_entries. cbn [fold_left with_message].
  fold (with_entries (Some (mk_catalog 0 [entry_message e])) es).
  rewrite with_entries_some. reflexivity.
Qed.

(** X18.  A file of well-formed entries, a line each, is read as the catalogue
    of their messages: the numbers in decimal, the text through
    [transform_string], sorted by [qsort], not marked opened. *)
Theorem catread_entries (es : list entry) :
  Forall well_formed es -> es <> [] ->
  catread_file (catalogue_file es)
  = Ret (mk_catalog 0 (qsort catmsg_cmp (map entry_message es))).
Proof.
  intros Hes Hne. rewrite catread_file_loop_cat. unfold DScreate.
  rewrite catread_loop_entries by (assumption || lia).
  cbn [mbind outcome_bind].
  destruct es as [|e es]; [congruence|].
  unfold with_entries. cbn [fold_left with_message].
  fold (with_entries (Some (mk_catalog 0 [entry_message e])) es).
  rewrite with_entries_some. reflexivity.
Qed.

(** ** The string functions *)

Lemma strchr_some s c k :
  strchr s c = Some k ->
  (s ++ [NUL]) !! k = Some c
  /\ forall j, (j < k)%nat -> (s ++ [NUL]) !! j <> Some c.
Proof.
  revert k. induction s as [|x s IH]; intros k; cbn [strchr].
  - destruct (c =? NUL) eqn:E; [|discriminate]. intros [= <-].
    apply Z.eqb_eq in E. subst c. split; [reflexivity|]. intros j Hj. lia.
  - destruct (x =? c) eqn:E.
    + intros [= <-]. apply Z.eqb_eq in E. subst c. split; [reflexivity|].
      intros j Hj. lia.
    + apply Z.eqb_neq in E. destruct (strchr s c) as [k'|]; [|discriminate].
      intros [= <-]. destruct (IH k' eq_refl) as [Hk Hj]. split; [exact Hk|].
      intros [|j] Hlt; cbn; [congruence|]. apply Hj. lia.
Qed.

Lemma strchr_none s c : strchr s c = None -> c ∉ s ++ [NUL].
Proof.
  induction s as [|x s IH]; cbn [strchr].
  - destruct (c =? NUL) eqn:E; [discriminate|]. intros _ H.
    apply Z.eqb_neq in E. apply list_elem_of_singleton in H. congruence.
  - destruct (x =? c) eqn:E; [discriminate|]. apply Z.eqb_neq in E.
    destruct (strchr s c) as [k'|] eqn:Hs; [discriminate|]. intros _ H.
    apply elem_of_cons in H as [H|H]; [congruence|]. exact (IH eq_refl H).
Qed.

Lemma strchr_elem s c : c ∈ s ++ [NUL] -> is_Some (strchr s c).
Proof.
  intros H. destruct (strchr s c) as [k|] eqn:E; [eauto|].
  exfalso. exact (strchr_none s c E H).
Qed.

Lemma strchr_first_index s c k :
  (s ++ [NUL]) !! k = Some c ->
  (forall j, (j < k)%nat -> (s ++ [NUL]) !! j <> Some c) ->
  strchr s c = Some k.
Proof.
  intros Hk Hj.
  destruct (strchr_elem s c) as [k' Hk'].
  { apply list_elem_of_lookup. eauto. }
  destruct (strchr_some s c k' Hk') as [Hk1 Hk2].
  destruct (Nat.lt_trichotomy k k') as [H|[H|H]].
  - exfalso. exact (Hk2 k H Hk).
  - subst. exact Hk'.
  - exfalso. exact (Hj k' H Hk1).
Qed.

(** X19.  [strchr] finds the first occurrence, the terminating NUL counting as
    a character of the string; it finds nothing exactly when there is
    none. *)
Theorem strchr_first (s : list Z) (c : Z) (k : nat) :
  (strchr s c = Some k <->
   (s ++ [NUL]) !! k = Some c
   /\ forall j, (j < k)%nat -> (s ++ [NUL]) !! j <> Some c)
  /\ (strchr s c = None <-> c ∉ s ++ [NUL])
  /\ strchr s NUL = Some (length (c_str s)).
Proof.
  split; [|split].
  - split; [apply strchr_some|]. intros [Hk Hj]. apply strchr_first_index; assumption.
  - split; [apply strchr_none|]. intros H.
    destruct (strchr s c) as [k'|] eqn:E; [|reflexivity].
    exfalso. apply H. apply strchr_some in E as [E _].
    apply list_elem_of_lookup. eauto.
  - clear. induction s as [|x s IH]; [reflexivity|].
    cbn [strchr c_str]. destruct (x =? NUL); [reflexivity|].
    rewrite IH. reflexivity.
Qed.

Lemma strrchr_some s c k :
  strrchr s c = Some k ->
  (s ++ [NUL]) !! k = Some c
  /\ forall j, (k < j)%nat -> (s ++ [NUL]) !! j <> Some c.
Proof.
  revert k. induction s as [|x s IH]; intros k; cbn [strrchr].
  - destruct (c =? NUL) eqn:E; [|discriminate]. intros [= <-].
    apply Z.eqb_eq in E. subst c. split; [reflexivity|].
    intros [|j] Hj; [lia|]. discriminate.
  - destruct (strrchr s c) as [k'|] eqn:Hs.
    + intros [= <-]. destruct (IH k' eq_refl) as [Hk Hj]. split; [exact Hk|].
      intros [|j] Hlt; [lia|]. cbn. apply Hj. lia.
    + destruct (x =? c) eqn:E; [|discriminate]. intros [= <-].
      apply Z.eqb_eq in E. subst x. split; [reflexivity|].
      intros [|j] Hlt; [lia|]. cbn. intros Hj.
      clear IH. revert j Hlt Hj Hs. induction s as [|y s IHs]; intros j Hlt Hj.
      * cbn [strrchr]. destruct j; [|discriminate]. injection Hj as <-.
        discriminate.
      * cbn [strrchr]. destruct (strrchr s c) eqn:Hs'; [discriminate|].
        destruct j as [|j].
        -- injection Hj as ->. rewrite Z.eqb_refl. discriminate.
        -- intros _. apply (IHs j); [lia|exact Hj|reflexivity].
Qed.

Lemma strrchr_none s c : strrchr s c = None -> c ∉ s ++ [NUL].
Proof.
  induction s as [|x s IH]; cbn [strrchr].
  - destruct (c =? NUL) eqn:E; [discriminate|]. intros _ H.
    apply Z.eqb_neq in E. apply list_elem_of_singleton in H. congruence.
  - destruct (strrchr s c) as [k'|] eqn:Hs; [discriminate|].
    destruct (x =? c) eqn:E; [discriminate|]. apply Z.eqb_neq in E.
    intros _ H. apply elem_of_cons in H as [H|H]; [congruence|].
    exact (IH eq_refl H).
Qed.

Lemma strrchr_app_cons pre c post :
  c <> NUL ->
  strrchr (pre ++ c :: post) c
  = Some (length pre + match strrchr post c with
                       | Some k => S k
                       | None => 0
                       end)%nat.
Proof.
  intros Hc. induction pre as [|x pre IH]; cbn [app strrchr length].
  - destruct (strrchr post c); [reflexivity|]. rewrite Z.eqb_refl. reflexivity.
  - rewrite IH. reflexivity.
Qed.

Lemma strchr_split s c k :
  c <> NUL -> strchr s c = Some k ->
  s = take k s ++ c :: drop (S k) s /\ (k < length s)%nat.
Proof.
  intros Hc. revert k. induction s as [|x s IH]; intros k; cbn [strchr].
  - replace (c =? NUL) with false by (symmetry; apply Z.eqb_neq; exact Hc).
    discriminate.
  - destruct (x =? c) eqn:E.
    + intros [= <-]. apply Z.eqb_eq in E. subst x. cbn. rewrite drop_0.
      split; [reflexivity|lia].
    + destruct (strchr s c) as [k'|]; [|discriminate]. intros [= <-].
      destruct (IH k' eq_refl) as [Hs Hk]. cbn [take drop app length].
      split; [f_equal; exact Hs|lia].
Qed.

Lemma strrchr_not_found s c : c <> NUL -> strchr s c = None -> strrchr s c = None.
Proof.
  intros Hc. induction s as [|x s IH]; cbn [strchr strrchr].
  - replace (c =? NUL) with false by (symmetry; apply Z.eqb_neq; exact Hc).
    reflexivity.
  - destruct (x =? c); [discriminate|].
    destruct (strchr s c); [discriminate|]. intros _. rewrite IH; reflexivity.
Qed.

Lemma strrchr_loop_spec fuel s off c last :
  c <> NUL -> (off <= length s)%nat -> (length s - off < fuel)%nat ->
  strrchr_loop fuel s off c last
  = Ret match strrchr (drop off s) c with
        | Some k => Some (off + k)%nat
        | None => last
        end.
Proof.
  intros Hc. revert off last.
  induction fuel as [|fuel IH]; intros off last Hoff Hf; [lia|].
  cbn [strrchr_loop].
  destruct (strchr (drop off s) c) as [k|] eqn:Hk.
  - destruct (strchr_split _ _ _ Hc Hk) as [Hs Hlt].
    rewrite length_drop in Hlt.
    rewrite IH by lia.
    replace (strrchr (drop off s) c)
      with (strrchr (take k (drop off s) ++ c :: drop (S k) (drop off s)) c)
      by (rewrite <- Hs; reflexivity).
    rewrite strrchr_app_cons by exact Hc.
    rewrite length_take, length_drop, drop_drop.
    replace (off + S k)%nat with (off + k + 1)%nat by lia.
    replace (k `min` (length s - off))%nat with k by lia.
    destruct (strrchr (drop (off + k + 1) s) c) as [k'|]; do 2 f_equal; lia.
  - rewrite strrchr_not_found by assumption. reflexivity.
Qed.

Lemma strchr_nul s : NUL ∉ s -> strchr s NUL = Some (length s).
Proof.
  induction s as [|x s IH]; intros H; [reflexivity|].
  apply not_elem_of_cons in H as [Hx H]. cbn [strchr].
  replace (x =? NUL) with false by (symmetry; apply Z.eqb_neq; congruence).
  rewrite IH by exact H. reflexivity.
Qed.

Lemma strrchr_nul s : strrchr s NUL = Some (length s).
Proof.
  induction s as [|x s IH]; [reflexivity|]. cbn [strrchr]. rewrite IH.
  reflexivity.
Qed.

(** X20.  [strrchr], which calls [strchr] until it finds nothing more, returns
    the last occurrence, the terminating NUL counting as a character of
    the string. *)
Theorem strrchr_last (s : list Z) (c : Z) (k : nat) :
  NUL ∉ s ->
  strrchr_source s c = Ret (strrchr s c)
  /\ (strrchr s c = Some k <->
      (s ++ [NUL]) !! k = Some c
      /\ forall j, (k < j)%nat -> (s ++ [NUL]) !! j <> Some c)
  /\ (strrchr s c = None <-> c ∉ s ++ [NUL]).
Proof.
  intros Hs. split; [|split].
  - unfold strrchr_source. destruct (c =? NUL) eqn:E.
    + apply Z.eqb_eq in E. subst c. rewrite strchr_nul, strrchr_nul by exact Hs.
      reflexivity.
    + apply Z.eqb_neq in E. rewrite strrchr_loop_spec by (assumption || lia).
      rewrite drop_0. destruct (strrchr s c); reflexivity.
  - split; [apply strrchr_some|]. intros [Hk Hj].
    destruct (strrchr s c) as [k'|] eqn:E.
    + destruct (strrchr_some s c k' E) as [Hk1 Hk2].
      destruct (Nat.lt_trichotomy k k') as [H|[H|H]].
      * exfalso. exact (Hj k' H Hk1).
      * subst. reflexivity.
      * exfalso. exact (Hk2 k H Hk).
    + exfalso. apply (strrchr_none s c E). apply list_elem_of_lookup. eauto.
  - split; [apply strrchr_none|]. intros H.
    destruct (strrchr s c) as [k'|] eqn:E; [|reflexivity].
    exfalso. apply H. apply strrchr_some in E as [E _].
    apply list_elem_of_lookup. eauto.
Qed.

Lemma strpbrk_some s1 s2 k :
  strpbrk s1 s2 = Some k ->
  exists x, s1 !! k = Some x /\ x ∈ s2 ++ [NUL]
            /\ forall j y, (j < k)%nat -> s1 !! j = Some y -> y ∉ s2 ++ [NUL].
Proof.
  revert k. induction s1 as [|x s1 IH]; intros k; cbn [strpbrk]; [discriminate|].
  destruct (bool_decide (is_Some (strchr s2 x))) eqn:E.
  - intros [= <-]. apply bool_decide_eq_true in E as [i Hi].
    exists x. split; [reflexivity|]. split.
    + apply strchr_some in Hi as [Hi _]. apply list_elem_of_lookup. eauto.
    + intros j y Hj. lia.
  - apply bool_decide_eq_false in E.
    destruct (strpbrk s1 s2) as [k'|]; [|discriminate]. intros [= <-].
    destruct (IH k' eq_refl) as (y & Hy & Hin & Hbefore).
    exists y. split; [exact Hy|]. split; [exact Hin|].
    intros [|j] z Hj Hz.
    + injection Hz as <-. intros Hx. apply E. apply strchr_elem. exact Hx.
    + apply (Hbefore j z); [lia|exact Hz].
Qed.

Lemma strpbrk_none s1 s2 :
  strpbrk s1 s2 = None -> forall x, x ∈ s1 -> x ∉ s2 ++ [NUL].
Proof.
  induction s1 as [|y s1 IH]; cbn [strpbrk]; intros H x Hx.
  { inversion Hx. }
  destruct (bool_decide (is_Some (strchr s2 y))) eqn:E; [discriminate|].
  apply bool_decide_eq_false in E.
  destruct (strpbrk s1 s2) as [k'|] eqn:Hs; [discriminate|].
  apply elem_of_cons in Hx as [->|Hx].
  - intros Hy. apply E. apply strchr_elem. exact Hy.
  - apply IH; [reflexivity|exact Hx].
Qed.

Lemma strpbrk_found s1 s2 x :
  x ∈ s1 -> x ∈ s2 -> is_Some (strpbrk s1 s2).
Proof.
  intros H1 H2. destruct (strpbrk s1 s2) as [k|] eqn:E; [eauto|].
  exfalso. apply (strpbrk_none s1 s2 E x H1). apply elem_of_app. auto.
Qed.

(** X21.  [strpbrk] returns the first character of [s1] that occurs in [s2],
    and nothing exactly when no character of [s1] does. *)
Theorem strpbrk_first (s1 s2 : list Z) (k : nat) :
  NUL ∉ s1 ->
  (strpbrk s1 s2 = Some k <->
   exists x, s1 !! k = Some x /\ x ∈ s2
             /\ forall j y, (j < k)%nat -> s1 !! j = Some y -> y ∉ s2)
  /\ (strpbrk s1 s2 = None <-> forall x, x ∈ s1 -> x ∉ s2).
Proof.
  intros Hnul.
  assert (Hin : forall x, x ∈ s1 -> (x ∈ s2 ++ [NUL] <-> x ∈ s2)).
  { intros x Hx. rewrite elem_of_app, list_elem_of_singleton.
    split; [|auto]. intros [H|H]; [exact H|]. subst x. exfalso. exact (Hnul Hx). }
  split.
  - split.
    + intros H. apply strpbrk_some in H as (x & Hx & Hx2 & Hbefore).
      exists x. split; [exact Hx|]. split.
      * apply Hin; [apply list_elem_of_lookup; eauto|exact Hx2].
      * intros j y Hj Hy Hy2. apply (Hbefore j y Hj Hy).
        apply elem_of_app. auto.
    + intros (x & Hx & Hx2 & Hbefore).
      destruct (strpbrk s1 s2) as [k'|] eqn:E.
      * apply strpbrk_some in E as (x' & Hx' & Hx2' & Hbefore').
        destruct (Nat.lt_trichotomy k k') as [H|[H|H]].
        -- exfalso. apply (Hbefore' k x H Hx). apply elem_of_app. auto.
        -- subst. reflexivity.
        -- exfalso. apply (Hbefore k' x' H Hx').
           apply Hin; [apply list_elem_of_lookup; eauto|exact Hx2'].
      * exfalso. apply (strpbrk_none s1 s2 E x).
        -- apply list_elem_of_lookup. eauto.
        -- apply elem_of_app. auto.
  - split.
    + intros H x Hx Hx2. apply (strpbrk_none s1 s2 H x Hx).
      apply elem_of_app. auto.
    + intros H. destruct (strpbrk s1 s2) as [k'|] eqn:E; [|reflexivity].
      exfalso. apply strpbrk_some in E as (x & Hx & Hx2 & _).
      assert (Hx1 : x ∈ s1) by (apply list_elem_of_lookup; eauto).
      apply (H x Hx1). apply Hin; assumption.
Qed.

(** ** More of the search for the catalogue *)

Section Search.
Variable NL_CAT_LOCALE : Z.
Variable getenv : list Z -> option (list Z).
Variable fopen : list Z -> fopen_result.
Variable cross_array_ge : bool.

Lemma map_to_char s : bytes s -> map to_char s = s.
Proof.
  induction 1 as [|c s Hc Hs IH]; [reflexivity|].
  cbn [map]. rewrite IH, to_char_small by lia. reflexivity.
Qed.

(** Text without [%] and [;] is copied. *)
Lemma expand_segment_literal lc name text rest tmppath :
  bytes text -> chr "%" ∉ text -> chr ";" ∉ text ->
  expand_segment cross_array_ge lc name (text ++ rest) tmppath
  = expand_segment cross_array_ge lc name rest (tmppath ++ text).
Proof.
  intros Hb. revert tmppath.
  induction Hb as [|c text Hc Hb IH]; intros tmppath Hp Hs.
  { rewrite app_nil_r. reflexivity. }
  apply not_elem_of_cons in Hp as [Hp1 Hp]. apply not_elem_of_cons in Hs as [Hs1 Hs].
  cbn [app expand_segment].
  replace (c =? chr ";") with false by (symmetry; apply Z.eqb_neq; congruence).
  replace (c =? chr "%") with false by (symmetry; apply Z.eqb_neq; congruence).
  rewrite IH by assumption. rewrite DSappendchar_one, to_char_small by lia.
  rewrite <- app_assoc. reflexivity.
Qed.

Lemma catopen_search_path name oflag w c cs :
  strpbrk (c :: cs) (lit "\/:") = None ->
  name = c :: cs ->
  catopen NL_CAT_LOCALE getenv fopen cross_array_ge (Some name) oflag w
  = catopen_search fopen cross_array_ge
      (default NLS_DEFAULT_PATH (getenv (lit "NLSPATH")))
      (catopen_lang NL_CAT_LOCALE getenv oflag) name w.
Proof.
  intros Hp ->. unfold catopen. rewrite Hp.
  rewrite bool_decide_eq_false_2 by (intros [k Hk]; discriminate).
  destruct (getenv (lit "NLSPATH")); reflexivity.
Qed.

(** X22.  With a template that holds neither [%] nor [;], that one file is
    tried, whatever the name and the locale are. *)
Theorem catopen_literal_path (name p : list Z) (oflag : Z) (w : World) :
  name <> [] -> strpbrk name (lit "\/:") = None ->
  getenv (lit "NLSPATH") = Some p ->
  bytes p -> chr "%" ∉ p -> chr ";" ∉ p -> NUL ∉ p ->
  catopen NL_CAT_LOCALE getenv fopen cross_array_ge (Some name) oflag w
  = '(cat, w) ← catread fopen p w;
    match cat with
    | Some cat => install_catalog cat w
    | None => Ret (-1, w)
    end.
Proof.
  intros Hne Hsep Hpath Hb Hpc Hsc Hnul.
  destruct name as [|c cs]; [congruence|].
  rewrite (catopen_search_path _ _ _ c cs) by (assumption || reflexivity).
  rewrite Hpath. cbn [default from_option id]. unfold catopen_search.
  rewrite catopen_loop_unfold.
  pose proof (expand_segment_literal
                (split_locale (catopen_lang NL_CAT_LOCALE getenv oflag))
                (c :: cs) p [] DScreate Hb Hpc Hsc) as Hexp.
  rewrite app_nil_r in Hexp. rewrite Hexp.
  cbn [expand_segment mbind outcome_bind]. unfold DScreate. rewrite app_nil_l.
  unfold DScstr. rewrite c_str_id by exact Hnul.
  destruct (catread fopen p w) as [[[cat|] w1]|]; cbn [mbind outcome_bind];
    try reflexivity.
  unfold DSremove. destruct (DSlength p <? 0) eqn:E; [|reflexivity].
  apply Z.ltb_lt in E. unfold DSlength in E. lia.
Qed.

(** X23.  A template that ends in a [%] takes [catopen] beyond the end of the
    template, here with a literal path in front: nothing is opened. *)
Theorem catopen_trailing_percent (name p : list Z) (oflag : Z) (w : World) :
  name <> [] -> strpbrk name (lit "\/:") = None ->
  getenv (lit "NLSPATH") = Some (p ++ lit "%") ->
  bytes p -> chr "%" ∉ p -> chr ";" ∉ p ->
  catopen NL_CAT_LOCALE getenv fopen cross_array_ge (Some name) oflag w
  = Fault OutOfBounds.
Proof.
  intros Hne Hsep Hpath Hb Hpc Hsc.
  destruct name as [|c cs]; [congruence|].
  rewrite (catopen_search_path _ _ _ c cs) by (assumption || reflexivity).
  rewrite Hpath. cbn [default from_option id]. unfold catopen_search.
  rewrite catopen_loop_unfold.
  rewrite expand_segment_literal by assumption. reflexivity.
Qed.

End Search.

(** X24.  A name that holds a [/], a backslash or a [:] is a path: the file of
    that name is the only one tried, and neither the environment nor the
    flag has a part in what [catopen] does. *)
Theorem catopen_direct_path (NL_CAT_LOCALE NL_CAT_LOCALE' : Z)
    (getenv getenv' : list Z -> option (list Z))
    (fopen : list Z -> fopen_result) (cross cross' : bool)
    (name : list Z) (c : Z) (oflag oflag' : Z) (w : World) :
  c ∈ name -> c ∈ lit "\/:" ->
  catopen NL_CAT_LOCALE getenv fopen cross (Some name) oflag w
  = catopen NL_CAT_LOCALE' getenv' fopen cross' (Some name) oflag' w
  /\ forall r w',
       catopen NL_CAT_LOCALE getenv fopen cross (Some name) oflag w
       = Ret (r, w') ->
       fopen_trace w' = fopen_trace w ++ [name].
Proof.
  intros Hc Hsep.
  assert (Hp : is_Some (strpbrk name (lit "\/:")))
    by exact (strpbrk_found _ _ c Hc Hsep).
  rewrite !catopen_direct by exact Hp. split; [reflexivity|].
  intros r w'.
  destruct (catread fopen name w) as [[cat w1]|] eqn:Hread;
    cbn [mbind outcome_bind]; [|discriminate].
  apply catread_trace in Hread. destruct cat as [cat|].
  - intros H. apply install_catalog_trace in H. congruence.
  - intros [= <- <-]. exact Hread.
Qed.

(** *** The parts of the locale *)

Section LocaleParts.
Variable cross_array_ge : bool.

Lemma language_part_sep lc a rest o tmppath k :
  lc_sep lc = Some k -> a <> [] -> k = (o + length a)%nat ->
  (forall d, lc_dot lc = Some d -> (k <= d)%nat) ->
  language_part cross_array_ge lc (a ++ rest) (mk_pointer LocaleName o) tmppath
  = tmppath ++ map to_char a.
Proof.
  intros Hsep Hne Hk Hdot. revert o tmppath Hk.
  induction a as [|x a IH]; intros o tmppath Hk; [congruence|].
  cbn [app language_part base offset]. rewrite DSappendchar_one.
  unfold below, ptr_ge. rewrite Hsep. cbn [base offset].
  rewrite bool_decide_eq_true_2 by reflexivity.
  destruct a as [|y a].
  - replace (k <=? S o)%nat with true
      by (symmetry; apply Nat.leb_le; simpl in Hk; lia).
    reflexivity.
  - replace (k <=? S o)%nat with false
      by (symmetry; apply Nat.leb_gt; simpl in Hk; lia).
    destruct (lc_dot lc) as [d|] eqn:Hd.
    + replace (d <=? S o)%nat with false
        by (symmetry; apply Nat.leb_gt; specialize (Hdot d eq_refl);
            simpl in Hk; lia).
      rewrite IH; [|discriminate|simpl in *; lia].
      cbn [map]. rewrite <- app_assoc. reflexivity.
    + rewrite IH; [|discriminate|simpl in *; lia].
      cbn [map]. rewrite <- app_assoc. reflexivity.
Qed.

Lemma language_part_dot lc a rest o tmppath d :
  lc_sep lc = None -> lc_dot lc = Some d -> a <> [] ->
  d = (o + length a)%nat ->
  language_part cross_array_ge lc (a ++ rest) (mk_pointer LocaleName o) tmppath
  = tmppath ++ map to_char a.
Proof.
  intros Hsep Hdot Hne. revert o tmppath.
  induction a as [|x a IH]; intros o tmppath Hd; [congruence|].
  cbn [app language_part base offset]. rewrite DSappendchar_one.
  unfold below, ptr_ge. rewrite Hsep, Hdot. cbn [base offset].
  rewrite bool_decide_eq_true_2 by reflexivity.
  destruct a as [|y a].
  - replace (d <=? S o)%nat with true
      by (symmetry; apply Nat.leb_le; simpl in Hd; lia).
    reflexivity.
  - replace (d <=? S o)%nat with false
      by (symmetry; apply Nat.leb_gt; simpl in Hd; lia).
    rewrite IH; [|discriminate|simpl in *; lia].
    cbn [map]. rewrite <- app_assoc. reflexivity.
Qed.

Lemma territory_part_dot lc a rest o tmppath d :
  lc_dot lc = Some d -> a <> [] -> d = (o + length a)%nat ->
  territory_part cross_array_ge lc (a ++ rest) (mk_pointer LocaleName o) tmppath
  = tmppath ++ map to_char a.
Proof.
  intros Hdot Hne. revert o tmppath.
  induction a as [|x a IH]; intros o tmppath Hd; [congruence|].
  cbn [app territory_part base offset]. rewrite DSappendchar_one.
  unfold below, ptr_ge. rewrite Hdot. cbn [base offset].
  rewrite bool_decide_eq_true_2 by reflexivity.
  destruct a as [|y a].
  - replace (d <=? S o)%nat with true
      by (symmetry; apply Nat.leb_le; simpl in Hd; lia).
    reflexivity.
  - replace (d <=? S o)%nat with false
      by (symmetry; apply Nat.leb_gt; simpl in Hd; lia).
    rewrite IH; [|discriminate|simpl in *; lia].
    cbn [map]. rewrite <- app_assoc. reflexivity.
Qed.

Lemma strchr_app_cons pre c post :
  c ∉ pre -> strchr (pre ++ c :: post) c = Some (length pre).
Proof.
  induction pre as [|x pre IH]; intros H; cbn [app strchr length].
  - rewrite Z.eqb_refl. reflexivity.
  - apply not_elem_of_cons in H as [Hx H].
    replace (x =? c) with false by (symmetry; apply Z.eqb_neq; congruence).
    rewrite IH by exact H. reflexivity.
Qed.

Lemma strchr_absent s c : c <> NUL -> c ∉ s -> strchr s c = None.
Proof.
  intros Hc. induction s as [|x s IH]; intros H; cbn [strchr].
  - replace (c =? NUL) with false by (symmetry; apply Z.eqb_neq; exact Hc).
    reflexivity.
  - apply not_elem_of_cons in H as [Hx H].
    replace (x =? c) with false by (symmetry; apply Z.eqb_neq; congruence).
    rewrite IH by exact H. reflexivity.
Qed.

Lemma strrchr_absent s c : c <> NUL -> c ∉ s -> strrchr s c = None.
Proof.
  intros Hc H. apply strrchr_not_found; [exact Hc|].
  apply strchr_absent; assumption.
Qed.

Lemma strrchr_app_last pre c post :
  c <> NUL -> c ∉ post -> strrchr (pre ++ c :: post) c = Some (length pre).
Proof.
  intros Hc H. rewrite strrchr_app_cons by exact Hc.
  rewrite strrchr_absent by assumption. rewrite Nat.add_0_r. reflexivity.
Qed.

(** The locale [ll_TT.cs] as [catopen] splits it. *)
Lemma split_locale_full ll tt cs :
  chr "_" ∉ ll -> chr "." ∉ cs ->
  split_locale (ll ++ chr "_" :: tt ++ chr "." :: cs)
  = mk_locale (ll ++ chr "_" :: tt ++ chr "." :: cs) (mk_pointer LocaleName 0)
      (Some (length ll)) (Some (length ll + S (length tt)))%nat.
Proof.
  intros Hll Hcs. unfold split_locale.
  rewrite strchr_app_cons by exact Hll.
  replace (ll ++ chr "_" :: tt ++ chr "." :: cs)
    with ((ll ++ chr "_" :: tt) ++ chr "." :: cs)
    by (rewrite <- app_assoc; reflexivity).
  rewrite strrchr_app_last by (assumption || discriminate).
  rewrite length_app. cbn [length].
  replace (length ll + S (length tt) <? length ll)%nat with false
    by (symmetry; apply Nat.ltb_ge; lia).
  reflexivity.
Qed.

(** The locale [ll.cs] as [catopen] splits it. *)
Lemma split_locale_codeset ll cs :
  chr "_" ∉ ll -> chr "_" ∉ cs -> chr "." ∉ cs ->
  split_locale (ll ++ chr "." :: cs)
  = mk_locale (ll ++ chr "." :: cs) (mk_pointer LocaleName 0)
      None (Some (length ll)).
Proof.
  intros Hll Hcs Hdot. unfold split_locale.
  rewrite strchr_absent.
  - rewrite strrchr_app_last by (assumption || discriminate). reflexivity.
  - discriminate.
  - intros H. apply elem_of_app in H as [H|H]; [exact (Hll H)|].
    apply elem_of_cons in H as [H|H]; [discriminate H|exact (Hcs H)].
Qed.

(** X25.  The conversions of a locale with a codeset: [%l] is the language,
    the characters before the [_], or before the [.] when there is no
    [_]; [%t] is the territory, the characters between the [_] and the
    last [.], and nothing when there is no [_]; [%c] is the codeset, the
    characters behind the last [.]; [%L] is the whole locale. *)
Theorem locale_parts (ll tt cs name tmppath : list Z) :
  bytes ll -> bytes tt -> ll <> [] -> tt <> [] ->
  chr "_" ∉ ll -> chr "." ∉ cs ->
  NUL ∉ ll -> NUL ∉ tt -> NUL ∉ cs ->
  let full := ll ++ chr "_" :: tt ++ chr "." :: cs in
  let short := ll ++ chr "." :: cs in
  let expand lang conv :=
    expand_segment cross_array_ge (split_locale lang) name conv tmppath in
  expand full (lit "%l") = Ret (tmppath ++ ll, [])
  /\ expand full (lit "%t") = Ret (tmppath ++ tt, [])
  /\ expand full (lit "%c") = Ret (tmppath ++ cs, [])
  /\ expand full (lit "%L") = Ret (tmppath ++ full, [])
  /\ (chr "_" ∉ cs ->
      expand short (lit "%l") = Ret (tmppath ++ ll, [])
      /\ expand short (lit "%t") = Ret (tmppath, [])
      /\ expand short (lit "%c") = Ret (tmppath ++ cs, [])
      /\ expand short (lit "%L") = Ret (tmppath ++ short, [])).
Proof.
  intros Hbl Hbt Hnl Hnt Hul Hdc Hzl Hzt Hzc full short expand.
  assert (Hzf : NUL ∉ full).
  { subst full. intros H. apply elem_of_app in H as [H|H]; [exact (Hzl H)|].
    apply elem_of_cons in H as [H|H]; [discriminate H|].
    apply elem_of_app in H as [H|H]; [exact (Hzt H)|].
    apply elem_of_cons in H as [H|H]; [discriminate H|exact (Hzc H)]. }
  assert (Hzs : NUL ∉ short).
  { subst short. intros H. apply elem_of_app in H as [H|H]; [exact (Hzl H)|].
    apply elem_of_cons in H as [H|H]; [discriminate H|exact (Hzc H)]. }
  subst expand. cbv beta.
  change (lit "%l") with [chr "%"; chr "l"].
  change (lit "%t") with [chr "%"; chr "t"].
  change (lit "%c") with [chr "%"; chr "c"].
  change (lit "%L") with [chr "%"; chr "L"].
  rewrite !expand_conversion. unfold conversion. simpl Z.eqb. cbv iota.
  subst full short.
  split; [|split; [|split; [|split]]].
  - rewrite split_locale_full by assumption.
    cbn [lc_lang lc_sep lc_dot lc_name chars_at base offset]. rewrite drop_0.
    rewrite (language_part_sep _ ll _ 0 tmppath (length ll));
      [|reflexivity|assumption|reflexivity|intros d [= <-]; lia].
    rewrite map_to_char by assumption. reflexivity.
  - rewrite split_locale_full by assumption.
    cbn [lc_lang lc_sep lc_dot lc_name chars_at base offset].
    replace (drop (S (length ll)) (ll ++ chr "_" :: tt ++ chr "." :: cs))
      with (tt ++ chr "." :: cs)
      by (change (ll ++ chr "_" :: tt ++ chr "." :: cs)
            with (ll ++ [chr "_"] ++ tt ++ chr "." :: cs);
          rewrite app_assoc;
          replace (S (length ll)) with (length (ll ++ [chr "_"]))
            by (rewrite length_app; simpl; lia);
          rewrite drop_app_length; reflexivity).
    rewrite (territory_part_dot _ tt _ (S (length ll)) tmppath
               (length ll + S (length tt)));
      [|reflexivity|assumption|lia].
    rewrite map_to_char by assumption. reflexivity.
  - rewrite split_locale_full by assumption.
    cbn [lc_lang lc_sep lc_dot lc_name chars_at base offset].
    rewrite DSappendcstr_all.
    replace (drop (S (length ll + S (length tt)))
               (ll ++ chr "_" :: tt ++ chr "." :: cs)) with cs.
    + rewrite c_str_id by assumption. reflexivity.
    + change (ll ++ chr "_" :: tt ++ chr "." :: cs)
        with (ll ++ [chr "_"] ++ tt ++ [chr "."] ++ cs).
      rewrite !app_assoc.
      replace (S (length ll + S (length tt)))
        with (length (((ll ++ [chr "_"]) ++ tt) ++ [chr "."]))
        by (rewrite !length_app; simpl; lia).
      rewrite drop_app_length. reflexivity.
  - rewrite split_locale_full by assumption.
    cbn [lc_lang lc_sep lc_dot lc_name chars_at base offset]. rewrite drop_0.
    rewrite DSappendcstr_all, c_str_id by assumption. reflexivity.
  - intros Huc. rewrite split_locale_codeset by assumption.
    cbn [lc_lang lc_sep lc_dot lc_name chars_at base offset]. rewrite drop_0.
    split; [|split; [|split]].
    + rewrite (language_part_dot _ ll _ 0 tmppath (length ll));
        [|reflexivity|reflexivity|assumption|reflexivity].
      rewrite map_to_char by assumption. reflexivity.
    + reflexivity.
    + rewrite DSappendcstr_all.
      replace (drop (S (length ll)) (ll ++ chr "." :: cs)) with cs.
      * rewrite c_str_id by assumption. reflexivity.
      * change (ll ++ chr "." :: cs) with (ll ++ [chr "."] ++ cs).
        rewrite app_assoc.
        replace (S (length ll)) with (length (ll ++ [chr "."]))
          by (rewrite length_app; simpl; lia).
        rewrite drop_app_length. reflexivity.
    + rewrite DSappendcstr_all, c_str_id by assumption. reflexivity.
Qed.

End LocaleParts.

(** *** The order of the search *)

Section SearchOrder.
Variable fopen : list Z -> fopen_result.
Variable cross_array_ge : bool.

Lemma expand_segment_end lc name n seg t t' rest :
  (length seg <= n)%nat ->
  expand_segment cross_array_ge lc name seg t = Ret (t', []) ->
  rest = [] \/ (exists r, rest = chr ";" :: r) ->
  expand_segment cross_array_ge lc name (seg ++ rest) t = Ret (t', rest).
Proof.
  intros Hn H Hrest. revert seg t Hn H.
  induction n as [|n IH]; intros seg t Hn H.
  - destruct seg; [|simpl in Hn; lia]. cbn in H. injection H as <-.
    rewrite app_nil_l. destruct Hrest as [->|[r ->]]; reflexivity.
  - destruct seg as [|c seg].
    { cbn in H. injection H as <-. rewrite app_nil_l.
      destruct Hrest as [->|[r ->]]; reflexivity. }
    cbn [app expand_segment] in *. destruct (c =? chr ";"); [discriminate|].
    destruct (c =? chr "%").
    + destruct seg as [|d seg]; [discriminate|]. cbn [app].
      apply IH; [simpl in Hn; lia|exact H].
    + apply IH; [simpl in Hn; lia|exact H].
Qed.

Lemma DSremove_all (s : list Z) : DSremove s 0 NPOS = Ret [].
Proof.
  unfold DSremove, clip, DSlength.
  replace (Z.of_nat (length s) <? 0) with false by (symmetry; apply Z.ltb_ge; lia).
  rewrite Z.leb_refl. cbn [take app].
  rewrite Z.add_0_l, Z.sub_0_r, Nat2Z.id, drop_all. reflexivity.
Qed.

Lemma join_path_cons seg seg' segs :
  join_path (seg :: seg' :: segs) = seg ++ chr ";" :: join_path (seg' :: segs).
Proof. reflexivity. Qed.

Lemma catopen_loop_segments lc name segs paths (trail : bool) fuel w :
  Forall2 (fun seg path =>
             seg <> []
             /\ expand_segment cross_array_ge lc name seg [] = Ret (path, []))
    segs paths ->
  segs <> [] ->
  (length (join_path segs ++ (if trail then [chr ";"] else [])) < fuel)%nat ->
  catopen_loop fopen cross_array_ge fuel lc name
    (join_path segs ++ (if trail then [chr ";"] else [])) [] w
  = search_files fopen (map DScstr paths) w.
Proof.
  intros H. revert fuel w.
  induction H as [|seg path segs paths [Hne Hexp] Hrest IH]; intros fuel w Hnn Hf;
    [congruence|].
  destruct fuel as [|fuel]; [lia|]. rewrite catopen_loop_unfold.
  destruct segs as [|seg' segs].
  - inversion Hrest. subst. cbn [join_path map search_files].
    rewrite (expand_segment_end lc name (length seg) seg [] path);
      [|lia|exact Hexp|destruct trail; eauto].
    cbn [mbind outcome_bind].
    destruct (catread fopen (DScstr path) w) as [[[cat|] w1]|];
      cbn [mbind outcome_bind]; try reflexivity.
    rewrite DSremove_all. destruct trail; reflexivity.
  - rewrite join_path_cons, <- app_assoc. cbn [app].
    rewrite (expand_segment_end lc name (length seg) seg [] path);
      [|lia|exact Hexp|eauto].
    cbn [mbind outcome_bind map search_files].
    destruct (catread fopen (DScstr path) w) as [[[cat|] w1]|];
      cbn [mbind outcome_bind]; try reflexivity.
    rewrite DSremove_all. cbn [mbind outcome_bind].
    assert (Hs : exists x r,
               join_path (seg' :: segs) ++ (if trail then [chr ";"] else [])
               = x :: r).
    { inversion Hrest as [|? ? ? ? [Hne' _] _]. subst.
      destruct seg' as [|x seg']; [congruence|].
      destruct segs; cbn; eauto. }
    destruct Hs as (x & r & Hs). rewrite Hs, <- Hs.
    apply IH; [discriminate|].
    rewrite join_path_cons, <- app_assoc, length_app in Hf. cbn [app length] in Hf.
    lia.
Qed.

(** X26.  The loop of [catopen] over the template, with its pointer into the
    template and the buffer it fills again and again, is a search over
    the list of the expanded segments: the segments between the [;] are
    expanded and tried in their order, and the first file that can be
    read is installed.  A [;] at the very end of the template adds no
    candidate. *)
Theorem catopen_search_order (lang name : list Z) (segs paths : list (list Z))
    (trail : bool) (w : World) :
  Forall2 (fun seg path =>
             seg <> []
             /\ expand_segment cross_array_ge (split_locale lang) name seg []
                = Ret (path, []))
    segs paths ->
  segs <> [] ->
  catopen_search fopen cross_array_ge
    (join_path segs ++ (if trail then [chr ";"] else [])) lang name w
  = search_files fopen (map DScstr paths) w.
Proof.
  intros H Hne. unfold catopen_search.
  apply catopen_loop_segments; [exact H|exact Hne|lia].
Qed.

End SearchOrder.

(** ** A catalogue from the file to the message *)

Section EndToEnd.
Variable NL_CAT_LOCALE EBADF : Z.
Variable ENOMSG : option Z.
Variable getenv : list Z -> option (list Z).
Variable fopen : list Z -> fopen_result.
Variable cross_array_ge : bool.

(** X27.  A file of well-formed entries that is opened by its path: [catopen]
    returns a descriptor that was not valid before and is valid now;
    [catgets] on it returns, for the key of every entry, the text of an
    entry with that key, as [transform_string] made it and up to its
    first NUL, and for a key that no entry has the default of the
    caller. *)
Theorem catalogue_end_to_end (es : list entry) (path : list Z) (oflag : Z)
    (w : World) (dflt : list Z) :
  is_Some (strpbrk path (lit "\/:")) ->
  fopen path = File (catalogue_file es) ->
  Forall well_formed es -> es <> [] ->
  exists catd w1,
    catopen NL_CAT_LOCALE getenv fopen cross_array_ge (Some path) oflag w
    = Ret (catd, w1)
    /\ valid catd w1 /\ ~ valid catd w
    /\ (forall e, e ∈ es ->
        exists e', e' ∈ es
          /\ decimal (e_set e') = decimal (e_set e)
          /\ decimal (e_msg e') = decimal (e_msg e)
          /\ (catgets EBADF ENOMSG catd (decimal (e_set e))
                (decimal (e_msg e)) dflt w1).1
             = DScstr (transformed (e_text e')))
    /\ (forall sid mid,
          (forall e, e ∈ es ->
             ~ (decimal (e_set e) = sid /\ decimal (e_msg e) = mid)) ->
          (catgets EBADF ENOMSG catd sid mid dflt w1).1 = dflt).
Proof.
  intros Hsep Hfile Hes Hne.
  set (table := qsort catmsg_cmp (map entry_message es)).
  set (w0 := log_fopen path w).
  set (i := first_closed (slots w0) 0).
  exists (Z.of_nat i), (set_catalogues (installed (mk_catalog 0 table) (slots w0)) w0).
  assert (Hopen : catopen NL_CAT_LOCALE getenv fopen cross_array_ge (Some path)
                    oflag w
                  = Ret (Z.of_nat i,
                         set_catalogues (installed (mk_catalog 0 table) (slots w0))
                           w0)).
  { rewrite catopen_direct by exact Hsep. unfold catread. rewrite Hfile.
    rewrite catread_file_entries by assumption.
    cbn [mbind outcome_bind]. apply install_catalog_slots. }
  split; [exact Hopen|].
  assert (Hslot : slots (set_catalogues (installed (mk_catalog 0 table) (slots w0)) w0)
                  !! i = Some (mk_catalog 1 table)).
  { rewrite slots_set_catalogues. apply (installed_lookup (mk_catalog 0 table)). }
  assert (Hos : open_slot (Z.of_nat i)
                  (set_catalogues (installed (mk_catalog 0 table) (slots w0)) w0)
                = Some (i, mk_catalog 1 table)).
  { apply open_slot_lookup; [exact Hslot|]. unfold opened. simpl. lia. }
  split.
  { split; [lia|]. exists (mk_catalog 1 table). rewrite Nat2Z.id.
    split; [exact Hslot|]. simpl. lia. }
  split.
  { intros Hv. apply first_closed_not_valid in Hv. apply Hv.
    rewrite Nat2Z.id. reflexivity. }
  split.
  - intros e He.
    destruct (bsearch_hit (decimal (e_set e)) (decimal (e_msg e)) table
                (entry_message e)) as (m' & Hb & Hin & Hk1 & Hk2).
    + apply qsort_sorted.
    + apply qsort_elem. apply list_elem_of_fmap. eauto.
    + split; reflexivity.
    + apply qsort_elem in Hin. apply list_elem_of_fmap in Hin as (e' & -> & He').
      exists e'. split; [exact He'|]. split; [exact Hk1|]. split; [exact Hk2|].
      rewrite (catgets_open EBADF ENOMSG _ _ _ _ _ _ _ Hos).
      cbn [msgs]. rewrite Hb. reflexivity.
  - intros sid mid Hno.
    rewrite (catgets_open EBADF ENOMSG _ _ _ _ _ _ _ Hos). cbn [msgs].
    rewrite bsearch_miss; [reflexivity|].
    intros m Hm [Hk1 Hk2]. apply qsort_elem in Hm.
    apply list_elem_of_fmap in Hm as (e & -> & He).
    apply (Hno e He). split; assumption.
Qed.

End EndToEnd.

(** ** The default template *)

Section DefaultPath.
Variable NL_CAT_LOCALE : Z.
Variable getenv : list Z -> option (list Z).
Variable fopen : list Z -> fopen_result.
Variable cross_array_ge : bool.

Lemma expand_segment_char lc name c s t :
  c <> chr ";" -> c <> chr "%" ->
  expand_segment cross_array_ge lc name (c :: s) t
  = expand_segment cross_array_ge lc name s (t ++ [to_char c]).
Proof.
  intros H1 H2. cbn [expand_segment].
  replace (c =? chr ";") with false by (symmetry; apply Z.eqb_neq; exact H1).
  replace (c =? chr "%") with false by (symmetry; apply Z.eqb_neq; exact H2).
  reflexivity.
Qed.

Lemma expand_segment_percent lc name d s t :
  expand_segment cross_array_ge lc name (chr "%" :: d :: s) t
  = expand_segment cross_array_ge lc name s
      (conversion cross_array_ge lc name d t).
Proof. reflexivity. Qed.

Lemma conversion_N lc name t :
  NUL ∉ name ->
  conversion cross_array_ge lc name (chr "N") t = t ++ name.
Proof.
  intros H. unfold conversion. simpl Z.eqb. cbv iota.
  rewrite DSappendcstr_all, c_str_id by exact H. reflexivity.
Qed.

Lemma conversion_L lang name t :
  NUL ∉ lang ->
  conversion cross_array_ge (split_locale lang) name (chr "L") t
  = t ++ (if has_codeset lang then lang else NLS_DEFAULT_LANG).
Proof.
  intros H. unfold conversion. simpl Z.eqb. cbv iota.
  rewrite DSappendcstr_all, split_locale_lang. unfold chars_at.
  destruct (has_codeset lang); simpl base; cbv iota.
  - rewrite split_locale_name. simpl offset. rewrite drop_0, c_str_id by exact H.
    reflexivity.
  - reflexivity.
Qed.

Lemma conversion_l_default lang name t :
  has_codeset lang = false ->
  conversion cross_array_ge (split_locale lang) name (chr "l") t
  = t ++ NLS_DEFAULT_LANG.
Proof.
  intros Hno. unfold conversion. simpl Z.eqb. cbv iota.
  rewrite split_locale_lang, Hno. unfold chars_at. simpl.
  unfold below, ptr_ge. rewrite (split_locale_dot lang Hno).
  destruct (lc_sep (split_locale lang)); simpl;
    [destruct cross_array_ge|]; reflexivity.
Qed.

Lemma conversion_c_default lang name t :
  has_codeset lang = false ->
  conversion cross_array_ge (split_locale lang) name (chr "c") t = t.
Proof.
  intros Hno. unfold conversion. simpl Z.eqb. cbv iota.
  rewrite (split_locale_dot lang Hno). reflexivity.
Qed.

Lemma conversion_l_full ll tt cs name t :
  bytes ll -> ll <> [] -> chr "_" ∉ ll -> chr "." ∉ cs ->
  conversion cross_array_ge
    (split_locale (ll ++ chr "_" :: tt ++ chr "." :: cs)) name (chr "l") t
  = t ++ ll.
Proof.
  intros Hb Hne Hu Hd. unfold conversion. simpl Z.eqb. cbv iota.
  rewrite split_locale_full by assumption.
  cbn [lc_lang lc_sep lc_dot lc_name chars_at base offset]. rewrite drop_0.
  rewrite (language_part_sep _ _ ll _ 0 t (length ll));
    [|reflexivity|assumption|reflexivity|intros d [= <-]; lia].
  rewrite map_to_char by assumption. reflexivity.
Qed.

Lemma conversion_c_full ll tt cs name t :
  chr "_" ∉ ll -> chr "." ∉ cs -> NUL ∉ cs ->
  conversion cross_array_ge
    (split_locale (ll ++ chr "_" :: tt ++ chr "." :: cs)) name (chr "c") t
  = t ++ cs.
Proof.
  intros Hu Hd Hz. unfold conversion. simpl Z.eqb. cbv iota.
  rewrite split_locale_full by assumption.
  cbn [lc_lang lc_sep lc_dot lc_name chars_at base offset].
  rewrite DSappendcstr_all.
  replace (drop (S (length ll + S (length tt)))
             (ll ++ chr "_" :: tt ++ chr "." :: cs)) with cs.
  - rewrite c_str_id by assumption. reflexivity.
  - change (ll ++ chr "_" :: tt ++ chr "." :: cs)
      with (ll ++ [chr "_"] ++ tt ++ [chr "."] ++ cs).
    rewrite !app_assoc.
    replace (S (length ll + S (length tt)))
      with (length (((ll ++ [chr "_"]) ++ tt) ++ [chr "."]))
      by (rewrite !length_app; simpl; lia).
    rewrite drop_app_length. reflexivity.
Qed.

Lemma has_codeset_full ll tt cs :
  chr "_" ∉ ll -> chr "." ∉ cs ->
  has_codeset (ll ++ chr "_" :: tt ++ chr "." :: cs) = true.
Proof.
  intros Hu Hd. unfold has_codeset.
  rewrite strchr_app_cons by exact Hu.
  replace (ll ++ chr "_" :: tt ++ chr "." :: cs)
    with ((ll ++ chr "_" :: tt) ++ chr "." :: cs)
    by (rewrite <- app_assoc; reflexivity).
  rewrite strrchr_app_last by (assumption || discriminate).
  rewrite length_app. cbn [length].
  replace (length ll + S (length tt) <? length ll)%nat with false
    by (symmetry; apply Nat.ltb_ge; lia).
  reflexivity.
Qed.

Ltac expand_default :=
  repeat first
    [ rewrite expand_segment_char by (vm_compute; discriminate)
    | rewrite expand_segment_percent ].

(** The three segments of the default template. *)
Lemma default_path_segments :
  NLS_DEFAULT_PATH
  = join_path [lit "/usr/share/nls/%L/%N.cat";
               lit "/usr/share/nls/%l.%c/%N.cat";
               lit "/usr/share/nls/%l/%N.cat"].
Proof. reflexivity. Qed.

Lemma c_str_path (p : list Z) : NUL ∉ p -> DScstr p = p.
Proof. apply c_str_id. Qed.

Lemma not_elem_of_app_2 {A} (x : A) l1 l2 : x ∉ l1 -> x ∉ l2 -> x ∉ l1 ++ l2.
Proof. intros H1 H2 H. apply elem_of_app in H as [H|H]; auto. Qed.

Lemma catopen_default_search name lang oflag w paths :
  getenv (lit "NLSPATH") = None ->
  name <> [] -> strpbrk name (lit "\/:") = None ->
  catopen_lang NL_CAT_LOCALE getenv oflag = lang ->
  Forall2 (fun seg path =>
             seg <> []
             /\ expand_segment cross_array_ge (split_locale lang) name seg []
                = Ret (path, []))
    [lit "/usr/share/nls/%L/%N.cat"; lit "/usr/share/nls/%l.%c/%N.cat";
     lit "/usr/share/nls/%l/%N.cat"] paths ->
  Forall (fun path => NUL ∉ path) paths ->
  catopen NL_CAT_LOCALE getenv fopen cross_array_ge (Some name) oflag w
  = search_files fopen paths w.
Proof.
  intros Hnls Hne Hsep Hlang Hexp Hnul.
  destruct name as [|c cs]; [congruence|].
  rewrite (catopen_search_path _ _ _ _ _ _ _ c cs) by (assumption || reflexivity).
  rewrite Hnls, Hlang. cbn [default from_option id]. unfold catopen_search.
  pose proof (catopen_loop_segments fopen cross_array_ge (split_locale lang)
                (c :: cs) _ paths false
                (S (length (join_path [lit "/usr/share/nls/%L/%N.cat";
                                       lit "/usr/share/nls/%l.%c/%N.cat";
                                       lit "/usr/share/nls/%l/%N.cat"])))
                w Hexp ltac:(discriminate)) as H.
  rewrite app_nil_r in H. specialize (H ltac:(lia)).
  etransitivity; [exact H|].
  f_equal. clear -Hnul. induction Hnul as [|p ps Hp Hps IH]; [reflexivity|].
  cbn [map]. rewrite c_str_path by exact Hp. rewrite IH. reflexivity.
Qed.

Ltac lit_cons :=
  repeat match goal with
  | |- context [lit ?s] =>
      let v := eval vm_compute in (lit s) in change (lit s) with v
  end.

(** X28.  With the default template the locale counts only when it has a
    codeset.  For a locale without one, whatever it is, the files tried
    are those of the locale "C": [/usr/share/nls/C/name.cat], then
    [/usr/share/nls/C./name.cat], then the first again.  For [ll_TT.cs]
    they are [/usr/share/nls/ll_TT.cs/name.cat], then
    [/usr/share/nls/ll.cs/name.cat], then [/usr/share/nls/ll/name.cat]. *)
Theorem catopen_default_path (name lang : list Z) (oflag : Z) (w : World) :
  getenv (lit "NLSPATH") = None ->
  name <> [] -> strpbrk name (lit "\/:") = None -> NUL ∉ name ->
  catopen_lang NL_CAT_LOCALE getenv oflag = lang -> NUL ∉ lang ->
  let nls := lit "/usr/share/nls/" in
  let file := chr "/" :: name ++ lit ".cat" in
  (has_codeset lang = false ->
   catopen NL_CAT_LOCALE getenv fopen cross_array_ge (Some name) oflag w
   = search_files fopen
       [nls ++ lit "C" ++ file; nls ++ lit "C." ++ file; nls ++ lit "C" ++ file]
       w)
  /\ (forall ll tt cs,
        lang = ll ++ chr "_" :: tt ++ chr "." :: cs ->
        bytes ll -> ll <> [] -> chr "_" ∉ ll -> chr "." ∉ cs ->
        catopen NL_CAT_LOCALE getenv fopen cross_array_ge (Some name) oflag w
        = search_files fopen
            [nls ++ lang ++ file; nls ++ ll ++ chr "." :: cs ++ file;
             nls ++ ll ++ file] w).
Proof.
  intros Hnls Hne Hsep Hzn Hlang Hzl nls file.
  assert (Hcat : NUL ∉ lit ".cat") by decided.
  assert (Hfile : NUL ∉ file).
  { subst file. intros H. apply elem_of_cons in H as [H|H]; [discriminate H|].
    apply elem_of_app in H as [H|H]; [exact (Hzn H)|exact (Hcat H)]. }
  assert (Hznls : NUL ∉ nls) by (subst nls; decided).
  split.
  - intros Hno. apply (catopen_default_search name lang); try assumption.
    + repeat constructor; try discriminate.
      * lit_cons. expand_default. cbn [expand_segment].
        rewrite conversion_N, conversion_L, Hno by assumption.
        subst nls file. lit_cons. rewrite <- !app_assoc. reflexivity.
      * lit_cons. expand_default. cbn [expand_segment].
        rewrite conversion_N, conversion_c_default, conversion_l_default
          by assumption.
        subst nls file. lit_cons. rewrite <- !app_assoc. reflexivity.
      * lit_cons. expand_default. cbn [expand_segment].
        rewrite conversion_N, conversion_l_default by assumption.
        subst nls file. lit_cons. rewrite <- !app_assoc. reflexivity.
    + repeat constructor;
        repeat (apply not_elem_of_app_2; try assumption); decided.
  - intros ll tt cs Hsplit Hb Hnl Hu Hd.
    assert (Hzll : NUL ∉ ll).
    { intros H. apply Hzl. rewrite Hsplit. apply elem_of_app. auto. }
    assert (Hzcs : NUL ∉ cs).
    { intros H. apply Hzl. rewrite Hsplit. apply elem_of_app. right.
      apply list_elem_of_further. apply elem_of_app. right.
      apply list_elem_of_further. exact H. }
    apply (catopen_default_search name lang); try assumption.
    + repeat constructor; try discriminate.
      * lit_cons. expand_default. cbn [expand_segment].
        rewrite conversion_N, conversion_L by assumption.
        rewrite Hsplit at 1. rewrite has_codeset_full by assumption.
        subst nls file. lit_cons. rewrite <- !app_assoc. reflexivity.
      * lit_cons. expand_default. cbn [expand_segment].
        rewrite conversion_N by assumption. rewrite Hsplit.
        rewrite conversion_c_full, conversion_l_full by assumption.
        subst nls file. lit_cons. rewrite <- !app_assoc. reflexivity.
      * lit_cons. expand_default. cbn [expand_segment].
        rewrite conversion_N by assumption. rewrite Hsplit.
        rewrite conversion_l_full by assumption.
        subst nls file. lit_cons. rewrite <- !app_assoc. reflexivity.
    + repeat constructor.
      * repeat (apply not_elem_of_app_2; try assumption).
      * apply not_elem_of_app_2; [assumption|].
        apply not_elem_of_app_2; [assumption|].
        intros H. apply elem_of_cons in H as [H|H]; [discriminate H|].
        revert H. apply not_elem_of_app_2; assumption.
      * repeat (apply not_elem_of_app_2; try assumption).
Qed.

End DefaultPath.

(** ** The word-at-a-time [strchr] *)

(** *** Bytes in a word *)

Lemma split_mod c y : 0 <= c < 256 -> (c + 256 * y) mod 256 = c.
Proof.
  intros Hc. replace (c + 256 * y) with (c + y * 256) by lia.
  rewrite Z.mod_add by lia. apply Z.mod_small. exact Hc.
Qed.

Lemma split_div c y : 0 <= c < 256 -> (c + 256 * y) / 256 = y.
Proof.
  intros Hc. replace (c + 256 * y) with (c + y * 256) by lia.
  rewrite Z.div_add by lia. rewrite Z.div_small by exact Hc. lia.
Qed.

Lemma land_mod u v : Z.land u v mod 256 = Z.land (u mod 256) (v mod 256).
Proof.
  change 256 with (2 ^ 8). rewrite <- !Z.land_ones by lia.
  apply Z.bits_inj'. intros n Hn. rewrite !Z.land_spec.
  destruct (Z.testbit u n), (Z.testbit v n), (Z.testbit (Z.ones 8) n);
    reflexivity.
Qed.

Lemma land_div u v : Z.land u v / 256 = Z.land (u / 256) (v / 256).
Proof.
  change 256 with (2 ^ 8). rewrite <- !Z.shiftr_div_pow2 by lia.
  apply Z.shiftr_land.
Qed.

Lemma lxor_mod u v : Z.lxor u v mod 256 = Z.lxor (u mod 256) (v mod 256).
Proof.
  change 256 with (2 ^ 8). rewrite <- !Z.land_ones by lia.
  apply Z.bits_inj'. intros n Hn. rewrite !Z.land_spec, !Z.lxor_spec, !Z.land_spec.
  destruct (Z.testbit u n), (Z.testbit v n), (Z.testbit (Z.ones 8) n);
    reflexivity.
Qed.

Lemma lxor_div u v : Z.lxor u v / 256 = Z.lxor (u / 256) (v / 256).
Proof.
  change 256 with (2 ^ 8). rewrite <- !Z.shiftr_div_pow2 by lia.
  apply Z.shiftr_lxor.
Qed.

Lemma split_eq z : z = z mod 256 + 256 * (z / 256).
Proof. pose proof (Z.div_mod z 256 ltac:(lia)). lia. Qed.

(** The test of [DETECTNULL] on one byte: it fires on 0 and on no other
    byte that nothing was borrowed from. *)
Lemma detect_byte b :
  0 < b < 256 -> Z.land (Z.land (b - 1) (255 - b)) 128 = 0.
Proof.
  intros Hb.
  assert (H : forallb (fun b => Z.land (Z.land (b - 1) (255 - b)) 128 =? 0)
                (map Z.of_nat (seq 1 255)) = true) by (vm_compute; reflexivity).
  rewrite forallb_forall in H. apply Z.eqb_eq. apply H.
  apply in_map_iff. exists (Z.to_nat b). split; [lia|].
  apply in_seq. lia.
Qed.

Lemma detect_bytes bs :
  bytes bs ->
  Z.land (Z.land (le_combine bs - lows (length bs)) (Z.lnot (le_combine bs)))
    (highs (length bs)) <> 0
  <-> 0 ∈ bs.
Proof.
  induction 1 as [|b bs Hb Hbs IH].
  - split; [intros H; exfalso; apply H; reflexivity|]. intros H. inversion H.
  - unfold lows, highs in *. cbn [length replicate le_combine].
    set (X := le_combine bs) in *. set (L := le_combine (replicate (length bs) 1)) in *.
    set (H := le_combine (replicate (length bs) 128)) in *.
    rewrite (split_eq (Z.land (Z.land _ _) _)).
    rewrite land_mod, land_div, land_mod, land_div.
    rewrite (split_mod 128), (split_div 128) by lia.
    replace (Z.lnot (b + 256 * X)) with ((255 - b) + 256 * Z.lnot X)
      by (unfold Z.lnot; lia).
    rewrite (split_mod (255 - b)), (split_div (255 - b)) by lia.
    destruct (decide (b = 0)) as [->|Hne].
    + replace (0 + 256 * X - (1 + 256 * L)) with (255 + 256 * (X - L - 1)) by lia.
      rewrite (split_mod 255), (split_div 255) by lia.
      change (Z.land (Z.land 255 (255 - 0)) 128) with 128.
      split; [intros _; apply list_elem_of_here|intros _; lia].
    + replace (b + 256 * X - (1 + 256 * L)) with ((b - 1) + 256 * (X - L)) by lia.
      rewrite (split_mod (b - 1)), (split_div (b - 1)) by lia.
      rewrite detect_byte by lia.
      rewrite elem_of_cons. split.
      * intros Hd. right. apply IH. lia.
      * intros [H0|Hin]; [congruence|]. apply IH in Hin. lia.
Qed.

Lemma le_combine_bound bs :
  bytes bs -> 0 <= le_combine bs < 2 ^ (8 * Z.of_nat (length bs)).
Proof.
  induction 1 as [|b bs Hb Hbs IH]; [simpl; lia|].
  cbn [le_combine length].
  replace (8 * Z.of_nat (S (length bs))) with (8 + 8 * Z.of_nat (length bs)) by lia.
  rewrite Z.pow_add_r by lia. change (2 ^ 8) with 256. lia.
Qed.

(** The wrap-around of [unsigned long] does not show under a mask. *)
Lemma land_ulong_mask k a b h :
  0 <= k -> 0 <= h < 2 ^ k ->
  Z.land (Z.land (a mod 2 ^ k) (b mod 2 ^ k)) h = Z.land (Z.land a b) h.
Proof.
  intros Hk Hh. rewrite <- (Z.mod_small h (2 ^ k)) by exact Hh.
  apply Z.bits_inj'. intros n Hn.
  rewrite !Z.land_spec, !Z.testbit_mod_pow2 by exact Hk.
  destruct (n <? k), (Z.testbit a n), (Z.testbit b n), (Z.testbit h n);
    reflexivity.
Qed.

Lemma lxor_bytes bs pc :
  bytes bs -> 0 <= pc < 256 ->
  Z.lxor (le_combine bs) (le_combine (replicate (length bs) pc))
  = le_combine (map (fun b => Z.lxor b pc) bs)
  /\ bytes (map (fun b => Z.lxor b pc) bs).
Proof.
  intros Hbs Hpc. induction Hbs as [|b bs Hb Hbs [IH1 IH2]].
  - split; [reflexivity|constructor].
  - cbn [length replicate le_combine map].
    assert (Hx : 0 <= Z.lxor b pc < 256).
    { rewrite <- (Z.mod_small b 256), <- (Z.mod_small pc 256) by lia.
      rewrite <- lxor_mod. apply Z.mod_pos_bound. lia. }
    split; [|constructor; assumption].
    rewrite (split_eq (Z.lxor _ _)), lxor_mod, lxor_div.
    rewrite !split_mod, !split_div by lia. rewrite IH1. reflexivity.
Qed.

Section WordProperties.
Variable ULONG_BYTES : nat.
Variable ALIGN : bool.
Variable big_endian : bool.
Hypothesis ulong_size : ULONG_BYTES = 4%nat \/ ULONG_BYTES = 8%nat.

Lemma DETECTNULL_bytes bs :
  bytes bs -> length bs = ULONG_BYTES ->
  DETECTNULL ULONG_BYTES (le_combine bs) <> 0 <-> 0 ∈ bs.
Proof.
  intros Hbs Hlen. rewrite <- (detect_bytes bs Hbs). rewrite Hlen.
  unfold DETECTNULL, ulong, ULONG_BITS.
  destruct ulong_size as [->| ->]; cbn [Nat.eqb];
    rewrite land_ulong_mask
      by first [lia | vm_compute; split; [discriminate|reflexivity]];
    reflexivity.
Qed.

Lemma mask_loop_bytes i j pc :
  0 <= pc < 256 -> (i + j <= ULONG_BYTES)%nat ->
  mask_loop ULONG_BYTES i (le_combine (replicate j pc)) pc
  = le_combine (replicate (i + j) pc).
Proof.
  intros Hpc. revert j. induction i as [|i IH]; intros j Hij; [reflexivity|].
  cbn [mask_loop].
  replace (Z.land (to_char pc) (Z.lnot (Z.shiftl (Z.lnot 0) 8))) with pc.
  2:{ rewrite to_char_small by exact Hpc.
      change (Z.lnot (Z.shiftl (Z.lnot 0) 8)) with (Z.ones 8).
      rewrite Z.land_ones by lia. symmetry. apply Z.mod_small. exact Hpc. }
  rewrite Z.shiftl_mul_pow2 by lia. change (2 ^ 8) with 256.
  replace (le_combine (replicate j pc) * 256 + pc)
    with (le_combine (replicate (S j) pc)) by (cbn [replicate le_combine]; lia).
  unfold ulong, ULONG_BITS. rewrite Z.mod_small.
  - rewrite IH by lia. f_equal. f_equal. lia.
  - pose proof (le_combine_bound (replicate (S j) pc)
                  ltac:(apply Forall_replicate; exact Hpc)) as Hb.
    rewrite length_replicate in Hb.
    assert (2 ^ (8 * Z.of_nat (S j)) <= 2 ^ (8 * Z.of_nat ULONG_BYTES))
      by (apply Z.pow_le_mono_r; lia).
    lia.
Qed.

Lemma DETECTCHAR_bytes bs pc :
  bytes bs -> length bs = ULONG_BYTES -> 0 <= pc < 256 ->
  DETECTCHAR ULONG_BYTES (le_combine bs) (mask_loop ULONG_BYTES ULONG_BYTES 0 pc)
  <> 0
  <-> pc ∈ bs.
Proof.
  intros Hbs Hlen Hpc. unfold DETECTCHAR.
  pose proof (mask_loop_bytes ULONG_BYTES 0 pc Hpc ltac:(lia)) as Hm.
  rewrite Nat.add_0_r in Hm. cbn [replicate le_combine] in Hm. rewrite Hm.
  rewrite <- Hlen at 2.
  destruct (lxor_bytes bs pc Hbs Hpc) as [Hx Hb]. rewrite Hx.
  rewrite DETECTNULL_bytes by (rewrite ?length_map; assumption).
  rewrite list_elem_of_fmap. split.
  - intros (b & H0 & Hin). symmetry in H0. apply Z.lxor_eq in H0.
    rewrite <- H0. exact Hin.
  - intros Hin. exists pc. split; [|exact Hin]. symmetry. apply Z.lxor_nilpotent.
Qed.

(** X29.  The two tests on a word: [DETECTNULL] is not 0 exactly when one of
    the bytes of the word is 0, and [DETECTCHAR] with the mask that the
    loop fills exactly when one of them is the character looked for. *)
Theorem detect_in_word (bs : list Z) (pc : Z) :
  bytes bs -> length bs = ULONG_BYTES -> 0 <= pc < 256 ->
  (DETECTNULL ULONG_BYTES (le_combine bs) <> 0 <-> NUL ∈ bs)
  /\ (DETECTCHAR ULONG_BYTES (le_combine bs)
        (mask_loop ULONG_BYTES ULONG_BYTES 0 pc) <> 0
      <-> pc ∈ bs)
  /\ mask_loop ULONG_BYTES ULONG_BYTES 0 pc
     = le_combine (replicate ULONG_BYTES pc).
Proof.
  intros Hbs Hlen Hpc. split; [apply DETECTNULL_bytes; assumption|].
  split; [apply DETECTCHAR_bytes; assumption|].
  pose proof (mask_loop_bytes ULONG_BYTES 0 pc Hpc ltac:(lia)) as Hm.
  rewrite Nat.add_0_r in Hm. exact Hm.
Qed.

End WordProperties.

(** *** The loops *)

Section WordLoops.
Variable ULONG_BYTES : nat.
Variable ALIGN : bool.
Variable big_endian : bool.
Hypothesis ulong_size : ULONG_BYTES = 4%nat \/ ULONG_BYTES = 8%nat.

Lemma byte_at_lookup mem o b : mem !! o = Some b -> byte_at mem o = Ret b.
Proof. unfold byte_at. intros ->. reflexivity. Qed.

Lemma first_stop_byte mem pc k :
  first_stop mem pc k ->
  exists b, mem !! k = Some b /\ (b = NUL \/ b = pc) /\ (k < length mem)%nat.
Proof.
  intros [(b & Hb & Hs) _]. exists b. split; [exact Hb|]. split; [exact Hs|].
  apply lookup_lt_Some in Hb. exact Hb.
Qed.

Lemma first_stop_before mem pc k j :
  first_stop mem pc k -> (j < k)%nat ->
  exists b, mem !! j = Some b /\ b <> NUL /\ b <> pc.
Proof.
  intros Hk Hj. destruct (first_stop_byte _ _ _ Hk) as (_ & _ & _ & Hlt).
  destruct (lookup_lt_is_Some_2 mem j ltac:(lia)) as [b Hb].
  exists b. split; [exact Hb|]. exact (proj2 Hk j b Hj Hb).
Qed.

Lemma byte_loop_spec fuel mem o pc k :
  first_stop mem pc k -> (o <= k)%nat -> (k - o < fuel)%nat ->
  byte_loop fuel mem o pc = Ret k.
Proof.
  intros Hk. revert o. induction fuel as [|fuel IH]; intros o Ho Hf; [lia|].
  cbn [byte_loop]. destruct (decide (o = k)) as [->|Hne].
  - destruct (first_stop_byte _ _ _ Hk) as (b & Hb & Hs & _).
    rewrite (byte_at_lookup _ _ _ Hb). cbn [mbind outcome_bind].
    destruct Hs as [->| ->]; rewrite ?Z.eqb_refl; cbn [negb andb];
      rewrite ?andb_false_r; reflexivity.
  - destruct (first_stop_before _ _ _ o Hk ltac:(lia)) as (b & Hb & H0 & Hp).
    rewrite (byte_at_lookup _ _ _ Hb). cbn [mbind outcome_bind].
    replace (b =? NUL) with false by (symmetry; apply Z.eqb_neq; exact H0).
    replace (b =? pc) with false by (symmetry; apply Z.eqb_neq; exact Hp).
    cbn [negb andb]. apply IH; lia.
Qed.

Lemma byte_loop_nul_spec fuel mem o k :
  first_stop mem NUL k -> (o <= k)%nat -> (k - o < fuel)%nat ->
  byte_loop_nul fuel mem o = Ret k.
Proof.
  intros Hk. revert o. induction fuel as [|fuel IH]; intros o Ho Hf; [lia|].
  cbn [byte_loop_nul]. destruct (decide (o = k)) as [->|Hne].
  - destruct (first_stop_byte _ _ _ Hk) as (b & Hb & Hs & _).
    rewrite (byte_at_lookup _ _ _ Hb). cbn [mbind outcome_bind].
    destruct Hs as [->| ->]; reflexivity.
  - destruct (first_stop_before _ _ _ o Hk ltac:(lia)) as (b & Hb & H0 & Hp).
    rewrite (byte_at_lookup _ _ _ Hb). cbn [mbind outcome_bind].
    replace (b =? NUL) with false by (symmetry; apply Z.eqb_neq; exact H0).
    cbn [negb]. apply IH; lia.
Qed.

Lemma align_loop_spec fuel mem addr o pc k :
  first_stop mem pc k -> (o <= k)%nat -> (k - o < fuel)%nat ->
  (exists o', align_loop ULONG_BYTES ALIGN fuel mem addr o pc = Ret (inr o')
              /\ (o <= o' <= k)%nat)
  \/ (exists b, mem !! k = Some b
                /\ align_loop ULONG_BYTES ALIGN fuel mem addr o pc
                   = Ret (inl (if b =? NUL then None else Some k))).
Proof.
  intros Hk. revert o. induction fuel as [|fuel IH]; intros o Ho Hf; [lia|].
  cbn [align_loop].
  destruct (UNALIGNED ULONG_BYTES ALIGN (addr + Z.of_nat o) =? 0).
  { left. exists o. split; [reflexivity|lia]. }
  destruct (decide (o = k)) as [->|Hne].
  - right. destruct (first_stop_byte _ _ _ Hk) as (b & Hb & Hs & _).
    exists b. split; [exact Hb|].
    rewrite (byte_at_lookup _ _ _ Hb). cbn [mbind outcome_bind].
    replace ((b =? NUL) || (b =? pc)) with true; [reflexivity|].
    symmetry. apply orb_true_iff.
    destruct Hs as [->| ->]; rewrite Z.eqb_refl; auto.
  - destruct (first_stop_before _ _ _ o Hk ltac:(lia)) as (b & Hb & H0 & Hp).
    rewrite (byte_at_lookup _ _ _ Hb). cbn [mbind outcome_bind].
    replace (b =? NUL) with false by (symmetry; apply Z.eqb_neq; exact H0).
    replace (b =? pc) with false by (symmetry; apply Z.eqb_neq; exact Hp).
    cbn [orb].
    destruct (IH (S o) ltac:(lia) ltac:(lia)) as [(o' & H & Hr)|H].
    + left. exists o'. split; [exact H|lia].
    + right. exact H.
Qed.

Lemma align_loop_nul_spec fuel mem addr o k :
  first_stop mem NUL k -> (o <= k)%nat -> (k - o < fuel)%nat ->
  (exists o', align_loop_nul ULONG_BYTES ALIGN fuel mem addr o = Ret (inr o')
              /\ (o <= o' <= k)%nat)
  \/ align_loop_nul ULONG_BYTES ALIGN fuel mem addr o = Ret (inl (Some k)).
Proof.
  intros Hk. revert o. induction fuel as [|fuel IH]; intros o Ho Hf; [lia|].
  cbn [align_loop_nul].
  destruct (UNALIGNED ULONG_BYTES ALIGN (addr + Z.of_nat o) =? 0).
  { left. exists o. split; [reflexivity|lia]. }
  destruct (decide (o = k)) as [->|Hne].
  - right. destruct (first_stop_byte _ _ _ Hk) as (b & Hb & Hs & _).
    rewrite (byte_at_lookup _ _ _ Hb). cbn [mbind outcome_bind].
    destruct Hs as [->| ->]; reflexivity.
  - destruct (first_stop_before _ _ _ o Hk ltac:(lia)) as (b & Hb & H0 & Hp).
    rewrite (byte_at_lookup _ _ _ Hb). cbn [mbind outcome_bind].
    replace (b =? NUL) with false by (symmetry; apply Z.eqb_neq; exact H0).
    destruct (IH (S o) ltac:(lia) ltac:(lia)) as [(o' & H & Hr)|H].
    + left. exists o'. split; [exact H|lia].
    + right. exact H.
Qed.

(** The bytes of the word at [o]. *)
Lemma word_at_bytes mem o :
  bytes mem -> (o + ULONG_BYTES <= length mem)%nat ->
  exists bs,
    word_at ULONG_BYTES big_endian mem o = Ret (le_combine bs)
    /\ bytes bs /\ length bs = ULONG_BYTES
    /\ forall b, b ∈ bs <->
         exists j, (o <= j < o + ULONG_BYTES)%nat /\ mem !! j = Some b.
Proof.
  intros Hmem Hlen. unfold word_at. cbv zeta.
  set (bs := take ULONG_BYTES (drop o mem)).
  assert (Hl : length bs = ULONG_BYTES).
  { subst bs. rewrite length_take, length_drop. lia. }
  assert (Hb : bytes bs) by (apply bytes_take, bytes_drop, Hmem).
  assert (Hin : forall b, b ∈ bs <->
            exists j, (o <= j < o + ULONG_BYTES)%nat /\ mem !! j = Some b).
  { intros b. rewrite list_elem_of_lookup. subst bs. split.
    - intros [i Hi]. pose proof (lookup_lt_Some _ _ _ Hi) as Hlt.
      rewrite length_take in Hlt.
      rewrite lookup_take_lt, lookup_drop in Hi by lia.
      exists (o + i)%nat. split; [lia|exact Hi].
    - intros (j & Hj & Hb'). exists (j - o)%nat.
      rewrite lookup_take_lt, lookup_drop by lia.
      replace (o + (j - o))%nat with j by lia. exact Hb'. }
  rewrite Hl, Nat.eqb_refl.
  exists (if big_endian then reverse bs else bs).
  split; [reflexivity|]. destruct big_endian.
  - split; [apply Forall_reverse; exact Hb|].
    split; [rewrite length_reverse; exact Hl|].
    intros b. rewrite elem_of_reverse. apply Hin.
  - auto.
Qed.

Lemma word_loop_spec fuel mem o pc k :
  bytes mem -> 0 <= pc < 256 -> first_stop mem pc k ->
  (o <= k)%nat -> (k + ULONG_BYTES <= length mem)%nat -> (k - o < fuel)%nat ->
  exists o',
    word_loop ULONG_BYTES big_endian fuel mem o
      (mask_loop ULONG_BYTES ULONG_BYTES 0 pc) = Ret o'
    /\ (o <= o' <= k)%nat.
Proof.
  intros Hmem Hpc Hk. revert o.
  induction fuel as [|fuel IH]; intros o Ho Hlen Hf; [lia|].
  cbn [word_loop].
  destruct (word_at_bytes mem o Hmem ltac:(lia)) as (bs & Hw & Hb & Hl & Hin).
  rewrite Hw. cbn [mbind outcome_bind].
  destruct ((DETECTNULL ULONG_BYTES (le_combine bs) =? 0)
            && (DETECTCHAR ULONG_BYTES (le_combine bs)
                  (mask_loop ULONG_BYTES ULONG_BYTES 0 pc) =? 0)) eqn:E.
  - apply andb_true_iff in E as [E0 Ep].
    apply Z.eqb_eq in E0. apply Z.eqb_eq in Ep.
    assert (Hge : (o + ULONG_BYTES <= k)%nat).
    { destruct (le_lt_dec (o + ULONG_BYTES) k) as [H|H]; [exact H|]. exfalso.
      destruct (first_stop_byte _ _ _ Hk) as (b & Hbk & Hs & _).
      assert (Hbin : b ∈ bs) by (apply Hin; exists k; split; [lia|exact Hbk]).
      destruct Hs as [->| ->].
      - apply (DETECTNULL_bytes ULONG_BYTES ulong_size bs Hb Hl) in Hbin.
        contradiction.
      - apply (DETECTCHAR_bytes ULONG_BYTES ulong_size bs pc Hb Hl Hpc) in Hbin.
        contradiction. }
    destruct (IH (o + ULONG_BYTES)%nat ltac:(lia) ltac:(lia)) as (o' & H & Hr).
    { destruct ulong_size; lia. }
    exists o'. split; [exact H|lia].
  - exists o. split; [reflexivity|lia].
Qed.

Lemma word_loop_nul_spec fuel mem o k :
  bytes mem -> first_stop mem NUL k ->
  (o <= k)%nat -> (k + ULONG_BYTES <= length mem)%nat -> (k - o < fuel)%nat ->
  exists o',
    word_loop_nul ULONG_BYTES big_endian fuel mem o = Ret o'
    /\ (o <= o' <= k)%nat.
Proof.
  intros Hmem Hk. revert o.
  induction fuel as [|fuel IH]; intros o Ho Hlen Hf; [lia|].
  cbn [word_loop_nul].
  destruct (word_at_bytes mem o Hmem ltac:(lia)) as (bs & Hw & Hb & Hl & Hin).
  rewrite Hw. cbn [mbind outcome_bind].
  destruct (DETECTNULL ULONG_BYTES (le_combine bs) =? 0) eqn:E0.
  - apply Z.eqb_eq in E0.
    assert (Hge : (o + ULONG_BYTES <= k)%nat).
    { destruct (le_lt_dec (o + ULONG_BYTES) k) as [H|H]; [exact H|]. exfalso.
      destruct (first_stop_byte _ _ _ Hk) as (b & Hbk & Hs & _).
      assert (Hbin : b ∈ bs) by (apply Hin; exists k; split; [lia|exact Hbk]).
      assert (b = NUL) by (destruct Hs; assumption). subst b.
      apply (DETECTNULL_bytes ULONG_BYTES ulong_size bs Hb Hl) in Hbin.
      contradiction. }
    destruct (IH (o + ULONG_BYTES)%nat ltac:(lia) ltac:(lia)) as (o' & H & Hr).
    { destruct ulong_size; lia. }
    exists o'. split; [exact H|lia].
  - exists o. split; [reflexivity|lia].
Qed.

(** Where the byte search stops in a string with its terminator. *)
Lemma first_stop_found s pad c k :
  NUL ∉ s -> c <> NUL -> strchr s c = Some k ->
  first_stop (s ++ NUL :: pad) c k /\ (s ++ NUL :: pad) !! k = Some c
  /\ (k < length s)%nat.
Proof.
  intros Hs Hc Hk. destruct (strchr_split s c k Hc Hk) as [_ Hlt].
  apply strchr_some in Hk as [Hk Hbefore].
  rewrite lookup_app_l in Hk by exact Hlt.
  assert (Hmem : (s ++ NUL :: pad) !! k = Some c)
    by (rewrite lookup_app_l by exact Hlt; exact Hk).
  split; [|split; [exact Hmem|exact Hlt]]. split.
  - exists c. split; [exact Hmem|]. right. reflexivity.
  - intros j b Hj Hb. rewrite lookup_app_l in Hb by lia. split.
    + intros ->. apply Hs. apply list_elem_of_lookup. eauto.
    + intros ->. apply (Hbefore j Hj). rewrite lookup_app_l by lia. exact Hb.
Qed.

Lemma first_stop_end s pad c :
  NUL ∉ s -> c ∉ s ->
  first_stop (s ++ NUL :: pad) c (length s)
  /\ (s ++ NUL :: pad) !! length s = Some NUL.
Proof.
  intros Hs Hc.
  assert (Hmem : (s ++ NUL :: pad) !! length s = Some NUL).
  { rewrite lookup_app_r by lia. rewrite Nat.sub_diag. reflexivity. }
  split; [|exact Hmem]. split.
  - exists NUL. split; [exact Hmem|]. left. reflexivity.
  - intros j b Hj Hb. rewrite lookup_app_l in Hb by lia. split.
    + intros ->. apply Hs. apply list_elem_of_lookup. eauto.
    + intros ->. apply Hc. apply list_elem_of_lookup. eauto.
Qed.

(** X30.  [strchr] with its search a word at a time returns what the search
    byte by byte returns, on both widths of [unsigned long], with and
    without [ALIGN] and in both byte orders, as long as the words it
    reads are there: up to [sizeof (unsigned long) - 1] bytes behind the
    terminating NUL are read. *)
Theorem strchr_words_correct (s pad : list Z) (addr c : Z) :
  bytes s -> NUL ∉ s -> bytes pad -> (ULONG_BYTES <= S (length pad))%nat ->
  0 <= c < 256 ->
  strchr_words ULONG_BYTES ALIGN big_endian (s ++ NUL :: pad) addr c
  = Ret (strchr s c).
Proof.
  intros Hbs Hs Hpad Hlen Hc.
  set (mem := s ++ NUL :: pad).
  assert (Hmem : bytes mem).
  { subst mem. apply bytes_app; [exact Hbs|].
    constructor; [unfold NUL; lia|exact Hpad]. }
  assert (Hml : length mem = (length s + S (length pad))%nat)
    by (subst mem; rewrite length_app; reflexivity).
  unfold strchr_words. cbv zeta. rewrite to_char_small by exact Hc.
  destruct (c =? NUL) eqn:Ec.
  - apply Z.eqb_eq in Ec. subst c. rewrite strchr_nul by exact Hs.
    destruct (first_stop_end s pad NUL Hs Hs) as [Hk Hb]. fold mem in Hk, Hb.
    destruct (align_loop_nul_spec (S (length mem)) mem addr 0 (length s) Hk)
      as [(o & Ha & Ho)|Ha]; [lia|lia| |]; rewrite Ha; cbn [mbind outcome_bind];
      [|reflexivity].
    destruct (word_loop_nul_spec (S (length mem)) mem o (length s) Hmem Hk)
      as (o' & Hw & Ho'); [lia|lia|lia|].
    rewrite Hw. cbn [mbind outcome_bind].
    rewrite (byte_loop_nul_spec _ _ _ (length s) Hk) by lia. reflexivity.
  - apply Z.eqb_neq in Ec.
    assert (Hstop : exists k b,
               first_stop mem c k /\ mem !! k = Some b /\ (k <= length s)%nat
               /\ strchr s c = (if b =? NUL then None else Some k)
               /\ strchr s c = (if b =? c then Some k else None)).
    { destruct (strchr s c) as [k|] eqn:Hk.
      - destruct (first_stop_found s pad c k Hs Ec Hk) as (Hf & Hb & Hlt).
        exists k, c. split; [exact Hf|]. split; [exact Hb|]. split; [lia|].
        rewrite Z.eqb_refl.
        replace (c =? NUL) with false by (symmetry; apply Z.eqb_neq; exact Ec).
        split; reflexivity.
      - apply strchr_none in Hk.
        assert (Hcs : c ∉ s) by (intros H; apply Hk; apply elem_of_app; auto).
        destruct (first_stop_end s pad c Hs Hcs) as [Hf Hb].
        exists (length s), NUL. split; [exact Hf|]. split; [exact Hb|].
        split; [lia|]. rewrite Z.eqb_refl.
        replace (NUL =? c) with false by (symmetry; apply Z.eqb_neq; congruence).
        split; reflexivity. }
    destruct Hstop as (k & b & Hk & Hb & Hle & Hr1 & Hr2).
    destruct (align_loop_spec (S (length mem)) mem addr 0 c k Hk)
      as [(o & Ha & Ho)|(b' & Hb' & Ha)]; [lia|lia| |]; rewrite Ha;
      cbn [mbind outcome_bind].
    + destruct (word_loop_spec (S (length mem)) mem o c k Hmem Hc Hk)
        as (o' & Hw & Ho'); [lia|lia|lia|].
      rewrite Hw. cbn [mbind outcome_bind].
      rewrite (byte_loop_spec _ _ _ _ k Hk) by lia. cbn [mbind outcome_bind].
      rewrite (byte_at_lookup _ _ _ Hb). cbn [mbind outcome_bind].
      rewrite Hr2. reflexivity.
    + rewrite Hb in Hb'. injection Hb' as <-. rewrite Hr1. reflexivity.
Qed.


End WordLoops.

(** ** The further properties at work on examples *)

Lemma valid_world_a_open : valid 0 world_a_open.
Proof.
  split; [lia|]. exists (mk_catalog 1 hello_world_msgs).
  split; [reflexivity|]. simpl. lia.
Qed.

Lemma hello_world_msgs_sorted : StronglySorted key_le hello_world_msgs.
Proof.
  unfold hello_world_msgs. repeat constructor. vm_compute. discriminate.
Qed.

Lemma catclose_frame_witness :
  valid 0 world_a_open
  /\ (catclose 9 0 world_a_open).1 = 0
  /\ slots (catclose 9 0 world_a_open).2 !! 0%nat = Some (mk_catalog 0 []).
Proof.
  split; [exact valid_world_a_open|].
  pose proof (catclose_frame 9 None 0 1 1 1 [] world_a_open valid_world_a_open)
    as H.
  cbv zeta in H. split; [exact (proj1 H)|exact (proj1 (proj2 (proj2 H)))].
Defined.

Lemma catopen_preserves_witness :
  catopen 1 no_environment two_catalogues false (Some (lit "./b.cat")) 0
    world_a_open = Ret (1, world_ab_open)
  /\ valid 0 world_a_open
  /\ 0 <> 1 /\ valid 0 world_ab_open.
Proof.
  assert (H : catopen 1 no_environment two_catalogues false
                (Some (lit "./b.cat")) 0 world_a_open = Ret (1, world_ab_open))
    by (vm_compute; reflexivity).
  split; [exact H|]. split; [exact valid_world_a_open|].
  pose proof (catopen_preserves 1 9 None no_environment two_catalogues false
                (Some (lit "./b.cat")) 0 world_a_open world_ab_open 1 0 1 1 []
                H valid_world_a_open) as P.
  split; [exact (proj1 P)|exact (proj1 (proj2 P))].
Defined.

Lemma catread_sorted_witness :
  catread two_catalogues (lit "./a.cat") empty_world
  = Ret (Some (mk_catalog 0 hello_world_msgs),
         log_fopen (lit "./a.cat") empty_world)
  /\ (0 < 1)%nat
  /\ hello_world_msgs !! 0%nat = Some (mk_message 1 1 (lit "Hello"))
  /\ hello_world_msgs !! 1%nat = Some (mk_message 2 3 (lit "World"))
  /\ (1 < 2 \/ (1 = 2 /\ 1 <= 3)).
Proof.
  assert (H : catread two_catalogues (lit "./a.cat") empty_world
              = Ret (Some (mk_catalog 0 hello_world_msgs),
                     log_fopen (lit "./a.cat") empty_world))
    by (vm_compute; reflexivity).
  assert (Hlt : (0 < 1)%nat) by lia.
  split; [exact H|]. split; [exact Hlt|].
  split; [reflexivity|]. split; [reflexivity|].
  exact (proj2 (catread_sorted two_catalogues (lit "./a.cat") empty_world _
                  (mk_catalog 0 hello_world_msgs) 0 1 _ _ H Hlt
                  eq_refl eq_refl)).
Defined.

Lemma registry_sorted_world_a_open : registry_sorted world_a_open.
Proof.
  intros cat Hcat. apply list_elem_of_singleton in Hcat as ->.
  exact hello_world_msgs_sorted.
Qed.

Lemma registry_sorted_invariant_witness :
  registry_sorted world_a_open
  /\ registry_sorted (catclose 9 0 world_a_open).2
  /\ registry_sorted (catgets 9 None 0 1 1 [] world_a_open).2.
Proof.
  split; [exact registry_sorted_world_a_open|].
  pose proof (registry_sorted_invariant 1 9 None no_environment two_catalogues
                false world_a_open None 0 0 1 1 []
                registry_sorted_world_a_open) as H.
  split; [exact (proj1 (proj2 H))|exact (proj1 (proj2 (proj2 H)))].
Defined.

Lemma catgets_lookup_witness :
  0 <= 0
  /\ slots world_a_open !! Z.to_nat 0 = Some (mk_catalog 1 hello_world_msgs)
  /\ is_opened (mk_catalog 1 hello_world_msgs) <> 0
  /\ StronglySorted key_le (msgs (mk_catalog 1 hello_world_msgs))
  /\ catgets 9 (Some 42) 0 9 9 (lit "?") world_a_open
     = (lit "?", set_errno 42 (set_keymsg (9, 9) world_a_open)).
Proof.
  assert (H0 : 0 <= 0) by lia.
  assert (H1 : is_opened (mk_catalog 1 hello_world_msgs) <> 0)
    by (simpl; lia).
  split; [exact H0|]. split; [reflexivity|]. split; [exact H1|].
  split; [exact hello_world_msgs_sorted|].
  apply (proj2 (catgets_lookup 9 (Some 42) 0 9 9 (lit "?") world_a_open
                  (mk_catalog 1 hello_world_msgs) H0 eq_refl H1
                  hello_world_msgs_sorted)).
  intros m Hm [Hs _]. simpl in Hm.
  repeat (apply elem_of_cons in Hm as [->|Hm]; [simpl in Hs; lia|]).
  inversion Hm.
Defined.

Lemma transform_string_plain_witness :
  bytes (lit "a\x4")
  /\ transform_string (lit "a\x4" ++ NUL :: lit "1")
     = transform_string (lit "a\x4")
  /\ bytes (lit "Hello")
  /\ transform_string (lit "Hello") = Ret (lit "Hello")
  /\ transform_string (lit "Hello" ++ NUL :: lit "x") = Ret (lit "Hello").
Proof.
  assert (H0 : bytes (lit "a\x4")) by (apply bytes_decide; vm_compute; reflexivity).
  assert (H1 : bytes (lit "Hello")) by (apply bytes_decide; vm_compute; reflexivity).
  assert (H2 : forall c, c ∈ lit "Hello" -> c <> chr "\").
  { intros c Hc.
    repeat (apply elem_of_cons in Hc as [->|Hc]; [vm_compute; discriminate|]).
    inversion Hc. }
  assert (H3 : forall c, c ∈ lit "Hello" -> c <> NUL).
  { intros c Hc.
    repeat (apply elem_of_cons in Hc as [->|Hc]; [vm_compute; discriminate|]).
    inversion Hc. }
  split; [exact H0|].
  split; [exact (proj1 (transform_string_plain (lit "a\x4") (lit "1") H0))|].
  split; [exact H1|].
  exact (proj2 (transform_string_plain (lit "Hello") (lit "x") H1) H2 H3).
Defined.

Lemma simple_escapes_witness :
  0 < chr "q" < 256 /\ chr "q" <> chr "d" /\ chr "q" <> chr "x"
  /\ isodigit (chr "q") = false /\ bytes (lit "z")
  /\ transform_string (lit "\qz") = emit (chr "q") (transform_string (lit "z"))
  /\ transform_string (lit "\nz") = emit NL (transform_string (lit "z")).
Proof.
  assert (H1 : 0 < chr "q" < 256) by (vm_compute; split; reflexivity).
  assert (H2 : chr "q" <> chr "d") by (vm_compute; discriminate).
  assert (H3 : chr "q" <> chr "x") by (vm_compute; discriminate).
  assert (H4 : isodigit (chr "q") = false) by reflexivity.
  assert (H5 : bytes (lit "z")) by (apply bytes_decide; vm_compute; reflexivity).
  split; [exact H1|]. split; [exact H2|]. split; [exact H3|].
  split; [exact H4|]. split; [exact H5|].
  destruct (simple_escapes (chr "q") (lit "z") H1 H2 H3 H4 H5)
    as (Ha & _ & Hn & _).
  split; [exact Ha|exact Hn].
Defined.

Lemma hex_escape_witness :
  Forall (fun h => isxdigit h = true) (lit "4a")
  /\ 0 < chr "!" < 256 /\ isxdigit (chr "!") = false /\ bytes (lit "z")
  /\ transform_string (lit "\x4a!z")
     = emit (chr "J") (transform_string (lit "!z")).
Proof.
  assert (H1 : Forall (fun h => isxdigit h = true) (lit "4a"))
    by (repeat constructor).
  assert (H2 : 0 < chr "!" < 256) by (vm_compute; split; reflexivity).
  assert (H3 : isxdigit (chr "!") = false) by reflexivity.
  assert (H4 : bytes (lit "z")) by (apply bytes_decide; vm_compute; reflexivity).
  split; [exact H1|]. split; [exact H2|]. split; [exact H3|].
  split; [exact H4|].
  exact (hex_escape (lit "4a") (chr "!") (lit "z") H1 H2 H3 H4).
Defined.

Lemma transform_string_shorter_witness :
  bytes (lit "a\tb")
  /\ exists t, transform_string (lit "a\tb") = Ret t /\ bytes t
               /\ (length t <= length (lit "a\tb"))%nat.
Proof.
  assert (H1 : bytes (lit "a\tb")) by (apply bytes_decide; vm_compute; reflexivity).
  split; [exact H1|]. exact (transform_string_shorter (lit "a\tb") H1).
Defined.

(** ** The properties of the reader, the strings and the search on
    examples *)

Lemma append_from_file_line_witness :
  (NL ∉ lit "1 1 Hello") /\ (NUL ∉ lit "1 1 Hello")
  /\ DSlength [] + Z.of_nat (length (lit "1 1 Hello")) < NPOS
  /\ append_from_file (lit "1 1 Hello" ++ NL :: lit "rest") []
     = Ret ([] ++ lit "1 1 Hello" ++ [NL], lit "rest").
Proof.
  assert (H1 : (NL ∉ lit "1 1 Hello")) by decided.
  assert (H2 : (NUL ∉ lit "1 1 Hello")) by decided.
  assert (H3 : DSlength [] + Z.of_nat (length (lit "1 1 Hello")) < NPOS)
    by (vm_compute; reflexivity).
  split; [exact H1|]. split; [exact H2|]. split; [exact H3|].
  exact (proj1 (append_from_file_line (lit "1 1 Hello") (lit "rest") []
                  H1 H2 H3)).
Defined.

Lemma catread_line_cases_witness :
  DSlength (lit "  $ note \" ++ [NL]) <= NPOS
  /\ catread_line [] (lit "  $ note \" ++ [NL]) [] None (mk_message 0 0 [])
     = Ret (mk_catread_state [] (lit "$ note ") [] None (mk_message 0 0 [])).
Proof.
  assert (H1 : DSlength (lit "  $ note \" ++ [NL]) <= NPOS)
    by (vm_compute; discriminate).
  split; [exact H1|].
  exact (proj1 (catread_line_cases [] (lit "  $ note \") NL [] None
                  (mk_message 0 0 []) H1) (lit "$ note ") eq_refl).
Defined.

Lemma catread_skips_line_witness :
  (NL ∉ lit "$ a comment") /\ (NUL ∉ lit "$ a comment")
  /\ Z.of_nat (length (lit "$ a comment")) < NPOS
  /\ last (trimmed (lit "$ a comment")) <> Some (chr "\")
  /\ (forall c, head (trimmed (lit "$ a comment")) = Some c ->
        isdigit c = false)
  /\ bytes hello_world
  /\ catread_file (lit "$ a comment" ++ NL :: hello_world)
     = catread_file hello_world.
Proof.
  assert (H1 : (NL ∉ lit "$ a comment")) by decided.
  assert (H2 : (NUL ∉ lit "$ a comment")) by decided.
  assert (H3 : Z.of_nat (length (lit "$ a comment")) < NPOS)
    by (vm_compute; reflexivity).
  assert (H4 : last (trimmed (lit "$ a comment")) <> Some (chr "\"))
    by (vm_compute; discriminate).
  assert (H5 : forall c, head (trimmed (lit "$ a comment")) = Some c ->
                 isdigit c = false)
    by (intros c [= <-]; reflexivity).
  assert (H6 : bytes hello_world) by decided.
  split; [exact H1|]. split; [exact H2|]. split; [exact H3|].
  split; [exact H4|]. split; [exact H5|]. split; [exact H6|].
  exact (catread_skips_line (lit "$ a comment") hello_world H1 H2 H3 H4 H5 H6).
Defined.

Lemma catread_continuation_witness :
  (NL ∉ lit "1 1 Hel") /\ (NUL ∉ lit "1 1 Hel")
  /\ (NL ∉ lit "lo") /\ (NUL ∉ lit "lo")
  /\ bytes (lit "1 1 Hel") /\ bytes (lit "lo") /\ bytes (lit "2 3 World")
  /\ Z.of_nat (length (lit "1 1 Hel") + length (lit "lo")) + 2 < NPOS
  /\ catread_file (lit "1 1 Hel" ++ chr "\" :: NL :: lit "lo" ++ NL
                     :: lit "2 3 World")
     = catread_file (lit "1 1 Hel" ++ lit "lo" ++ NL :: lit "2 3 World").
Proof.
  assert (H1 : (NL ∉ lit "1 1 Hel")) by decided.
  assert (H2 : (NUL ∉ lit "1 1 Hel")) by decided.
  assert (H3 : (NL ∉ lit "lo")) by decided.
  assert (H4 : (NUL ∉ lit "lo")) by decided.
  assert (H5 : bytes (lit "1 1 Hel")) by decided.
  assert (H6 : bytes (lit "lo")) by decided.
  assert (H7 : bytes (lit "2 3 World")) by decided.
  assert (H8 : Z.of_nat (length (lit "1 1 Hel") + length (lit "lo")) + 2 < NPOS)
    by (vm_compute; reflexivity).
  split; [exact H1|]. split; [exact H2|]. split; [exact H3|].
  split; [exact H4|]. split; [exact H5|]. split; [exact H6|].
  split; [exact H7|]. split; [exact H8|].
  exact (catread_continuation (lit "1 1 Hel") (lit "lo") (lit "2 3 World")
           H1 H2 H3 H4 H5 H6 H7 H8).
Defined.

Lemma catread_unterminated_witness :
  chr "!" <> NL /\ chr "!" <> NUL
  /\ catread_file (lit "1 1 Hello" ++ [chr "!"])
     = catread_file (lit "1 1 Hello" ++ [NL]).
Proof.
  assert (H1 : chr "!" <> NL) by (vm_compute; discriminate).
  assert (H2 : chr "!" <> NUL) by (vm_compute; discriminate).
  split; [exact H1|]. split; [exact H2|].
  exact (catread_unterminated (lit "1 1 Hello") (chr "!") H1 H2).
Defined.

Lemma hello_world_entries_well_formed : Forall well_formed hello_world_entries.
Proof.
  unfold hello_world_entries.
  constructor; [|constructor; [|constructor]];
    (unfold well_formed;
     split; [discriminate|]; split; [decided|]; split; [decided|];
     split; [reflexivity|]; split; [reflexivity|];
     split; [vm_compute; reflexivity|]; split; [vm_compute; reflexivity|];
     split; [decided|]; split; [decided|]; split; [decided|];
     split; [|vm_compute; reflexivity];
     intros c Hc; vm_compute in Hc; injection Hc as <-;
     split; [reflexivity|discriminate]).
Qed.

Lemma catread_entries_witness :
  Forall well_formed hello_world_entries /\ hello_world_entries <> []
  /\ catread_file hello_world
     = Ret (mk_catalog 0
              (qsort catmsg_cmp (map entry_message hello_world_entries))).
Proof.
  assert (H2 : hello_world_entries <> []) by discriminate.
  split; [exact hello_world_entries_well_formed|]. split; [exact H2|].
  exact (catread_entries hello_world_entries hello_world_entries_well_formed H2).
Defined.

Lemma strrchr_last_witness :
  (NUL ∉ lit "fr_FR.UTF-8")
  /\ strrchr_source (lit "fr_FR.UTF-8") (chr ".")
     = Ret (strrchr (lit "fr_FR.UTF-8") (chr ".")).
Proof.
  assert (H1 : (NUL ∉ lit "fr_FR.UTF-8")) by decided.
  split; [exact H1|].
  exact (proj1 (strrchr_last (lit "fr_FR.UTF-8") (chr ".") 0 H1)).
Defined.

Lemma strpbrk_first_witness :
  (NUL ∉ lit "prog")
  /\ (strpbrk (lit "prog") (lit "\/:") = None <->
      forall x, x ∈ lit "prog" -> x ∉ lit "\/:").
Proof.
  assert (H1 : (NUL ∉ lit "prog")) by decided.
  split; [exact H1|].
  exact (proj2 (strpbrk_first (lit "prog") (lit "\/:") 0 H1)).
Defined.

Lemma catopen_literal_path_witness :
  lit "prog" <> [] /\ strpbrk (lit "prog") (lit "\/:") = None
  /\ env_literal (lit "NLSPATH") = Some (lit "messages.cat")
  /\ bytes (lit "messages.cat") /\ (chr "%" ∉ lit "messages.cat")
  /\ (chr ";" ∉ lit "messages.cat") /\ (NUL ∉ lit "messages.cat")
  /\ catopen 1 env_literal no_files false (Some (lit "prog")) 0 empty_world
     = '(cat, w) ← catread no_files (lit "messages.cat") empty_world;
       match cat with
       | Some cat => install_catalog cat w
       | None => Ret (-1, w)
       end.
Proof.
  assert (H1 : lit "prog" <> []) by discriminate.
  assert (H2 : strpbrk (lit "prog") (lit "\/:") = None) by reflexivity.
  assert (H3 : env_literal (lit "NLSPATH") = Some (lit "messages.cat"))
    by reflexivity.
  assert (H4 : bytes (lit "messages.cat")) by decided.
  assert (H5 : (chr "%" ∉ lit "messages.cat")) by decided.
  assert (H6 : (chr ";" ∉ lit "messages.cat")) by decided.
  assert (H7 : (NUL ∉ lit "messages.cat")) by decided.
  split; [exact H1|]. split; [exact H2|]. split; [exact H3|].
  split; [exact H4|]. split; [exact H5|]. split; [exact H6|].
  split; [exact H7|].
  exact (catopen_literal_path 1 env_literal no_files false (lit "prog")
           (lit "messages.cat") 0 empty_world H1 H2 H3 H4 H5 H6 H7).
Defined.

Lemma catopen_trailing_percent_witness :
  lit "prog" <> [] /\ strpbrk (lit "prog") (lit "\/:") = None
  /\ env_percent (lit "NLSPATH") = Some (lit "messages.cat" ++ lit "%")
  /\ bytes (lit "messages.cat") /\ (chr "%" ∉ lit "messages.cat")
  /\ (chr ";" ∉ lit "messages.cat")
  /\ catopen 1 env_percent no_files false (Some (lit "prog")) 0 empty_world
     = Fault OutOfBounds.
Proof.
  assert (H1 : lit "prog" <> []) by discriminate.
  assert (H2 : strpbrk (lit "prog") (lit "\/:") = None) by reflexivity.
  assert (H3 : env_percent (lit "NLSPATH")
               = Some (lit "messages.cat" ++ lit "%")) by reflexivity.
  assert (H4 : bytes (lit "messages.cat")) by decided.
  assert (H5 : (chr "%" ∉ lit "messages.cat")) by decided.
  assert (H6 : (chr ";" ∉ lit "messages.cat")) by decided.
  split; [exact H1|]. split; [exact H2|]. split; [exact H3|].
  split; [exact H4|]. split; [exact H5|]. split; [exact H6|].
  exact (catopen_trailing_percent 1 env_percent no_files false (lit "prog")
           (lit "messages.cat") 0 empty_world H1 H2 H3 H4 H5 H6).
Defined.

Lemma catopen_direct_path_witness :
  (chr "/" ∈ lit "./a.cat") /\ (chr "/" ∈ lit "\/:")
  /\ catopen 1 no_environment two_catalogues false (Some (lit "./a.cat")) 0
       empty_world
     = catopen 2 env_fr_FR two_catalogues true (Some (lit "./a.cat")) 1
         empty_world.
Proof.
  assert (H1 : (chr "/" ∈ lit "./a.cat")) by decided.
  assert (H2 : (chr "/" ∈ lit "\/:")) by decided.
  split; [exact H1|]. split; [exact H2|].
  exact (proj1 (catopen_direct_path 1 2 no_environment env_fr_FR
                  two_catalogues false true (lit "./a.cat") (chr "/") 0 1
                  empty_world H1 H2)).
Defined.

Lemma locale_parts_witness :
  bytes (lit "fr") /\ bytes (lit "FR") /\ lit "fr" <> [] /\ lit "FR" <> []
  /\ (chr "_" ∉ lit "fr") /\ (chr "." ∉ lit "UTF-8")
  /\ (NUL ∉ lit "fr") /\ (NUL ∉ lit "FR") /\ (NUL ∉ lit "UTF-8")
  /\ expand_segment false (split_locale (lit "fr_FR.UTF-8")) (lit "prog")
       (lit "%l") []
     = Ret (lit "fr", [])
  /\ expand_segment false (split_locale (lit "fr_FR.UTF-8")) (lit "prog")
       (lit "%t") []
     = Ret (lit "FR", []).
Proof.
  assert (H1 : bytes (lit "fr")) by decided.
  assert (H2 : bytes (lit "FR")) by decided.
  assert (H3 : lit "fr" <> []) by discriminate.
  assert (H4 : lit "FR" <> []) by discriminate.
  assert (H5 : (chr "_" ∉ lit "fr")) by decided.
  assert (H6 : (chr "." ∉ lit "UTF-8")) by decided.
  assert (H7 : (NUL ∉ lit "fr")) by decided.
  assert (H8 : (NUL ∉ lit "FR")) by decided.
  assert (H9 : (NUL ∉ lit "UTF-8")) by decided.
  split; [exact H1|]. split; [exact H2|]. split; [exact H3|].
  split; [exact H4|]. split; [exact H5|]. split; [exact H6|].
  split; [exact H7|]. split; [exact H8|]. split; [exact H9|].
  pose proof (locale_parts false (lit "fr") (lit "FR") (lit "UTF-8")
                (lit "prog") [] H1 H2 H3 H4 H5 H6 H7 H8 H9) as H.
  cbv zeta in H. split; [exact (proj1 H)|exact (proj1 (proj2 H))].
Defined.

Lemma catopen_search_order_witness :
  Forall2 (fun seg path =>
             seg <> []
             /\ expand_segment false (split_locale (lit "C")) (lit "prog")
                  seg [] = Ret (path, []))
    [lit "/x/%N.cat"; lit "/y/%N.cat"] [lit "/x/prog.cat"; lit "/y/prog.cat"]
  /\ [lit "/x/%N.cat"; lit "/y/%N.cat"] <> []
  /\ catopen_search no_files false (lit "/x/%N.cat;/y/%N.cat;") (lit "C")
       (lit "prog") empty_world
     = search_files no_files [lit "/x/prog.cat"; lit "/y/prog.cat"]
         empty_world.
Proof.
  assert (H1 : Forall2 (fun seg path =>
                 seg <> []
                 /\ expand_segment false (split_locale (lit "C")) (lit "prog")
                      seg [] = Ret (path, []))
                 [lit "/x/%N.cat"; lit "/y/%N.cat"]
                 [lit "/x/prog.cat"; lit "/y/prog.cat"]).
  { repeat constructor; discriminate || (vm_compute; reflexivity). }
  assert (H2 : [lit "/x/%N.cat"; lit "/y/%N.cat"] <> []) by discriminate.
  split; [exact H1|]. split; [exact H2|].
  exact (catopen_search_order no_files false (lit "C") (lit "prog")
           [lit "/x/%N.cat"; lit "/y/%N.cat"]
           [lit "/x/prog.cat"; lit "/y/prog.cat"] true empty_world H1 H2).
Defined.

(** ** The last properties on examples *)

Lemma catalogue_end_to_end_witness :
  is_Some (strpbrk (lit "./a.cat") (lit "\/:"))
  /\ two_catalogues (lit "./a.cat") = File (catalogue_file hello_world_entries)
  /\ Forall well_formed hello_world_entries /\ hello_world_entries <> []
  /\ exists catd w1,
       catopen 1 no_environment two_catalogues false (Some (lit "./a.cat")) 0
         empty_world = Ret (catd, w1)
       /\ valid catd w1
       /\ (catgets 9 (Some 42) catd 7 7 (lit "?") w1).1 = lit "?".
Proof.
  assert (H1 : is_Some (strpbrk (lit "./a.cat") (lit "\/:")))
    by (vm_compute; eauto).
  assert (H2 : two_catalogues (lit "./a.cat")
               = File (catalogue_file hello_world_entries)) by reflexivity.
  assert (H4 : hello_world_entries <> []) by discriminate.
  split; [exact H1|]. split; [exact H2|].
  split; [exact hello_world_entries_well_formed|]. split; [exact H4|].
  destruct (catalogue_end_to_end 1 9 (Some 42) no_environment two_catalogues
              false hello_world_entries (lit "./a.cat") 0 empty_world (lit "?")
              H1 H2 hello_world_entries_well_formed H4)
    as (catd & w1 & Hopen & Hv & _ & _ & Hmiss).
  exists catd, w1. split; [exact Hopen|]. split; [exact Hv|].
  apply Hmiss. intros e He [Hs _]. unfold hello_world_entries in He.
  repeat (apply elem_of_cons in He as [->|He]; [vm_compute in Hs; discriminate Hs|]).
  inversion He.
Defined.

Lemma catopen_default_path_witness :
  no_environment (lit "NLSPATH") = None
  /\ lit "prog" <> [] /\ strpbrk (lit "prog") (lit "\/:") = None
  /\ (NUL ∉ lit "prog")
  /\ catopen_lang 1 no_environment 0 = lit "C" /\ (NUL ∉ lit "C")
  /\ catopen 1 no_environment no_files false (Some (lit "prog")) 0 empty_world
     = search_files no_files
         [lit "/usr/share/nls/C/prog.cat"; lit "/usr/share/nls/C./prog.cat";
          lit "/usr/share/nls/C/prog.cat"] empty_world.
Proof.
  assert (H1 : no_environment (lit "NLSPATH") = None) by reflexivity.
  assert (H2 : lit "prog" <> []) by discriminate.
  assert (H3 : strpbrk (lit "prog") (lit "\/:") = None) by reflexivity.
  assert (H4 : NUL ∉ lit "prog") by decided.
  assert (H5 : catopen_lang 1 no_environment 0 = lit "C") by reflexivity.
  assert (H6 : NUL ∉ lit "C") by decided.
  split; [exact H1|]. split; [exact H2|]. split; [exact H3|].
  split; [exact H4|]. split; [exact H5|]. split; [exact H6|].
  pose proof (catopen_default_path 1 no_environment no_files false (lit "prog")
                (lit "C") 0 empty_world H1 H2 H3 H4 H5 H6) as H.
  cbv zeta in H. exact (proj1 H eq_refl).
Defined.

Lemma detect_in_word_witness :
  (4%nat = 4%nat \/ 4%nat = 8%nat)
  /\ bytes [65; 0; 66; 67] /\ length [65; 0; 66; 67] = 4%nat
  /\ 0 <= 66 < 256
  /\ (DETECTNULL 4 (le_combine [65; 0; 66; 67]) <> 0 <-> NUL ∈ [65; 0; 66; 67])
  /\ (DETECTCHAR 4 (le_combine [65; 0; 66; 67]) (mask_loop 4 4 0 66) <> 0
      <-> 66 ∈ [65; 0; 66; 67]).
Proof.
  assert (H0 : 4%nat = 4%nat \/ 4%nat = 8%nat) by (left; reflexivity).
  assert (H1 : bytes [65; 0; 66; 67]) by decided.
  assert (H2 : length [65; 0; 66; 67] = 4%nat) by reflexivity.
  assert (H3 : 0 <= 66 < 256) by lia.
  split; [exact H0|]. split; [exact H1|]. split; [exact H2|].
  split; [exact H3|].
  pose proof (detect_in_word 4 H0 [65; 0; 66; 67] 66 H1 H2 H3) as H.
  split; [exact (proj1 H)|exact (proj1 (proj2 H))].
Defined.

Lemma strchr_words_correct_witness :
  (8%nat = 4%nat \/ 8%nat = 8%nat)
  /\ bytes (lit "fr_FR.UTF-8") /\ (NUL ∉ lit "fr_FR.UTF-8")
  /\ bytes [1; 2; 3; 4; 5; 6; 7]
  /\ (8 <= S (length [1; 2; 3; 4; 5; 6; 7]))%nat
  /\ 0 <= chr "_" < 256
  /\ strchr_words 8 true false (lit "fr_FR.UTF-8" ++ NUL :: [1; 2; 3; 4; 5; 6; 7])
       4099 (chr "_")
     = Ret (strchr (lit "fr_FR.UTF-8") (chr "_")).
Proof.
  assert (H0 : 8%nat = 4%nat \/ 8%nat = 8%nat) by (right; reflexivity).
  assert (H1 : bytes (lit "fr_FR.UTF-8")) by decided.
  assert (H2 : NUL ∉ lit "fr_FR.UTF-8") by decided.
  assert (H3 : bytes [1; 2; 3; 4; 5; 6; 7]) by decided.
  assert (H4 : (8 <= S (length [1; 2; 3; 4; 5; 6; 7]))%nat) by (simpl; lia).
  assert (H5 : 0 <= chr "_" < 256) by (vm_compute; split; discriminate || reflexivity).
  split; [exact H0|]. split; [exact H1|]. split; [exact H2|].
  split; [exact H3|]. split; [exact H4|]. split; [exact H5|].
  exact (strchr_words_correct 8 true false H0 (lit "fr_FR.UTF-8")
           [1; 2; 3; 4; 5; 6; 7] 4099 (chr "_") H1 H2 H3 H4 H5).
Defined.
